(** * DataGeneration.py: the thermal-observable engine of [training_data]

  A shallow embedding of [src/DataGeneration.py] (class [training_data])
  and the properties of it that the specification states.

  Number model.  The program computes with numpy float64 values.  They are
  idealised here as exact numbers:
  - quantities that the program only compares and combines with [+ - * /]
    (the quantum numbers [J], [L], [S], the Stevens parameters, the ranges
    and the uniform draws) are rationals [Q], so that the sampler and the
    dispatch of [ham_cr] run inside Rocq;
  - quantities that pass through [exp] and [sqrt] (operator entries,
    temperatures, energies, observables) are reals [R], entered from [Q]
    through [Q2R];
  - a numpy division by zero does not raise: it yields [inf] or [nan].
    [Float.div] returns [None] there, and [None] stands for a value outside
    the real-number idealisation.  A Python-level division by zero raises
    [ZeroDivisionError].
  Rounding and overflow are not modelled, with one exception: the test of
  the rejection loops of [generate_random_stevens] is the one place where
  the rounding of float64 decides which branch the program takes, and it is
  evaluated in binary64, with Rocq's primitive floats, on the entries of
  the candidate read as float64 values. *)

From Stdlib Require Import String ZArith QArith Qabs Qround Bool Arith Lia List.
From Stdlib Require Import Reals Qreals Psatz Sorted.
From Stdlib Require PrimFloat SpecFloat FloatOps.
Import ListNotations.

Set Implicit Arguments.

(** ** Python exceptions and results *)

Module Py.

Inductive exn : Type :=
| ValueError (msg : string)
| IndexError
| ZeroDivisionError.

Inductive result (A : Type) : Type :=
| Ok (a : A)
| Raise (e : exn).

Arguments Ok {A} a.
Arguments Raise {A} e.

Definition bind {A B : Type} (r : result A) (k : A -> result B) : result B :=
  match r with
  | Ok a => k a
  | Raise e => Raise e
  end.

(** [l[i]] on a Python list, for a non-negative index. *)
Definition item {A : Type} (l : list A) (i : nat) : result A :=
  match nth_error l i with
  | Some a => Ok a
  | None => Raise IndexError
  end.

(** [l[i] = v] on an array, for a non-negative index in range: the arrays the
    program assigns into are allocated with a fixed length just before. *)
Fixpoint set_item {A : Type} (l : list A) (i : nat) (v : A) : list A :=
  match l, i with
  | [], _ => []
  | _ :: l', O => v :: l'
  | a :: l', S i' => a :: set_item l' i' v
  end.

(** A loop or comprehension that builds one value per element, in order,
    and stops at the first exception. *)
Fixpoint mapM {A B : Type} (f : A -> result B) (l : list A)
    : result (list B) :=
  match l with
  | [] => Ok []
  | a :: l' =>
      match f a with
      | Ok b =>
          match mapM f l' with
          | Ok bs => Ok (b :: bs)
          | Raise e => Raise e
          end
      | Raise e => Raise e
      end
  end.

End Py.

Import Py.

Declare Scope result_scope.
Delimit Scope result_scope with result.
Notation "x <- c ;; k" := (Py.bind c (fun x => k))
(at level 61, c at next level, right associativity) : result_scope.

(** ** The random source: [numpy.random.Generator] *)

Module Rng.

(** The generator built by [default_rng(rng_seed)] is a deterministic
    sequence of uniform draws in [[0,1)]; its state is the number of draws
    already handed out. *)
Record Generator : Type := mkGenerator {
  stream : nat -> Q;
  consumed : nat
}.

(** The state-and-exception monad of the methods that draw. *)
Definition M (A : Type) : Type := Generator -> result A * Generator.

Definition ret {A : Type} (a : A) : M A := fun g => (Ok a, g).

Definition raise {A : Type} (e : exn) : M A := fun g => (Raise e, g).

Definition lift {A : Type} (r : result A) : M A := fun g => (r, g).

Definition bind {A B : Type} (m : M A) (k : A -> M B) : M B :=
  fun g =>
    match m g with
    | (Ok a, g') => k a g'
    | (Raise e, g') => (Raise e, g')
    end.

(** [self.rg.random()] *)
Definition random : M Q :=
  fun g => (Ok (stream g (consumed g)),
            mkGenerator (stream g) (S (consumed g))).

(** [while cond: body], with the iterations bounded by [fuel]; [None] when
    the bound is reached with the condition still true. *)
Fixpoint while {St : Type} (fuel : nat) (cond : St -> bool)
    (body : St -> M St) (s : St) (g : Generator)
    : option (result St * Generator) :=
  if cond s then
    match fuel with
    | O => None
    | S fuel' =>
        match body s g with
        | (Ok s', g') => while fuel' cond body s' g'
        | (Raise e, g') => Some (Raise e, g')
        end
    end
  else Some (Ok s, g).

End Rng.

Declare Scope rng_scope.
Delimit Scope rng_scope with rng.
Notation "x <- c ;; k" := (Rng.bind c (fun x => k))
(at level 61, c at next level, right associativity) : rng_scope.

(** ** The object: [training_data.__init__] *)

Module Self.

(** The attributes are read as [Self.J self], [Self.point_group self], ...
    the way the methods read [self.J], [self.point_group]. *)
Record training_data : Type := mk_training_data {
  point_group : string;
  N_t : nat;
  rng_seed : Z;
  J : Q;
  L : Q;
  S : Q;
  B_directions : list (list R)
}.

End Self.

(** ** Drawing random Stevens parameters *)

Module Sampler.

Import Rng.
Local Open Scope Q_scope.
Local Open Scope string_scope.

(** [range[i][0] + (range[i][1] - range[i][0])*self.rg.random()]: the
    subscripts are evaluated before the draw. *)
Definition draw_in (range : list (list Q)) (i : nat) : M Q :=
  (lo <- lift (p <- item range i ;; item p 0)%result ;;
   hi <- lift (p <- item range i ;; item p 1)%result ;;
   r <- random ;;
   ret (lo + (hi - lo) * r))%rng.

(** The float64 that an entry of the array holds.  The entries are computed
    here as exact rationals; the array stores float64 values, and the test
    of the loop is evaluated on those: the rational [n/d] is read as the
    float64 nearest to it (the quotient of the integers [n] and [d], rounded
    once, to nearest, ties to even).  A rational that is a float64 value, as
    every entry is that is computed without rounding from float64 ranges
    and draws, is read as itself. *)
Definition to_float64 (x : Q) : PrimFloat.float :=
  match Qnum x with
  | Z0 => PrimFloat.zero
  | Zpos n =>
      FloatOps.SF2Prim
        (SpecFloat.SFdiv FloatOps.prec FloatOps.emax
           (SpecFloat.S754_finite false n 0)
           (SpecFloat.S754_finite false (Qden x) 0))
  | Zneg n =>
      FloatOps.SF2Prim
        (SpecFloat.SFdiv FloatOps.prec FloatOps.emax
           (SpecFloat.S754_finite true n 0)
           (SpecFloat.S754_finite false (Qden x) 0))
  end.

(** [np.abs(a)] of the float64 array that holds [a] *)
Definition abs64 (a : list Q) : list PrimFloat.float :=
  map (fun x => PrimFloat.abs (to_float64 x)) a.

(** [np.sum(a)] of a float64 array of fewer than 8 entries: numpy adds
    them to 0 one after the other, from the first, each addition rounded to
    float64. *)
Definition sum64 (a : list PrimFloat.float) : PrimFloat.float :=
  fold_left PrimFloat.add a PrimFloat.zero.

(** [np.sum(np.abs(sp)) - np.abs(sp[0]) - np.abs(sp[-1])], in float64 as
    the program computes it: the leading entry is added and taken away
    again, and each step is rounded. *)
Definition test_value (sp : list Q) : PrimFloat.float :=
  let a := abs64 sp in
  PrimFloat.sub (PrimFloat.sub (sum64 a) (nth 0 a PrimFloat.zero))
                (last a PrimFloat.zero).

(** [np.sum(np.abs(sp)) - np.abs(sp[0]) - np.abs(sp[-1]) > 1] *)
Definition rejected (sp : list Q) : bool :=
  PrimFloat.ltb PrimFloat.one (test_value sp).

(** Body of the [while] loop of the ["C4v"] branch. *)
Definition body_C4v (range : list (list Q)) (W_sign : Q) (sp : list Q)
    : M (list Q) :=
  (x0 <- draw_in range 0 ;;
   let sp := set_item sp 0 (x0 * W_sign) in
   x1 <- draw_in range 1 ;;
   let sp := set_item sp 1 x1 in
   x2 <- draw_in range 2 ;;
   let sp := set_item sp 2 x2 in
   x3 <- draw_in range 3 ;;
   let sp := set_item sp 3 x3 in
   x4 <- draw_in range 4 ;;
   let sp := set_item sp 4 x4 in
   ret sp)%rng.

(** Body of the [while] loop of the ["D3h"] branch. *)
Definition body_D3h (range : list (list Q)) (W_sign : Q) (sp : list Q)
    : M (list Q) :=
  (x0 <- draw_in range 0 ;;
   let sp := set_item sp 0 (x0 * W_sign) in
   x1 <- draw_in range 1 ;;
   let sp := set_item sp 1 x1 in
   x2 <- draw_in range 2 ;;
   let sp := set_item sp 2 x2 in
   x3 <- draw_in range 3 ;;
   let sp := set_item sp 3 x3 in
   ret sp)%rng.

(** [stevens_params[k] = 2.*self.rg.random() - 1.] *)
Definition draw_trailing (k : nat) (sp : list Q) : M (list Q) :=
  (r <- random ;; ret (set_item sp k (2 * r - 1)))%rng.

(** The statement after a loop, run on what the loop left. *)
Definition after_loop (loop : option (result (list Q) * Generator))
    (k : list Q -> M (list Q)) : option (result (list Q) * Generator) :=
  match loop with
  | None => None
  | Some (Ok sp, g) => Some (k sp g)
  | Some (Raise e, g) => Some (Raise e, g)
  end.

(** [generate_random_stevens(self, range, W_sign)].  [fuel] bounds the
    iterations of the rejection loop; the result is [None] when the loop
    has not accepted a candidate within [fuel] iterations. *)
Definition generate_random_stevens (self : Self.training_data)
    (range : list (list Q)) (W_sign : Q) (fuel : nat) (g : Generator)
    : option (result (list Q) * Generator) :=
  if (Self.point_group self =? "Oh")%string then
    Some ((x0 <- draw_in range 0 ;;
           x1 <- draw_in range 1 ;;
           ret [x0 * W_sign; x1])%rng g)
  else if (Self.point_group self =? "C4v")%string then
    after_loop
      (while fuel rejected (body_C4v range W_sign) [1; 1; 1; 1; 1; 0] g)
      (draw_trailing 5)
  else if (Self.point_group self =? "D3h")%string then
    after_loop
      (while fuel rejected (body_D3h range W_sign) [1; 1; 1; 1; 0] g)
      (draw_trailing 4)
  else
    Some (raise (ValueError "This point group is not implemented.") g).

End Sampler.

(** ** Assembling the crystal-field Hamiltonian *)

Module Assembler.

Local Open Scope Q_scope.
Local Open Scope string_scope.

(** The functions of the imported module [ham_cr] that the method calls. *)
Inductive basis_fn : Type :=
| ham_cr_PG_Oh_J_4 | ham_cr_PG_Oh_J_7_5 | ham_cr_PG_Oh_J_3_5
| ham_cr_PG_Oh_J_6 | ham_cr_PG_Oh_J_8 | ham_cr_PG_Oh_J_4_5
| ham_cr_PG_C4v_J_4 | ham_cr_PG_C4v_J_7_5 | ham_cr_PG_C4v_J_3_5
| ham_cr_PG_C4v_J_6 | ham_cr_PG_C4v_J_8 | ham_cr_PG_C4v_J_4_5
| ham_cr_PG_D3h_J_4 | ham_cr_PG_D3h_J_7_5 | ham_cr_PG_D3h_J_3_5
| ham_cr_PG_D3h_J_6 | ham_cr_PG_D3h_J_8 | ham_cr_PG_D3h_J_4_5.

(** How a call of the method ends.  Every call of the imported module is a
    tail call [return ham_cr.f(...)], so the method either raises, or hands
    over to one function of the module with the arguments it has built, or
    falls off the end of the [if] chain and returns [None]. *)
Inductive outcome : Type :=
| Raises (e : exn)
| Calls (f : basis_fn) (args : list Q)
| ReturnsNone.

(** [stevens_params[0], ..., stevens_params[n-1]], read after the length of
    [stevens_params] has been checked. *)
Definition args_of (n : nat) (stevens_params : list Q) : list Q :=
  map (fun i => nth i stevens_params 0) (seq 0 n).

(** The chain [if (self.J == 4): ... elif (self.J == 7.5): ...] of one point
    group; it has no [else]. *)
Definition by_J (self : Self.training_data) (n : nat)
    (f4 f7_5 f3_5 f6 f8 f4_5 : basis_fn) (stevens_params : list Q)
    : outcome :=
  if Qeq_bool (Self.J self) 4 then Calls f4 (args_of n stevens_params)
  else if Qeq_bool (Self.J self) (15 # 2) then
    Calls f7_5 (args_of n stevens_params)
  else if Qeq_bool (Self.J self) (7 # 2) then
    Calls f3_5 (args_of n stevens_params)
  else if Qeq_bool (Self.J self) 6 then Calls f6 (args_of n stevens_params)
  else if Qeq_bool (Self.J self) 8 then Calls f8 (args_of n stevens_params)
  else if Qeq_bool (Self.J self) (9 # 2) then
    Calls f4_5 (args_of n stevens_params)
  else ReturnsNone.

(** [ham_cr(self, stevens_params)] *)
Definition ham_cr (self : Self.training_data) (stevens_params : list Q)
    : outcome :=
  if Self.point_group self =? "Oh" then
    if negb (length stevens_params =? 2)%nat then
      Raises (ValueError
        "Number of Stevens parameters should be 2 for point group Oh")
    else
      by_J self 2 ham_cr_PG_Oh_J_4 ham_cr_PG_Oh_J_7_5 ham_cr_PG_Oh_J_3_5
        ham_cr_PG_Oh_J_6 ham_cr_PG_Oh_J_8 ham_cr_PG_Oh_J_4_5 stevens_params
  else if Self.point_group self =? "C4v" then
    if negb (length stevens_params =? 6)%nat then
      Raises (ValueError
        "Number of Stevens parameters should be 5+1=6 for point group C4v")
    else
      by_J self 6 ham_cr_PG_C4v_J_4 ham_cr_PG_C4v_J_7_5 ham_cr_PG_C4v_J_3_5
        ham_cr_PG_C4v_J_6 ham_cr_PG_C4v_J_8 ham_cr_PG_C4v_J_4_5
        stevens_params
  else if Self.point_group self =? "D3h" then
    if negb (length stevens_params =? 5)%nat then
      Raises (ValueError
        "Number of Stevens parameters should be 4+1=5 for point group D3h")
    else
      by_J self 5 ham_cr_PG_D3h_J_4 ham_cr_PG_D3h_J_7_5 ham_cr_PG_D3h_J_3_5
        ham_cr_PG_D3h_J_6 ham_cr_PG_D3h_J_8 ham_cr_PG_D3h_J_4_5
        stevens_params
  else
    Raises (ValueError
      "This point group and/or value of J is not implemented.").

End Assembler.

(** ** Floating-point values, idealised *)

Module Float.

Local Open Scope R_scope.

(** A float64 is a real number, or [None] for [inf] and [nan]. *)
Definition float : Type := option R.

Definition lift1 (f : R -> R) (a : float) : float :=
  match a with
  | Some x => Some (f x)
  | None => None
  end.

Definition lift2 (f : R -> R -> R) (a b : float) : float :=
  match a, b with
  | Some x, Some y => Some (f x y)
  | _, _ => None
  end.

Definition add : float -> float -> float := lift2 Rplus.
Definition sub : float -> float -> float := lift2 Rminus.
Definition mul : float -> float -> float := lift2 Rmult.
Definition opp : float -> float := lift1 Ropp.
Definition exp : float -> float := lift1 Rtrigo_def.exp.

(** numpy's [x / y]: no exception, [inf] or [nan] for a zero divisor. *)
Definition div (a b : float) : float :=
  match a, b with
  | Some x, Some y => if Req_dec_T y 0 then None else Some (x / y)
  | _, _ => None
  end.

(** [np.sqrt]: [nan] for a negative argument. *)
Definition sqrt (a : float) : float :=
  match a with
  | Some x => if Rlt_dec x 0 then None else Some (R_sqrt.sqrt x)
  | None => None
  end.

(** [x**2] *)
Definition sq (a : float) : float := mul a a.

(** [np.sum] of a one-dimensional array. *)
Definition sum (l : list float) : float := fold_right add (Some 0) l.

End Float.

Declare Scope float_scope.
Delimit Scope float_scope with float.
Infix "+" := Float.add : float_scope.
Infix "-" := Float.sub : float_scope.
Infix "*" := Float.mul : float_scope.
Infix "/" := Float.div : float_scope.
Notation "- x" := (Float.opp x) : float_scope.

(** ** Complex values *)

Module Cx.

Local Open Scope R_scope.

Definition C : Type := (R * R)%type.

Definition of_R (x : R) : C := (x, 0).
(** [1j] *)
Definition j : C := (0, 1).
Definition add (a b : C) : C := (fst a + fst b, snd a + snd b).
Definition sub (a b : C) : C := (fst a - fst b, snd a - snd b).
Definition opp (a : C) : C := (- fst a, - snd a).
Definition mul (a b : C) : C :=
  (fst a * fst b - snd a * snd b, fst a * snd b + snd a * fst b).
Definition conj (a : C) : C := (fst a, - snd a).

(** A complex128 is a complex number, or [None] when a component is [inf]
    or [nan]. *)
Definition cfloat : Type := option C.

Definition lift2 (f : C -> C -> C) (a b : cfloat) : cfloat :=
  match a, b with
  | Some x, Some y => Some (f x y)
  | _, _ => None
  end.

Definition cadd : cfloat -> cfloat -> cfloat := lift2 add.
Definition csub : cfloat -> cfloat -> cfloat := lift2 sub.
Definition cmul : cfloat -> cfloat -> cfloat := lift2 mul.
Definition cconj (a : cfloat) : cfloat := option_map conj a.

(** A float used where a complex is expected. *)
Definition of_float (a : Float.float) : cfloat := option_map of_R a.

(** [z / b] for a float [b]. *)
Definition div_float (a : cfloat) (b : Float.float) : cfloat :=
  match a, b with
  | Some z, Some y =>
      if Req_dec_T y 0 then None else Some (fst z / y, snd z / y)
  | _, _ => None
  end.

(** What a float array keeps of a complex value assigned into it: the real
    part. *)
Definition real (a : cfloat) : Float.float := option_map fst a.

(** [np.sum] of a list of complex values. *)
Definition sum (l : list cfloat) : cfloat :=
  fold_right cadd (Some (of_R 0)) l.

End Cx.

(** ** The numpy and scipy operations the program uses *)

Module Np.

Import Float Cx.
Local Open Scope nat_scope.

(** A two-dimensional array: its shape and its entries.  The entries are
    read at indices inside the shape only. *)
Record ndarray : Type := mk_ndarray {
  nrows : nat;
  ncols : nat;
  entry : nat -> nat -> cfloat
}.

(** [np.arange(stop)] for a float [stop]: [0., 1., ...], [ceil(stop)] of
    them. *)
Definition arange (stop : Q) : list Q :=
  map (fun k => inject_Z (Z.of_nat k)) (seq 0 (Z.to_nat (Qceiling stop))).

(** [np.linspace(start, stop, num)]: [num] points [i*step + start] with
    [step = (stop - start)/(num - 1)], the last one set to [stop]. *)
Definition linspace (start stop : R) (num : Z) : result (list R) :=
  if (num <? 0)%Z then
    Raise (ValueError "Number of samples must be non-negative.")
  else
    match Z.to_nat num with
    | 0 => Ok []
    | 1 => Ok [start]
    | Datatypes.S m =>
        let step := ((stop - start) / INR m)%R in
        Ok (map (fun i => (INR i * step + start)%R) (seq 0 m) ++ [stop])
    end.

(** [np.diag(v, k)]: the square array of size [len(v) + |k|] with [v] on
    the [k]-th diagonal. *)
Definition diag (v : list float) (k : Z) : ndarray :=
  let n := length v + Z.abs_nat k in
  mk_ndarray n n (fun i j =>
    if (Z.of_nat j - Z.of_nat i =? k)%Z then
      of_float (nth (if (0 <=? k)%Z then i else j) v (Some 0%R))
    else Some (of_R 0)).

(** Broadcasting of one dimension: equal sizes, or one of them is 1. *)
Definition broadcast_dim (a b : nat) : option nat :=
  if a =? b then Some a
  else if a =? 1 then Some b
  else if b =? 1 then Some a
  else None.

(** The index read in a dimension of size [dim] for the index [i] of the
    broadcast result. *)
Definition stretch (dim i : nat) : nat := if dim =? 1 then 0 else i.

(** An elementwise binary operation on two arrays. *)
Definition elementwise (f : cfloat -> cfloat -> cfloat) (A B : ndarray)
    : result ndarray :=
  match broadcast_dim (nrows A) (nrows B),
        broadcast_dim (ncols A) (ncols B) with
  | Some r, Some c =>
      Ok (mk_ndarray r c (fun i j =>
            f (entry A (stretch (nrows A) i) (stretch (ncols A) j))
              (entry B (stretch (nrows B) i) (stretch (ncols B) j))))
  | _, _ => Raise (ValueError "operands could not be broadcast together")
  end.

(** [A + B] and [A - B] *)
Definition add : ndarray -> ndarray -> result ndarray := elementwise cadd.
Definition sub : ndarray -> ndarray -> result ndarray := elementwise csub.

(** [c * A] and [A * c] for a scalar [c] *)
Definition scale (c : cfloat) (A : ndarray) : ndarray :=
  mk_ndarray (nrows A) (ncols A) (fun i j => cmul c (entry A i j)).
Definition scale_r (A : ndarray) (c : cfloat) : ndarray :=
  mk_ndarray (nrows A) (ncols A) (fun i j => cmul (entry A i j) c).

(** [A / c] for a float scalar [c] *)
Definition div_scalar (A : ndarray) (c : float) : ndarray :=
  mk_ndarray (nrows A) (ncols A) (fun i j => div_float (entry A i j) c).

(** [A[:, i]] *)
Definition column (A : ndarray) (i : nat) : result (list cfloat) :=
  if i <? ncols A then Ok (map (fun r => entry A r i) (seq 0 (nrows A)))
  else Raise IndexError.

(** [np.dot(A, B)] of two two-dimensional arrays. *)
Definition dot (A B : ndarray) : result ndarray :=
  if ncols A =? nrows B then
    Ok (mk_ndarray (nrows A) (ncols B) (fun i j =>
          Cx.sum (map (fun k => cmul (entry A i k) (entry B k j))
                      (seq 0 (ncols A)))))
  else Raise (ValueError "shapes not aligned").

(** [np.dot(u, v)] of two one-dimensional arrays. *)
Definition vdot (u v : list cfloat) : result cfloat :=
  if length u =? length v then
    Ok (Cx.sum (map (fun p => cmul (fst p) (snd p)) (combine u v)))
  else Raise (ValueError "shapes not aligned").

(** [LA.norm(v)] of a one-dimensional array: the 2-norm. *)
Definition norm (v : list float) : float :=
  Float.sqrt (Float.sum (map Float.sq v)).

End Np.

(** ** Angular-momentum operators and the g factor *)

Module Operators.

Import Float Cx Np.

(** [Jz_op(self)] *)
Definition Jz_op (self : Self.training_data) : ndarray :=
  diag (map (fun k => Some (Q2R (k - Self.J self)))
            (arange (2 * Self.J self + 1))) 0.

(** [np.sqrt((2*self.J - np.arange(2*self.J))*(np.arange(2*self.J)+1))] *)
Definition ladder (self : Self.training_data) : list float :=
  map (fun k => Float.sqrt (Some (Q2R ((2 * Self.J self - k) * (k + 1)))))
      (arange (2 * Self.J self)).

(** [Jplus_op(self)] *)
Definition Jplus_op (self : Self.training_data) : ndarray :=
  diag (ladder self) (-1).

(** [Jminus_op(self)] *)
Definition Jminus_op (self : Self.training_data) : ndarray :=
  diag (ladder self) 1.

(** [Jx_op(self)] *)
Definition Jx_op (self : Self.training_data) : result ndarray :=
  (s <- add (Jplus_op self) (Jminus_op self) ;;
   Ok (div_scalar s (Some 2%R)))%result.

(** [Jy_op(self)] *)
Definition Jy_op (self : Self.training_data) : result ndarray :=
  (d <- sub (Jplus_op self) (Jminus_op self) ;;
   Ok (scale (div_float (Some (Cx.opp Cx.j)) (Some 2%R)) d))%result.

(** [gJLS(self)]: a division of Python numbers, which raises on zero. *)
Definition gJLS (self : Self.training_data) : result Q :=
  let J := Self.J self in
  let L := Self.L self in
  let S := Self.S self in
  if Qeq_bool (2 * J * (J + 1)) 0 then Raise ZeroDivisionError
  else Ok (1 + (J * (J + 1) + S * (S + 1) - L * (L + 1))
               / (2 * J * (J + 1)))%Q.

End Operators.

(** ** Thermal observables *)

Module Thermal.

Import Float Cx Np Operators.

(** [muB_over_kB = 0.671713816] *)
Definition muB_over_kB : Q := 671713816 # 1000000000.

(** [np.exp(-energies/T)] *)
Definition boltzmann (energies : list R) (T : R) : list float :=
  map (fun e => Float.exp (- Some e / Some T)%float) energies.

(** The local function [Z_cr(T)] of [specific_heat]. *)
Definition Z_cr (energies : list R) (T : R) : float :=
  Float.sum (boltzmann energies T).

(** The local function [cV(T)] of [specific_heat]. *)
Definition cV (energies : list R) (T : R) : float :=
  (Some 1%R / Float.sq (Some T)
   * (Float.sum (map (fun e => Float.sq (Some e)
                               * Float.exp (- Some e / Some T)) energies)
        / Z_cr energies T
      - Float.sq (Float.sum
          (map (fun e => Some e * Float.exp (- Some e / Some T)
                         / Z_cr energies T) energies))))%float.

(** [magnetization] and [susceptibility] share, word for word, the
    statements that normalise the direction, build [J_op], build the
    perturbed Hamiltonian, diagonalise it and evaluate the moment; each is
    transcribed once below. *)

(** [B_direction/LA.norm(B_direction)] *)
Definition normalized (B_direction : list R) : list float :=
  map (fun x => (Some x / norm (map Some B_direction))%float) B_direction.

(** [B_direction[0]*self.Jx_op() + B_direction[1]*self.Jy_op()
     + B_direction[2]*self.Jz_op()] *)
Definition J_op (self : Self.training_data) (B_direction : list float)
    : result ndarray :=
  (d0 <- item B_direction 0 ;;
   jx <- Jx_op self ;;
   d1 <- item B_direction 1 ;;
   jy <- Jy_op self ;;
   s <- add (scale (of_float d0) jx) (scale (of_float d1) jy) ;;
   d2 <- item B_direction 2 ;;
   add s (scale (of_float d2) (Jz_op self)))%result.

(** [ham_cr - gJLS*self.muB_over_kB*J_op*B] *)
Definition perturbed (ham_cr : ndarray) (gJLS : R) (J_op : ndarray) (B : R)
    : result ndarray :=
  sub ham_cr
      (scale_r (scale (of_float (Some gJLS * Some (Q2R muB_over_kB))%float)
                      J_op)
               (of_float (Some B))).

(** [gJLS/ZB*np.sum([np.dot(np.conjugate(eigenstates[:,i]),
     np.dot(J_op, eigenstates)[:, i])*np.exp(-energies[i]/T)
     for i in range(0, len(energies))])] *)
Definition mag (gJLS : R) (J_op : ndarray) (energies : list R)
    (eigenstates : ndarray) (T : R) : result cfloat :=
  let ZB := Float.sum (boltzmann energies T) in
  (terms <- mapM (fun i =>
      u <- column eigenstates i ;;
      JV <- dot J_op eigenstates ;;
      w <- column JV i ;;
      d <- vdot (map cconj u) w ;;
      e <- item energies i ;;
      Ok (cmul d (of_float (Float.exp (- Some e / Some T)%float))))
      (seq 0 (length energies)) ;;
   Ok (cmul (of_float (Some gJLS / ZB)%float) (Cx.sum terms)))%result.

Section Solvers.

(** [LA.eigvalsh] and [LA.eigh] of scipy, and [np.geomspace]. *)
Variable eigvalsh : ndarray -> result (list R).
Variable eigh : ndarray -> result (list R * ndarray).
Variable geomspace : R -> R -> Z -> result (list R).

(** [specific_heat(self, ham, T_min, T_max, T_steps)]: the rows
    [(T_i, cV(T_i))] of [cV_array]. *)
Definition specific_heat (ham : ndarray) (T_min T_max : R) (T_steps : Z)
    : result (list (R * float)) :=
  (T <- linspace T_min T_max T_steps ;;
   energies <- eigvalsh ham ;;
   e0 <- item energies 0 ;;
   let energies := map (fun e => (e - e0)%R) energies in
   Ok (map (fun Ti => (Ti, cV energies Ti)) T))%result.

(** [energies, eigenstates = LA.eigh(ham)] followed by
    [energies = energies - energies[0]]. *)
Definition solve (ham : ndarray) : result (list R * ndarray) :=
  (es <- eigh ham ;;
   e0 <- item (fst es) 0 ;;
   Ok (map (fun e => (e - e0)%R) (fst es), snd es))%result.

(** [susceptibility(self, ham_cr, B_direction, B, T_min, T_max, T_steps)]:
    the rows [(T_i, mag/B)] of [susc_array]. *)
Definition susceptibility (self : Self.training_data) (ham_cr : ndarray)
    (B_direction : list R) (B T_min T_max : R) (T_steps : Z)
    : result (list (R * float)) :=
  (g <- gJLS self ;;
   let gJLS := Q2R g in
   T_array <- linspace T_min T_max T_steps ;;
   let B_direction := normalized B_direction in
   J_op <- J_op self B_direction ;;
   ham <- perturbed ham_cr gJLS J_op B ;;
   es <- solve ham ;;
   mapM (fun T =>
     m <- mag gJLS J_op (fst es) (snd es) T ;;
     Ok (T, real (div_float m (Some B)))) T_array)%result.

(** [magnetization(self, ham_cr, B_direction, B_min, B_max, B_steps,
    T_min, T_max, T_steps)]: for every field the rows [(B, T, mag)] of
    [mag_array]. *)
Definition magnetization (self : Self.training_data) (ham_cr : ndarray)
    (B_direction : list R) (B_min B_max : R) (B_steps : Z)
    (T_min T_max : R) (T_steps : Z)
    : result (list (list (R * R * float))) :=
  (g <- gJLS self ;;
   let gJLS := Q2R g in
   T_array <- geomspace T_min T_max T_steps ;;
   B_array <- linspace B_min B_max B_steps ;;
   let B_direction := normalized B_direction in
   J_op <- J_op self B_direction ;;
   mapM (fun B =>
     ham <- perturbed ham_cr gJLS J_op B ;;
     es <- solve ham ;;
     mapM (fun T =>
       m <- mag gJLS J_op (fst es) (snd es) T ;;
       Ok (B, T, real m)) T_array) B_array)%result.

End Solvers.

End Thermal.


(** ** Writing out the training data *)

Module Output.

Import Rng Sampler Assembler Np Thermal.

(** A range argument [[min, max, steps]], two numbers and an int, read as
    [r[0]], [r[1]] and [r[2]]. *)
Record Range : Type := mkRange {
  lo : R;
  hi : R;
  steps : Z
}.

(** The four lists that [output_all_data] returns, one entry per training
    set in each. *)
Record Data : Type := mkData {
  stevens_params_all : list (list Q);
  cV_data_all : list (list (R * Float.float));
  susc_data_all : list (list (list Float.float));
  mag_data_all : list (list (list (list Float.float)))
}.

(** A [for] loop that updates a value and stops at the first exception. *)
Fixpoint foldM {A St : Type} (f : St -> A -> result St) (l : list A)
    (s : St) : result St :=
  match l with
  | [] => Ok s
  | a :: l' =>
      match f s a with
      | Ok s' => foldM f l' s'
      | Raise e => Raise e
      end
  end.

(** [np.zeros((n, m))] and [np.zeros((n, m, k))] *)
Definition zeros2 (n : Z) (m : nat) : result (list (list Float.float)) :=
  if (n <? 0)%Z then
    Raise (ValueError "negative dimensions are not allowed")
  else Ok (repeat (repeat (Some 0%R) m) (Z.to_nat n)).

Definition zeros3 (n m : Z) (k : nat)
    : result (list (list (list Float.float))) :=
  if ((n <? 0) || (m <? 0))%Z then
    Raise (ValueError "negative dimensions are not allowed")
  else Ok (repeat (repeat (repeat (Some 0%R) k) (Z.to_nat m)) (Z.to_nat n)).

(** [a[i][j] = v] *)
Definition store2 (a : list (list Float.float)) (i j : nat)
    (v : Float.float) : result (list (list Float.float)) :=
  (row <- item a i ;;
   if (j <? length row)%nat then Ok (set_item a i (set_item row j v))
   else Raise IndexError)%result.

(** [a[i][j][k] = v] *)
Definition store3 (a : list (list (list Float.float))) (i j k : nat)
    (v : Float.float) : result (list (list (list Float.float))) :=
  (plane <- item a i ;;
   row <- item plane j ;;
   if (k <? length row)%nat then
     Ok (set_item a i (set_item plane j (set_item row k v)))
   else Raise IndexError)%result.

(** The loop [for T_idx in range (0, len(susc_array))] for one direction. *)
Definition copy_susc (B_direction_idx : nat)
    (susc_array : list (R * Float.float))
    (susc_data : list (list Float.float))
    : result (list (list Float.float)) :=
  foldM (fun susc_data T_idx =>
    (susc_data <-
       (if (B_direction_idx =? 0)%nat then
          row <- item susc_array T_idx ;;
          store2 susc_data T_idx 0 (Some (fst row))
        else Ok susc_data) ;;
     row <- item susc_array T_idx ;;
     store2 susc_data T_idx (1 + B_direction_idx) (snd row))%result)
    (seq 0 (length susc_array)) susc_data.

(** The loops [for B_idx in range (0, mag_B_range[2])] and
    [for T_idx in range(0, mag_T_range[2])] for one direction. *)
Definition copy_mag (B_direction_idx : nat) (B_steps T_steps : Z)
    (mag_array : list (list (R * R * Float.float)))
    (mag_data : list (list (list Float.float)))
    : result (list (list (list Float.float))) :=
  foldM (fun mag_data B_idx =>
    foldM (fun mag_data T_idx =>
      (mag_data <-
         (if (B_direction_idx =? 0)%nat then
            e <- (row <- item mag_array B_idx ;; item row T_idx) ;;
            mag_data <- store3 mag_data B_idx T_idx 0 (Some (fst (fst e))) ;;
            e <- (row <- item mag_array B_idx ;; item row T_idx) ;;
            store3 mag_data B_idx T_idx 1 (Some (snd (fst e)))
          else Ok mag_data) ;;
       e <- (row <- item mag_array B_idx ;; item row T_idx) ;;
       store3 mag_data B_idx T_idx (2 + B_direction_idx) (snd e))%result)
      (seq 0 (Z.to_nat T_steps)) mag_data)
    (seq 0 (Z.to_nat B_steps)) mag_data.

Section Run.

(** [LA.eigvalsh] and [LA.eigh] of scipy, and [np.geomspace]. *)
Variable eigvalsh : ndarray -> result (list R).
Variable eigh : ndarray -> result (list R * ndarray).
Variable geomspace : R -> R -> Z -> result (list R).

(** The functions of the imported module [ham_cr], applied to their
    arguments: the crystal-field Hamiltonian they return. *)
Variable module_ham_cr : basis_fn -> list Q -> ndarray.

(** What [LA.eigvalsh] raises when it is handed [None]. *)
Variable eigvalsh_None : exn.

(** The bound on the iterations of one rejection loop. *)
Variable fuel : nat.

Variable self : Self.training_data.
Variable Stevens_range : list (list Q).
Variable W_sign : Q.
Variable cV_T_range susc_T_range mag_T_range mag_B_range : Range.

(** The body of the loop [for B_direction_idx in range (0,
    B_direction_steps)], for a Hamiltonian that is an array. *)
Definition one_direction (ham_cr : ndarray)
    (data : list (list Float.float) * list (list (list Float.float)))
    (B_direction_idx : nat)
    : result (list (list Float.float) * list (list (list Float.float))) :=
  (B_direction <- item (Self.B_directions self) B_direction_idx ;;
   susc_array <- susceptibility eigh self ham_cr B_direction (1 / 10000)
                   (lo susc_T_range) (hi susc_T_range)
                   (steps susc_T_range) ;;
   mag_array <- magnetization eigh geomspace self ham_cr B_direction
                  (lo mag_B_range) (hi mag_B_range) (steps mag_B_range)
                  (lo mag_T_range) (hi mag_T_range) (steps mag_T_range) ;;
   susc_data <- copy_susc B_direction_idx susc_array (fst data) ;;
   mag_data <- copy_mag B_direction_idx (steps mag_B_range)
                 (steps mag_T_range) mag_array (snd data) ;;
   Ok (susc_data, mag_data))%result.

(** The body of the loop [for N_t_idx in range(0, self.N_t)] after the
    draw: the three arrays computed for [stevens_params].  When
    [self.ham_cr] has returned [None], [specific_heat] computes its grid
    and [LA.eigvalsh] raises. *)
Definition one_set (stevens_params : list Q)
    : result (list (R * Float.float) * list (list Float.float)
              * list (list (list Float.float))) :=
  match ham_cr self stevens_params with
  | Raises e => Raise e
  | ReturnsNone =>
      (_ <- linspace (lo cV_T_range) (hi cV_T_range) (steps cV_T_range) ;;
       Raise eigvalsh_None)%result
  | Calls f args =>
      let ham_cr := module_ham_cr f args in
      (cV <- specific_heat eigvalsh ham_cr (lo cV_T_range) (hi cV_T_range)
               (steps cV_T_range) ;;
       let B_direction_steps := length (Self.B_directions self) in
       susc_data <- zeros2 (steps susc_T_range) (1 + B_direction_steps) ;;
       mag_data <- zeros3 (steps mag_B_range) (steps mag_T_range)
                     (2 + B_direction_steps) ;;
       data <- foldM (one_direction ham_cr) (seq 0 B_direction_steps)
                 (susc_data, mag_data) ;;
       Ok (cV, fst data, snd data))%result
  end.

(** The loop [for N_t_idx in range(0, self.N_t)], [n] iterations of it. *)
Fixpoint training_sets (n : nat) (out : Data) (g : Generator)
    : option (result Data * Generator) :=
  match n with
  | O => Some (Ok out, g)
  | Datatypes.S n' =>
      match generate_random_stevens self Stevens_range W_sign fuel g with
      | None => None
      | Some (Raise e, g') => Some (Raise e, g')
      | Some (Ok stevens_params, g') =>
          match one_set stevens_params with
          | Raise e => Some (Raise e, g')
          | Ok (cV, susc_data, mag_data) =>
              training_sets n'
                (mkData (stevens_params_all out ++ [stevens_params])
                        (cV_data_all out ++ [cV])
                        (susc_data_all out ++ [susc_data])
                        (mag_data_all out ++ [mag_data])) g'
          end
      end
  end.

(** [output_all_data(self, Stevens_range, W_sign, cV_T_range, susc_T_range,
    mag_T_range, mag_B_range)]; [None] when a rejection loop has not
    accepted a candidate within [fuel] iterations. *)
Definition output_all_data (g : Generator)
    : option (result Data * Generator) :=
  training_sets (Self.N_t self) (mkData [] [] [] []) g.

End Run.

End Output.
(** * Notions of the specification *)

Module SamplerSpec.

Import Rng Sampler.
Local Open Scope Q_scope.


(** [range[i][j]], where it exists. *)
Definition bound (range : list (list Q)) (i j : nat) : Q :=
  nth j (nth i range []) 0.

(** The value that [draw_in range i] builds from the draw [r]. *)
Definition scaled (range : list (list Q)) (i : nat) (r : Q) : Q :=
  bound range i 0 + (bound range i 1 - bound range i 0) * r.

(** The generator after [n] more draws. *)
Definition advance (g : Generator) (n : nat) : Generator :=
  mkGenerator (stream g) (consumed g + n).

(** The candidate that one iteration of a rejection loop builds from the
    draws number [c], [c+1], ... of the stream [s]. *)
Definition candidate_C4v (range : list (list Q)) (W_sign : Q)
    (s : nat -> Q) (c : nat) (trailing : Q) : list Q :=
  [scaled range 0 (s c) * W_sign; scaled range 1 (s (c + 1)%nat);
   scaled range 2 (s (c + 2)%nat); scaled range 3 (s (c + 3)%nat);
   scaled range 4 (s (c + 4)%nat); trailing].

Definition candidate_D3h (range : list (list Q)) (W_sign : Q)
    (s : nat -> Q) (c : nat) (trailing : Q) : list Q :=
  [scaled range 0 (s c) * W_sign; scaled range 1 (s (c + 1)%nat);
   scaled range 2 (s (c + 2)%nat); scaled range 3 (s (c + 3)%nat);
   trailing].

(** The number of draws of one iteration of the rejection loop: one per
    entry of the parameter vector except the trailing one. *)
Definition draws_per_iteration (self : Self.training_data) : nat :=
  if (Self.point_group self =? "C4v")%string then 5 else 4.

(** Every draw of the stream lies in [[0, 1)]. *)
Definition uniform (s : nat -> Q) : Prop := forall k, 0 <= s k /\ s k < 1.

(** Row [i] of the range table exists and holds a lower and an upper
    bound. *)
Definition has_bounds (range : list (list Q)) (i : nat) : Prop :=
  exists lo hi rest, nth_error range i = Some (lo :: hi :: rest).

(** The bounds of row [i] are in order. *)
Definition ordered (range : list (list Q)) (i : nat) : Prop :=
  bound range i 0 <= bound range i 1.

(** The number of rows of the range table that a call reads: one per entry
    of the parameter vector except the trailing one of ["C4v"] and
    ["D3h"]. *)
Definition rows_read (self : Self.training_data) : nat :=
  if (Self.point_group self =? "Oh")%string then 2
  else draws_per_iteration self.

(** The candidate of one iteration, for either point group with a rejection
    loop. *)
Definition candidate (self : Self.training_data) (range : list (list Q))
    (W_sign : Q) (s : nat -> Q) (c : nat) (trailing : Q) : list Q :=
  if (Self.point_group self =? "C4v")%string
  then candidate_C4v range W_sign s c trailing
  else candidate_D3h range W_sign s c trailing.

End SamplerSpec.

Module AssemblerSpec.

Local Open Scope string_scope.

(** The point groups the program supports. *)
Definition supported (self : Self.training_data) : Prop :=
  Self.point_group self = "Oh" \/ Self.point_group self = "C4v"
  \/ Self.point_group self = "D3h".

(** The number of Stevens parameters of a supported point group: 2 for
    ["Oh"], 6 for ["C4v"], 5 for ["D3h"]. *)
Definition expected_count (self : Self.training_data) : nat :=
  if Self.point_group self =? "Oh" then 2
  else if Self.point_group self =? "C4v" then 6
  else 5.

(** The values of J for which the imported module has a function:
    3.5, 4, 4.5, 6, 7.5 and 8. *)
Definition supported_J (J : Q) : Prop :=
  (J == 7 # 2 \/ J == 4 \/ J == 9 # 2 \/ J == 6 \/ J == 15 # 2 \/ J == 8)%Q.

(** The point group and the J that the name of a function of the imported
    module carries: [ham_cr_PG_C4v_J_7_5] is for ["C4v"] and J = 7.5. *)
Definition named_for (f : Assembler.basis_fn) : string * Q :=
  match f with
  | Assembler.ham_cr_PG_Oh_J_4 => ("Oh", 4)
  | Assembler.ham_cr_PG_Oh_J_7_5 => ("Oh", 15 # 2)
  | Assembler.ham_cr_PG_Oh_J_3_5 => ("Oh", 7 # 2)
  | Assembler.ham_cr_PG_Oh_J_6 => ("Oh", 6)
  | Assembler.ham_cr_PG_Oh_J_8 => ("Oh", 8)
  | Assembler.ham_cr_PG_Oh_J_4_5 => ("Oh", 9 # 2)
  | Assembler.ham_cr_PG_C4v_J_4 => ("C4v", 4)
  | Assembler.ham_cr_PG_C4v_J_7_5 => ("C4v", 15 # 2)
  | Assembler.ham_cr_PG_C4v_J_3_5 => ("C4v", 7 # 2)
  | Assembler.ham_cr_PG_C4v_J_6 => ("C4v", 6)
  | Assembler.ham_cr_PG_C4v_J_8 => ("C4v", 8)
  | Assembler.ham_cr_PG_C4v_J_4_5 => ("C4v", 9 # 2)
  | Assembler.ham_cr_PG_D3h_J_4 => ("D3h", 4)
  | Assembler.ham_cr_PG_D3h_J_7_5 => ("D3h", 15 # 2)
  | Assembler.ham_cr_PG_D3h_J_3_5 => ("D3h", 7 # 2)
  | Assembler.ham_cr_PG_D3h_J_6 => ("D3h", 6)
  | Assembler.ham_cr_PG_D3h_J_8 => ("D3h", 8)
  | Assembler.ham_cr_PG_D3h_J_4_5 => ("D3h", 9 # 2)
  end%Q.

End AssemblerSpec.

Module OperatorSpec.

Import Np.

(** [J] is the non-negative half-integer [n/2]. *)
Definition half_integer (J : Q) (n : nat) : Prop :=
  (J == inject_Z (Z.of_nat n) / 2)%Q.

(** An array of shape [N x N] whose entries are all finite. *)
Definition finite_square (N : nat) (A : ndarray) : Prop :=
  nrows A = N /\ ncols A = N /\
  forall i j, (i < N)%nat -> (j < N)%nat -> entry A i j <> None.

(** The complex number held by a finite entry. *)
Definition value (A : ndarray) (i j : nat) : Cx.C :=
  match entry A i j with
  | Some z => z
  | None => Cx.of_R 0
  end.

(** The sum of a list of complex numbers. *)
Definition Csum (l : list Cx.C) : Cx.C := fold_right Cx.add (Cx.of_R 0) l.

(** The product of two [N x N] complex matrices, and their commutator
    [[A, B] = A B - B A]. *)
Definition mmul (N : nat) (A B : nat -> nat -> Cx.C) (i j : nat) : Cx.C :=
  Csum (map (fun k => Cx.mul (A i k) (B k j)) (seq 0 N)).

Definition commutator (N : nat) (A B : nat -> nat -> Cx.C) (i j : nat)
    : Cx.C :=
  Cx.sub (mmul N A B i j) (mmul N B A i j).

(** The ladder coefficient [sqrt((2J - k)(k + 1))] for [2J = n], and the
    entries of [J+], [J-] and [Jz] in the basis ordered by ascending [m]. *)
Definition lad (n k : nat) : R :=
  sqrt ((INR n - INR k) * (INR k + 1)).

Definition Jplus_entry (n i j : nat) : R :=
  if (i =? j + 1)%nat then lad n j else 0%R.

Definition Jminus_entry (n i j : nat) : R :=
  if (j =? i + 1)%nat then lad n i else 0%R.

Definition Jz_entry (n i j : nat) : R :=
  if (i =? j)%nat then (INR i - INR n / 2)%R else 0%R.

(** [Jx = (J+ + J-)/2] and [Jy = (J+ - J-)/(2i)], entry by entry. *)
Definition Jx_entry (n i j : nat) : Cx.C :=
  ((Jplus_entry n i j + Jminus_entry n i j) / 2, 0)%R.

Definition Jy_entry (n i j : nat) : Cx.C :=
  (0, - (Jplus_entry n i j - Jminus_entry n i j) / 2)%R.

(** An [N x N] complex matrix equal to its conjugate transpose. *)
Definition hermitian (N : nat) (A : nat -> nat -> Cx.C) : Prop :=
  forall i j, (i < N)%nat -> (j < N)%nat -> A i j = Cx.conj (A j i).

(** The real multiple [c] of the identity matrix. *)
Definition scalar_matrix (c : R) (i j : nat) : Cx.C :=
  Cx.of_R (if (i =? j)%nat then c else 0%R).

End OperatorSpec.

Module ThermalSpec.

Local Open Scope R_scope.

(** The sum of a list of reals. *)
Definition Rsum (l : list R) : R := fold_right Rplus 0 l.

(** The least element of a list of reals (0 for the empty list). *)
Definition Rmin_list (l : list R) : R :=
  match l with
  | [] => 0
  | x :: l' => fold_right Rmin x l'
  end.

(** A spectrum shifted so that its minimum is 0. *)
Definition zero_referenced (E : list R) : list R :=
  map (fun e => e - Rmin_list E) E.

(** The partition function [Z(T) = sum_j exp(-E_j/T)]. *)
Definition partition (E : list R) (T : R) : R :=
  Rsum (map (fun e => exp (- e / T)) E).

(** The Boltzmann weight of the level [e]: [exp(-e/T)/Z(T)]. *)
Definition weight (E : list R) (T e : R) : R := exp (- e / T) / partition E T.

(** The Boltzmann-weighted average of [f] over the spectrum. *)
Definition average (E : list R) (T : R) (f : R -> R) : R :=
  Rsum (map (fun e => f e * weight E T e) E).

(** [cV/kB(T) = (1/T^2) (<E^2> - <E>^2)] *)
Definition cV_formula (E : list R) (T : R) : R :=
  1 / T ^ 2 * (average E T (fun e => e ^ 2) - (average E T (fun e => e)) ^ 2).

(** The [i]-th of [n] points linearly spaced over [[a, b]]. *)
Definition linear_point (a b : R) (n i : nat) : R :=
  if (n =? 1)%nat then a else a + INR i * ((b - a) / INR (n - 1)).

(** The contract of [LA.eigh] on an [N x N] matrix, as far as shapes go: [N]
    eigenvalues and an [N x N] array of eigenvectors. *)
Definition solver_contract
    (eigh : Np.ndarray -> result (list R * Np.ndarray)) (N : nat) : Prop :=
  forall m, Np.nrows m = N -> Np.ncols m = N ->
    exists E V, eigh m = Ok (E, V) /\ length E = N /\
      Np.nrows V = N /\ Np.ncols V = N.

(** The three components of a direction of unit length. *)
Definition unit_vector (d : list R) : Prop :=
  exists x y z, d = [x; y; z] /\ x * x + y * y + z * z = 1.

(** The Lande-type factor
    [gJLS = 1 + (J(J+1) + S(S+1) - L(L+1)) / (2J(J+1))]. *)
Definition lande (J L S : R) : R :=
  1 + (J * (J + 1) + S * (S + 1) - L * (L + 1)) / (2 * J * (J + 1)).

(** [J_dir = d_x Jx + d_y Jy + d_z Jz], entry by entry. *)
Definition field_direction_operator (d : list R)
    (Jx Jy Jz : nat -> nat -> Cx.C) (i j : nat) : Cx.C :=
  Cx.add
    (Cx.add (Cx.mul (Cx.of_R (nth 0 d 0)) (Jx i j))
            (Cx.mul (Cx.of_R (nth 1 d 0)) (Jy i j)))
    (Cx.mul (Cx.of_R (nth 2 d 0)) (Jz i j)).

(** [ham0 - gJLS * 0.671713816 * J_dir * B], entry by entry. *)
Definition field_hamiltonian (ham0 : nat -> nat -> Cx.C) (gJLS : R)
    (J_dir : nat -> nat -> Cx.C) (B : R) (i j : nat) : Cx.C :=
  Cx.sub (ham0 i j)
         (Cx.mul (Cx.mul (Cx.of_R (gJLS * 0.671713816)) (J_dir i j))
                 (Cx.of_R B)).

(** The Boltzmann-weighted mean and variance of the energy. *)
Definition mean_energy (E : list R) (T : R) : R := average E T (fun e => e).

Definition energy_variance (E : list R) (T : R) : R :=
  average E T (fun e => (e - mean_energy E T) ^ 2).

End ThermalSpec.

Module OutputSpec.

Local Open Scope nat_scope.

(** The entry [a[i][j]] of a two-dimensional array and the entry
    [a[i][j][k]] of a three-dimensional one. *)
Definition get2 (a : list (list Float.float)) (i j : nat) : Float.float :=
  nth j (nth i a []) None.

Definition get3 (a : list (list (list Float.float))) (i j k : nat)
    : Float.float :=
  nth k (nth j (nth i a []) []) None.

(** An array of shape [(n, m)], and one of shape [(n, m, k)]. *)
Definition shape2 (a : list (list Float.float)) (n m : nat) : Prop :=
  length a = n /\ forall i, i < n -> length (nth i a []) = m.

Definition shape3 (a : list (list (list Float.float))) (n m k : nat)
    : Prop :=
  length a = n /\ forall i, i < n -> shape2 (nth i a []) m k.

(** Two arrays of the same shape. *)
Definition same_shape2 (a b : list (list Float.float)) : Prop :=
  length a = length b /\
  forall i, length (nth i a []) = length (nth i b []).

Definition same_shape3 (a b : list (list (list Float.float))) : Prop :=
  length a = length b /\
  (forall i, length (nth i a []) = length (nth i b [])) /\
  forall i j,
    length (nth j (nth i a []) []) = length (nth j (nth i b []) []).

(** What [mag_data[i][j][k]] holds after the loops over [B_idx] and [T_idx]
    for the direction number [idx] have passed the indices [i] and [j]:
    the value of [mag_array] in column [2 + idx], its two labels in the
    columns 0 and 1 when [idx] is 0, and what was there before
    everywhere else. *)
Definition mag_written (idx : nat)
    (mag_array : list (list (R * R * Float.float)))
    (mag_data : list (list (list Float.float))) (i j k : nat)
    : Float.float :=
  let e := nth j (nth i mag_array []) (0%R, 0%R, None) in
  if k =? 2 + idx then snd e
  else if (k =? 0) && (idx =? 0) then Some (fst (fst e))
  else if (k =? 1) && (idx =? 0) then Some (snd (fst e))
  else get3 mag_data i j k.

(** The same for [susc_data[i][j]] and the loop over [T_idx]. *)
Definition susc_written (idx : nat) (susc_array : list (R * Float.float))
    (susc_data : list (list Float.float)) (i j : nat) : Float.float :=
  let row := nth i susc_array (0%R, None) in
  if j =? 1 + idx then snd row
  else if (j =? 0) && (idx =? 0) then Some (fst row)
  else get2 susc_data i j.

End OutputSpec.

(** Concrete objects on which the statements below are exercised. *)

Module Examples.

Import Rng.
Local Open Scope Q_scope.
Local Open Scope string_scope.

Definition ion (point_group : string) (J : Q) : Self.training_data :=
  Self.mk_training_data point_group 1 1 J 5 1 [[0; 0; 1]%R].

(** The range table of the script: [[0.5, 50], [-1, 1], ...]. *)
Definition Stevens_range : list (list Q) :=
  [[1 # 2; 50]; [-1; 1]; [-1; 1]; [-1; 1]; [-1; 1]].

(** A diagonal Hamiltonian with the two levels 1 and 3. *)
Definition two_levels : Np.ndarray :=
  Np.mk_ndarray 2 2 (fun i j =>
    match i, j with
    | 0%nat, 0%nat => Some (1%R, 0%R)
    | 1%nat, 1%nat => Some (3%R, 0%R)
    | _, _ => Some (0%R, 0%R)
    end).

(** The real parts of the diagonal: the eigenvalues of a diagonal Hermitian
    matrix, in ascending order when its diagonal is. *)
Definition diagonal (m : Np.ndarray) : list R :=
  map (fun i => match Np.entry m i i with
                | Some z => fst z
                | None => 0%R
                end) (seq 0 (Np.nrows m)).

Definition eigvalsh_diagonal (m : Np.ndarray) : result (list R) :=
  Ok (diagonal m).

(** The identity matrix: the eigenvectors of a diagonal matrix with an
    ascending diagonal. *)
Definition identity (N : nat) : Np.ndarray :=
  Np.mk_ndarray N N (fun i j =>
    if (i =? j)%nat then Some (1%R, 0%R) else Some (0%R, 0%R)).

Definition eigh_diagonal (m : Np.ndarray) : result (list R * Np.ndarray) :=
  Ok (diagonal m, identity (Np.nrows m)).

(** [np.geomspace] for positive end points: geometrically spaced, the two
    end points set to [start] and [stop]. *)
Definition geomspace_positive (start stop : R) (num : Z)
    : result (list R) :=
  match Z.to_nat num with
  | 0%nat => Ok []
  | 1%nat => Ok [start]
  | Datatypes.S m =>
      Ok (start
          :: map (fun i => (start * Rpower (stop / start)
                                      (INR i / INR m))%R) (seq 1 (m - 1))
          ++ [stop])
  end.

(** A diagonal crystal-field Hamiltonian for J = 1/2. *)
Definition doublet : Np.ndarray :=
  Np.mk_ndarray 2 2 (fun i j =>
    match i, j with
    | 1%nat, 1%nat => Some (2%R, 0%R)
    | _, _ => Some (0%R, 0%R)
    end).

(** An ion with a pure orbital moment: S = 0 and L = J = 3. *)
Definition orbital_ion : Self.training_data :=
  Self.mk_training_data "Oh" 1 1 3 3 0 [[0; 0; 1]%R].

(** A range table whose second row lies outside [[-1, 1]]. *)
Definition Stevens_range_wide : list (list Q) :=
  [[1 # 2; 50]; [2; 3]; [-1; 1]; [-1; 1]; [-1; 1]].

(** A range table with two rows only. *)
Definition Stevens_range_short : list (list Q) := [[1 # 2; 50]; [-1; 1]].

(** A generator whose first five draws are 0 and whose later draws are
    1/2: the first candidate of a rejection loop has interior entries -1
    and is rejected, the second has interior entries 0. *)
Definition rg : Generator :=
  mkGenerator (fun n => if (n <? 5)%nat then 0 else 1 # 2) 0.

(** The object of the script: ['C4v'], J = 15, L = 6, S = 3/2, seed 122,
    the directions x and z, 1000 training sets. *)
Definition script_object : Self.training_data :=
  Self.mk_training_data "C4v" 1000 122 15 6 (3 # 2)
    [[1; 0; 0]%R; [0; 0; 1]%R].

(** A cubic ion with J = 4: one training set, the direction z. *)
Definition cubic_ion : Self.training_data := ion "Oh" 4.

(** A stand-in for the imported module: whatever the function and the
    parameters, the diagonal 9 x 9 matrix with the levels 0, 1, ..., 8. *)
Definition module_levels (f : Assembler.basis_fn) (args : list Q)
    : Np.ndarray :=
  Np.mk_ndarray 9 9 (fun i j =>
    if (i =? j)%nat then Some (INR i, 0%R) else Some (0%R, 0%R)).

(** Range arguments: three temperatures for the specific heat, a single
    step for the others. *)
Definition three_steps : Output.Range := Output.mkRange 1 300 3.
Definition one_step : Output.Range := Output.mkRange 1 300 1.

(** The range arguments of the script. *)
Definition script_cV_T_range : Output.Range := Output.mkRange 1 300 64.
Definition script_mag_T_range : Output.Range := Output.mkRange 1 300 3.
Definition script_mag_B_range : Output.Range := Output.mkRange 0 10 64.

(** A generator whose first six draws are 1/2, 3/4 + 2^-51, 3/4, 1/2, 1/2
    and 1/4, each of them a multiple of 2^-53 as the draws of
    [Generator.random] are.  With the range table of the script and
    [W_sign = -1] the first candidate is [-25.25, 1/2 + 2^-50, 1/2, 0, 0],
    every entry of which float64 arithmetic computes without rounding. *)
Definition rg_absorbed : Generator :=
  mkGenerator (fun n =>
    match n with
    | 0%nat => 1 # 2
    | 1%nat => (3 # 4) + (1 # 2251799813685248)
    | 2%nat => 3 # 4
    | 3%nat => 1 # 2
    | 4%nat => 1 # 2
    | _ => 1 # 4
    end) 0.

(** A range table whose second row holds the one value 1 + 2^-52, the
    float64 that follows 1, and whose other interior rows hold 0. *)
Definition Stevens_range_above_1 : list (list Q) :=
  [[1 # 2; 50];
   [1 + (1 # 4503599627370496); 1 + (1 # 4503599627370496)];
   [0; 0]; [0; 0]; [0; 0]].

End Examples.

(** * Properties *)

(** ** The sampler *)

Module SamplerFacts.

Import Rng Sampler SamplerSpec.
Local Open Scope Q_scope.
Local Open Scope string_scope.

Lemma item_Ok_nth (A : Type) (l : list A) (i : nat) (a d : A) :
  item l i = Ok a -> nth i l d = a.
Proof.
  unfold item. destruct (nth_error l i) eqn:E; [|discriminate].
  intros H. injection H as <-. now apply nth_error_nth.
Qed.

Lemma run_bind_Ok_inv (A B : Type) (m : M A) (k : A -> M B) g b g' :
  bind m k g = (Ok b, g') ->
  exists a g1, m g = (Ok a, g1) /\ k a g1 = (Ok b, g').
Proof.
  unfold bind. destruct (m g) as [[a|e] g1]; [|discriminate].
  intros H. now exists a, g1.
Qed.

Lemma lift_Ok_inv (A : Type) (r : result A) g a g' :
  lift r g = (Ok a, g') -> r = Ok a /\ g' = g.
Proof. unfold lift. intros H. injection H as -> ->. now split. Qed.

Lemma item2_bound range i j x :
  (p <- item range i ;; item p j)%result = Ok x -> x = bound range i j.
Proof.
  unfold bound. destruct (item range i) as [p|e] eqn:E; simpl; [|discriminate].
  intros H. apply (item_Ok_nth _ _ 0) in H.
  now rewrite (item_Ok_nth _ _ [] E).
Qed.

Lemma draw_in_Ok range i g x g' :
  draw_in range i g = (Ok x, g') ->
  x = scaled range i (stream g (consumed g)) /\ g' = advance g 1.
Proof.
  unfold draw_in. intros H.
  apply run_bind_Ok_inv in H as (lo & g1 & H1 & H).
  apply lift_Ok_inv in H1 as [H1 ->].
  apply run_bind_Ok_inv in H as (hi & g2 & H2 & H).
  apply lift_Ok_inv in H2 as [H2 ->].
  apply run_bind_Ok_inv in H as (r & g3 & H3 & H).
  unfold random in H3. injection H3 as <- <-.
  unfold ret in H. injection H as <- <-.
  apply item2_bound in H1, H2. subst lo hi.
  split; [reflexivity|]. unfold advance. f_equal. lia.
Qed.

Ltac step_draw H x g :=
  let Hd := fresh "Hd" in
  apply run_bind_Ok_inv in H as (x & g & Hd & H);
  apply draw_in_Ok in Hd as [-> ->].

Lemma body_C4v_Ok range W a0 a1 a2 a3 a4 a5 g sp' g' :
  body_C4v range W [a0; a1; a2; a3; a4; a5] g = (Ok sp', g') ->
  sp' = candidate_C4v range W (stream g) (consumed g) a5 /\
  g' = advance g 5.
Proof.
  unfold body_C4v. intros H.
  step_draw H x0 g0. step_draw H x1 g1. step_draw H x2 g2.
  step_draw H x3 g3. step_draw H x4 g4.
  unfold ret in H. injection H as <- <-. simpl.
  unfold candidate_C4v, advance. simpl.
  replace (consumed g + 1 + 1)%nat with (consumed g + 2)%nat by lia.
  replace (consumed g + 2 + 1)%nat with (consumed g + 3)%nat by lia.
  replace (consumed g + 3 + 1)%nat with (consumed g + 4)%nat by lia.
  replace (consumed g + 4 + 1)%nat with (consumed g + 5)%nat by lia.
  now split.
Qed.

Lemma body_D3h_Ok range W a0 a1 a2 a3 a4 g sp' g' :
  body_D3h range W [a0; a1; a2; a3; a4] g = (Ok sp', g') ->
  sp' = candidate_D3h range W (stream g) (consumed g) a4 /\
  g' = advance g 4.
Proof.
  unfold body_D3h. intros H.
  step_draw H x0 g0. step_draw H x1 g1. step_draw H x2 g2.
  step_draw H x3 g3.
  unfold ret in H. injection H as <- <-. simpl.
  unfold candidate_D3h, advance. simpl.
  replace (consumed g + 1 + 1)%nat with (consumed g + 2)%nat by lia.
  replace (consumed g + 2 + 1)%nat with (consumed g + 3)%nat by lia.
  replace (consumed g + 3 + 1)%nat with (consumed g + 4)%nat by lia.
  now split.
Qed.

Lemma advance_advance g n m : advance (advance g n) m = advance g (n + m).
Proof. unfold advance. simpl. f_equal. lia. Qed.

(** What the rejection loop of the ["C4v"] branch leaves: either the array
    it started from, accepted as it was, or the candidate of its last
    iteration, each iteration having consumed five draws. *)
Lemma while_C4v_trace range W fuel :
  forall a0 a1 a2 a3 a4 a5 g sp' g',
    while fuel rejected (body_C4v range W) [a0; a1; a2; a3; a4; a5] g
      = Some (Ok sp', g') ->
    rejected sp' = false /\
    ((sp' = [a0; a1; a2; a3; a4; a5] /\ g' = g) \/
     exists k, (1 <= k)%nat /\ g' = advance g (5 * k) /\
       sp' = candidate_C4v range W (stream g)
               (consumed g + 5 * (k - 1)) a5).
Proof.
  induction fuel as [|fuel IH]; intros a0 a1 a2 a3 a4 a5 g sp' g' H;
    cbn [while] in H;
    destruct (rejected [a0; a1; a2; a3; a4; a5]) eqn:Hrej;
    try discriminate.
  - injection H as <- <-. split; [assumption|]. now left.
  - destruct (body_C4v range W [a0; a1; a2; a3; a4; a5] g)
      as [[sp1|e] g1] eqn:Hb; [|discriminate].
    apply body_C4v_Ok in Hb as [-> ->].
    apply IH in H as [Hacc [[-> ->]|(k & Hk & -> & ->)]].
    + split; [assumption|]. right. exists 1%nat.
      split; [lia|]. split; [reflexivity|].
      simpl. now rewrite Nat.add_0_r.
    + split; [assumption|]. right. exists (Datatypes.S k).
      split; [lia|]. split.
      * rewrite advance_advance. f_equal. lia.
      * simpl stream. simpl consumed. f_equal. lia.
  - injection H as <- <-. split; [assumption|]. now left.
Qed.

(** The same for the ["D3h"] branch, with four draws per iteration. *)
Lemma while_D3h_trace range W fuel :
  forall a0 a1 a2 a3 a4 g sp' g',
    while fuel rejected (body_D3h range W) [a0; a1; a2; a3; a4] g
      = Some (Ok sp', g') ->
    rejected sp' = false /\
    ((sp' = [a0; a1; a2; a3; a4] /\ g' = g) \/
     exists k, (1 <= k)%nat /\ g' = advance g (4 * k) /\
       sp' = candidate_D3h range W (stream g)
               (consumed g + 4 * (k - 1)) a4).
Proof.
  induction fuel as [|fuel IH]; intros a0 a1 a2 a3 a4 g sp' g' H;
    cbn [while] in H;
    destruct (rejected [a0; a1; a2; a3; a4]) eqn:Hrej;
    try discriminate.
  - injection H as <- <-. split; [assumption|]. now left.
  - destruct (body_D3h range W [a0; a1; a2; a3; a4] g)
      as [[sp1|e] g1] eqn:Hb; [|discriminate].
    apply body_D3h_Ok in Hb as [-> ->].
    apply IH in H as [Hacc [[-> ->]|(k & Hk & -> & ->)]].
    + split; [assumption|]. right. exists 1%nat.
      split; [lia|]. split; [reflexivity|].
      simpl. now rewrite Nat.add_0_r.
    + split; [assumption|]. right. exists (Datatypes.S k).
      split; [lia|]. split.
      * rewrite advance_advance. f_equal. lia.
      * simpl stream. simpl consumed. f_equal. lia.
  - injection H as <- <-. split; [assumption|]. now left.
Qed.

Lemma after_loop_Ok_inv loop k v g' :
  after_loop loop k = Some (Ok v, g') ->
  exists sp g1, loop = Some (Ok sp, g1) /\ k sp g1 = (Ok v, g').
Proof.
  unfold after_loop. destruct loop as [[[sp|e] g1]|]; try discriminate.
  intros H. injection H as H. now exists sp, g1.
Qed.

Lemma draw_trailing_run k sp g :
  draw_trailing k sp g
  = (Ok (set_item sp k (2 * stream g (consumed g) - 1)), advance g 1).
Proof.
  unfold draw_trailing, bind, random, ret, advance. do 2 f_equal. lia.
Qed.

Lemma initial_C4v_rejected : rejected [1; 1; 1; 1; 1; 0] = true.
Proof. reflexivity. Qed.

Lemma initial_D3h_rejected : rejected [1; 1; 1; 1; 0] = true.
Proof. reflexivity. Qed.

(** The run of the ["C4v"] branch, when it returns. *)
Lemma run_C4v self range W fuel g v g' :
  Self.point_group self = "C4v" ->
  generate_random_stevens self range W fuel g = Some (Ok v, g') ->
  exists k, (1 <= k)%nat /\ g' = advance g (5 * k + 1) /\
    rejected (candidate_C4v range W (stream g)
                (consumed g + 5 * (k - 1)) 0) = false /\
    v = candidate_C4v range W (stream g) (consumed g + 5 * (k - 1))
          (2 * stream g (consumed g + 5 * k) - 1).
Proof.
  intros Hpg H. unfold generate_random_stevens in H. rewrite Hpg in H.
  cbn [String.eqb Ascii.eqb Bool.eqb] in H.
  apply after_loop_Ok_inv in H as (sp & g1 & Hloop & H).
  rewrite draw_trailing_run in H. injection H as <- <-.
  apply while_C4v_trace in Hloop as [Hacc [[-> ->]|(k & Hk & -> & ->)]].
  - rewrite initial_C4v_rejected in Hacc. discriminate.
  - exists k. split; [assumption|]. split.
    + now rewrite advance_advance.
    + split; [assumption|]. cbn [candidate_C4v set_item].
      unfold advance. cbn [stream consumed]. reflexivity.
Qed.

(** The run of the ["D3h"] branch, when it returns. *)
Lemma run_D3h self range W fuel g v g' :
  Self.point_group self = "D3h" ->
  generate_random_stevens self range W fuel g = Some (Ok v, g') ->
  exists k, (1 <= k)%nat /\ g' = advance g (4 * k + 1) /\
    rejected (candidate_D3h range W (stream g)
                (consumed g + 4 * (k - 1)) 0) = false /\
    v = candidate_D3h range W (stream g) (consumed g + 4 * (k - 1))
          (2 * stream g (consumed g + 4 * k) - 1).
Proof.
  intros Hpg H. unfold generate_random_stevens in H. rewrite Hpg in H.
  cbn [String.eqb Ascii.eqb Bool.eqb] in H.
  apply after_loop_Ok_inv in H as (sp & g1 & Hloop & H).
  rewrite draw_trailing_run in H. injection H as <- <-.
  apply while_D3h_trace in Hloop as [Hacc [[-> ->]|(k & Hk & -> & ->)]].
  - rewrite initial_D3h_rejected in Hacc. discriminate.
  - exists k. split; [assumption|]. split.
    + now rewrite advance_advance.
    + split; [assumption|]. cbn [candidate_D3h set_item].
      unfold advance. cbn [stream consumed]. reflexivity.
Qed.

(** The test value of the candidate [-25.25, 1/2 + 2^-50, 1/2, 0, 0, 0]:
    in float64 the sum [25.25 + (1/2 + 2^-50)] is rounded to [25.75], and
    the program computes [26.25 - 25.25 - 0 = 1]. *)
Lemma absorbed_test_value :
  test_value (candidate_C4v Examples.Stevens_range (-1)
                (stream Examples.rg_absorbed) 0 0)
  = PrimFloat.one.
Proof. reflexivity. Qed.






(** C6, as stated, fails: the leading parameter that is returned is not
    the one built from the first draw when a candidate has been rejected. *)
Lemma leading_not_from_first_draw :
  ~ (forall self range W fuel g v g',
       Self.point_group self = "C4v" \/ Self.point_group self = "D3h" ->
       generate_random_stevens self range W fuel g = Some (Ok v, g') ->
       nth 0 v 0 == scaled range 0 (stream g (consumed g)) * W).
Proof.
  intros H.
  specialize (H (Examples.ion "C4v" 4) Examples.Stevens_range (-1) 2%nat
                Examples.rg _ _ (or_introl eq_refl) eq_refl).
  vm_compute in H. discriminate H.
Qed.

(** C6, amended.  For ["C4v"] and ["D3h"] every iteration of the rejection
    loop draws the leading parameter again, together with the interior
    ones: a call that returns has run [k >= 1] iterations of
    [draws_per_iteration] draws each, then one draw for the trailing entry,
    and the leading parameter it returns is the one of the last iteration,
    its draw scaled into [range[0]] and multiplied by [W_sign]; the
    interior entries come from the draws that follow it. *)
Theorem leading_redrawn_every_iteration self range W fuel g v g' :
  Self.point_group self = "C4v" \/ Self.point_group self = "D3h" ->
  generate_random_stevens self range W fuel g = Some (Ok v, g') ->
  exists k, (1 <= k)%nat /\
    let m := draws_per_iteration self in
    let c := (consumed g + m * (k - 1))%nat in
    g' = advance g (m * k + 1) /\
    nth 0 v 0 = scaled range 0 (stream g c) * W /\
    (forall i, (1 <= i < m)%nat ->
       nth i v 0 = scaled range i (stream g (c + i)%nat)) /\
    nth m v 0 = 2 * stream g (consumed g + m * k) - 1 /\
    length v = Datatypes.S m.
Proof.
  intros [Hpg|Hpg] H; unfold draws_per_iteration; rewrite Hpg;
    cbn [String.eqb Ascii.eqb Bool.eqb].
  - apply (run_C4v _ _ _ _ _ Hpg) in H as (k & Hk & -> & _ & ->).
    exists k. split; [assumption|]. cbv zeta.
    split; [reflexivity|]. split; [reflexivity|].
    split; [|split; reflexivity].
    intros i Hi.
    assert (i = 1 \/ i = 2 \/ i = 3 \/ i = 4)%nat as [->|[->|[->| ->]]]
      by lia; reflexivity.
  - apply (run_D3h _ _ _ _ _ Hpg) in H as (k & Hk & -> & _ & ->).
    exists k. split; [assumption|]. cbv zeta.
    split; [reflexivity|]. split; [reflexivity|].
    split; [|split; reflexivity].
    intros i Hi.
    assert (i = 1 \/ i = 2 \/ i = 3)%nat as [->|[->| ->]]
      by lia; reflexivity.
Qed.

Lemma leading_redrawn_every_iteration_witness :
  exists k, (1 <= k)%nat /\
    let m := draws_per_iteration (Examples.ion "C4v" 4) in
    let c := (consumed Examples.rg + m * (k - 1))%nat in
    advance Examples.rg 11 = advance Examples.rg (m * k + 1) /\
    nth 0 [-202 # 8; 0 # 2; 0 # 2; 0 # 2; 0 # 2; 0 # 2] 0
    = scaled Examples.Stevens_range 0 (stream Examples.rg c) * (-1) /\
    (forall i, (1 <= i < m)%nat ->
       nth i [-202 # 8; 0 # 2; 0 # 2; 0 # 2; 0 # 2; 0 # 2] 0
       = scaled Examples.Stevens_range i (stream Examples.rg (c + i)%nat)) /\
    nth m [-202 # 8; 0 # 2; 0 # 2; 0 # 2; 0 # 2; 0 # 2] 0
    = 2 * stream Examples.rg (consumed Examples.rg + m * k) - 1 /\
    length [-202 # 8; 0 # 2; 0 # 2; 0 # 2; 0 # 2; 0 # 2] = Datatypes.S m.
Proof.
  apply (@leading_redrawn_every_iteration (Examples.ion "C4v" 4)
           Examples.Stevens_range (-1) 2 Examples.rg).
  - left. reflexivity.
  - reflexivity.
Defined.

(** C8.  For every point group tag other than ["Oh"], ["C4v"] and ["D3h"],
    [generate_random_stevens] raises the [ValueError] of an unsupported
    point group, and the generator is left as it was: no draw has been
    consumed. *)
Theorem unsupported_point_group_raises self range W fuel g :
  Self.point_group self <> "Oh" ->
  Self.point_group self <> "C4v" ->
  Self.point_group self <> "D3h" ->
  generate_random_stevens self range W fuel g
  = Some (Raise (ValueError "This point group is not implemented."), g).
Proof.
  intros H1 H2 H3. unfold generate_random_stevens.
  apply String.eqb_neq in H1, H2, H3. rewrite H1, H2, H3. reflexivity.
Qed.

Lemma unsupported_point_group_raises_witness :
  generate_random_stevens (Examples.ion "Td" 4) Examples.Stevens_range 1 0
    Examples.rg
  = Some (Raise (ValueError "This point group is not implemented."),
          Examples.rg).
Proof.
  apply unsupported_point_group_raises; discriminate.
Defined.

End SamplerFacts.

(** ** The assembler *)

Module AssemblerFacts.

Import Assembler AssemblerSpec.
Local Open Scope string_scope.

(** C9.  For a supported point group, a parameter vector whose length is
    not the expected count (2, 6, 5) makes [ham_cr] raise the [ValueError]
    of a wrong parameter count; the method ends there, without handing
    over to a function of the imported module. *)
Theorem wrong_count_raises self stevens_params :
  supported self ->
  length stevens_params <> expected_count self ->
  exists tail,
    ham_cr self stevens_params
    = Raises (ValueError ("Number of Stevens parameters should be " ++ tail)).
Proof.
  unfold supported, expected_count, ham_cr.
  intros [Hpg|[Hpg|Hpg]] Hlen; rewrite Hpg in *;
    cbn [String.eqb Ascii.eqb Bool.eqb] in *;
    apply Nat.eqb_neq in Hlen; rewrite Hlen; cbn [negb];
    eexists; reflexivity.
Qed.

Lemma wrong_count_raises_witness :
  exists tail,
    ham_cr (Examples.ion "C4v" 4) [1; 0; 0; 0; 0]%Q
    = Raises (ValueError ("Number of Stevens parameters should be " ++ tail)).
Proof.
  apply wrong_count_raises.
  - right. left. reflexivity.
  - discriminate.
Defined.

Lemma by_J_unsupported self n f1 f2 f3 f4 f5 f6 stevens_params :
  ~ supported_J (Self.J self) ->
  by_J self n f1 f2 f3 f4 f5 f6 stevens_params = ReturnsNone.
Proof.
  unfold supported_J, by_J. intros H.
  repeat match goal with
  | |- context [Qeq_bool ?a ?b] =>
      let E := fresh "E" in
      destruct (Qeq_bool a b) eqn:E;
      [apply Qeq_bool_iff in E; exfalso; apply H; tauto|]
  end.
  reflexivity.
Qed.

Lemma by_J_does_not_raise self n f1 f2 f3 f4 f5 f6 stevens_params e :
  by_J self n f1 f2 f3 f4 f5 f6 stevens_params <> Raises e.
Proof.
  unfold by_J.
  repeat match goal with
  | |- context [Qeq_bool ?a ?b] => destruct (Qeq_bool a b)
  end; discriminate.
Qed.

(** C10.  For a supported point group and a parameter vector of the
    expected length, a value of J outside 3.5, 4, 4.5, 6, 7.5, 8 makes
    [ham_cr] return [None]: it raises nothing and hands over to no function
    of the imported module.  The final "not implemented" [ValueError] is
    never raised for a supported point group, whatever the parameters. *)
Theorem unsupported_J_returns_None self stevens_params :
  supported self ->
  length stevens_params = expected_count self ->
  ~ supported_J (Self.J self) ->
  ham_cr self stevens_params = ReturnsNone /\
  forall params,
    ham_cr self params
    <> Raises (ValueError
         "This point group and/or value of J is not implemented.").
Proof.
  unfold supported, expected_count, ham_cr.
  intros [Hpg|[Hpg|Hpg]] Hlen HJ; rewrite Hpg in *;
    cbn [String.eqb Ascii.eqb Bool.eqb] in *;
    (split;
     [rewrite Hlen; cbn [Nat.eqb negb]; now apply by_J_unsupported
     |intros params;
      match goal with
      | |- context [negb ?b] => destruct b; cbn [negb]
      end; [apply by_J_does_not_raise|discriminate]]).
Qed.

Lemma unsupported_J_returns_None_witness :
  ham_cr (Examples.ion "Oh" 15) [1; 0]%Q = ReturnsNone /\
  forall params,
    ham_cr (Examples.ion "Oh" 15) params
    <> Raises (ValueError
         "This point group and/or value of J is not implemented.").
Proof.
  apply unsupported_J_returns_None.
  - left. reflexivity.
  - reflexivity.
  - unfold supported_J. cbn [Self.J Examples.ion].
    intros [H|[H|[H|[H|[H|H]]]]]; discriminate H.
Defined.

End AssemblerFacts.

(** ** Floats that stay finite *)

Module FloatFacts.

Import ThermalSpec.
Local Open Scope R_scope.

Lemma div_Some (x y : R) :
  y <> 0 -> Float.div (Some x) (Some y) = Some (x / y).
Proof.
  intros Hy. unfold Float.div. now destruct (Req_dec_T y 0).
Qed.

Lemma sum_Some (l : list R) : Float.sum (map Some l) = Some (Rsum l).
Proof.
  induction l as [|x l IH]; [reflexivity|].
  cbn [map Float.sum fold_right]. fold (Float.sum (map Some l)).
  rewrite IH. reflexivity.
Qed.

Lemma sum_map_Some (A : Type) (f : A -> Float.float) (g : A -> R) (l : list A) :
  (forall a, In a l -> f a = Some (g a)) ->
  Float.sum (map f l) = Some (Rsum (map g l)).
Proof.
  intros H. rewrite <- sum_Some, map_map. f_equal.
  now apply map_ext_in.
Qed.

Lemma nth_map_seq (A : Type) (f : nat -> A) (m i : nat) (d : A) :
  (i < m)%nat -> nth i (map f (seq 0 m)) d = f i.
Proof.
  intros Hi. rewrite (nth_indep _ d (f 0%nat))
    by (rewrite length_map, length_seq; lia).
  rewrite (map_nth f (seq 0 m) 0%nat i), seq_nth by lia. reflexivity.
Qed.

Lemma Rsum_scale (A : Type) (f : A -> R) (c : R) (l : list A) :
  Rsum (map (fun a => f a * c) l) = Rsum (map f l) * c.
Proof.
  induction l as [|x l IH]; cbn [map Rsum fold_right]; [ring|].
  fold (Rsum (map (fun a => f a * c) l)). fold (Rsum (map f l)).
  rewrite IH. ring.
Qed.

Lemma Rsum_ext (A : Type) (f g : A -> R) (l : list A) :
  (forall a, In a l -> f a = g a) -> Rsum (map f l) = Rsum (map g l).
Proof. intros H. f_equal. now apply map_ext_in. Qed.

Lemma Rsum_pos (A : Type) (f : A -> R) (l : list A) :
  l <> [] -> (forall a, 0 < f a) -> 0 < Rsum (map f l).
Proof.
  intros Hne Hf. destruct l as [|x l]; [congruence|]. clear Hne.
  cbn [map Rsum fold_right]. fold (Rsum (map f l)).
  assert (0 <= Rsum (map f l)).
  { induction l as [|y l IH]; cbn [map Rsum fold_right]; [lra|].
    fold (Rsum (map f l)). specialize (Hf y). lra. }
  specialize (Hf x). lra.
Qed.

End FloatFacts.

(** ** Specific heat *)

Module SpecificHeatFacts.

Import Np Thermal ThermalSpec FloatFacts.
Local Open Scope R_scope.

Lemma boltzmann_term (e T : R) :
  T <> 0 ->
  Float.exp (- Some e / Some T)%float = Some (exp (- e / T)).
Proof.
  intros HT. cbn [Float.opp Float.lift1]. rewrite div_Some by assumption.
  reflexivity.
Qed.

Lemma Z_cr_finite (E : list R) (T : R) :
  T <> 0 -> Z_cr E T = Some (partition E T).
Proof.
  intros HT. unfold Z_cr, boltzmann, partition.
  apply sum_map_Some. intros e _. now apply boltzmann_term.
Qed.

Lemma partition_pos (E : list R) (T : R) :
  E <> [] -> 0 < partition E T.
Proof. intros HE. apply Rsum_pos; [assumption|]. intros e. apply exp_pos. Qed.

(** The value that [cV(T)] computes is finite and is the formula of the
    specification, for a non-empty spectrum and a non-zero temperature. *)
Lemma cV_finite (E : list R) (T : R) :
  E <> [] -> T <> 0 -> cV E T = Some (cV_formula E T).
Proof.
  intros HE HT. unfold cV.
  pose proof (partition_pos T HE) as HZ.
  rewrite Z_cr_finite by assumption.
  rewrite (sum_map_Some _ (fun e => e * e * exp (- e / T))).
  2:{ intros e _. rewrite boltzmann_term by assumption. reflexivity. }
  rewrite (sum_map_Some _ (fun e => e * exp (- e / T) / partition E T)).
  2:{ intros e _. rewrite boltzmann_term by assumption.
      cbn [Float.mul Float.lift2]. apply div_Some. lra. }
  cbn [Float.sq Float.mul Float.lift2].
  rewrite !div_Some by (try lra; nra).
  cbn [Float.sub Float.mul Float.lift2]. f_equal.
  unfold cV_formula, average, weight.
  rewrite (Rsum_ext (fun e => e ^ 2 * (exp (- e / T) / partition E T))
             (fun e => e * e * exp (- e / T) * / partition E T))
    by (intros; field; lra).
  rewrite (Rsum_scale (fun e => e * e * exp (- e / T))).
  rewrite (Rsum_ext (fun e => e * (exp (- e / T) / partition E T))
             (fun e => e * exp (- e / T) / partition E T))
    by (intros; field; lra).
  field. split; lra.
Qed.

Lemma linear_point_last (a b : R) (m : nat) :
  (1 <= m)%nat -> linear_point a b (Datatypes.S m) m = b.
Proof.
  intros Hm. unfold linear_point.
  destruct (Nat.eqb_spec (Datatypes.S m) 1) as [E|_]; [lia|].
  replace (Datatypes.S m - 1)%nat with m by lia.
  assert (INR m <> 0) by (apply not_0_INR; lia).
  field. assumption.
Qed.

(** [np.linspace] returns [num] points, the linearly spaced ones. *)
Lemma linspace_spec (a b : R) (num : Z) :
  (0 <= num)%Z ->
  exists l, linspace a b num = Ok l /\ length l = Z.to_nat num /\
    forall i, (i < Z.to_nat num)%nat ->
      nth i l 0 = linear_point a b (Z.to_nat num) i.
Proof.
  intros Hnum. unfold linspace.
  destruct (Z.ltb_spec num 0) as [?|_]; [lia|].
  destruct (Z.to_nat num) as [|[|m]] eqn:En.
  - exists []. repeat split. intros i Hi. lia.
  - exists [a]. repeat split. intros i Hi.
    assert (i = 0%nat) as -> by lia. reflexivity.
  - eexists. split; [reflexivity|]. split.
    + rewrite length_app, length_map, length_seq. simpl. lia.
    + intros i Hi. destruct (Nat.eq_dec i (Datatypes.S m)) as [->|Hne].
      * rewrite app_nth2 by (rewrite length_map, length_seq; lia).
        rewrite length_map, length_seq, Nat.sub_diag.
        cbn [nth]. symmetry. apply linear_point_last. lia.
      * rewrite app_nth1 by (rewrite length_map, length_seq; lia).
        rewrite nth_map_seq by lia.
        unfold linear_point. cbn [Nat.eqb Nat.add].
        replace (Datatypes.S (Datatypes.S m) - 1)%nat with (Datatypes.S m) by lia.
        ring.
Qed.

Lemma linear_point_pos (a b : R) (n i : nat) :
  0 < a <= b -> (i < n)%nat -> 0 < linear_point a b n i.
Proof.
  intros [Ha Hab] Hi. unfold linear_point.
  destruct (n =? 1)%nat; [assumption|].
  assert (0 <= INR i) by apply pos_INR.
  assert (0 <= (b - a) / INR (n - 1)).
  { apply Rmult_le_pos; [lra|].
    destruct (n - 1)%nat eqn:E.
    - simpl. rewrite Rinv_0. lra.
    - left. apply Rinv_0_lt_compat. apply lt_0_INR. lia. }
  nra.
Qed.

Lemma min_is_head (e0 : R) (l : list R) :
  Forall (Rle e0) l -> Rmin_list (e0 :: l) = e0.
Proof.
  intros H. cbn [Rmin_list].
  induction H as [|x l Hx Hl IH]; [reflexivity|].
  cbn [fold_right]. rewrite IH. apply Rmin_right. assumption.
Qed.

Lemma sorted_head_least (e0 : R) (l : list R) :
  Sorted Rle (e0 :: l) -> Forall (Rle e0) l.
Proof.
  intros H. apply Sorted_StronglySorted in H.
  - now apply StronglySorted_inv in H.
  - intros x y z. apply Rle_trans.
Qed.

(** Subtracting the first eigenvalue of an ascending spectrum is shifting
    it so that its minimum is 0. *)
Lemma shift_by_first (e0 : R) (l : list R) :
  Sorted Rle (e0 :: l) ->
  map (fun e => e - e0) (e0 :: l) = zero_referenced (e0 :: l) /\
  Rmin_list (zero_referenced (e0 :: l)) = 0.
Proof.
  intros H. apply sorted_head_least in H.
  unfold zero_referenced. rewrite (min_is_head H). split; [reflexivity|].
  cbn [map]. rewrite min_is_head; [lra|].
  apply Forall_map. eapply Forall_impl; [|exact H].
  intros x Hx. cbn beta. lra.
Qed.

(** C1.  For a Hamiltonian on which the eigenvalue solver returns a
    non-empty ascending spectrum (its contract on a Hermitian matrix), and a
    grid with [0 < T_min <= T_max] and [T_steps >= 1], [specific_heat]
    returns exactly [T_steps] pairs; the i-th pair holds the i-th of the
    [T_steps] temperatures linearly spaced over [[T_min, T_max]] and the
    finite value [(1/T^2) (<E^2> - <E>^2)] of the Boltzmann-weighted
    variance over the spectrum shifted so that its minimum is 0. *)
Theorem specific_heat_curve (eigvalsh : ndarray -> result (list R))
    (ham : ndarray) (T_min T_max : R) (T_steps : Z) (E : list R) :
  eigvalsh ham = Ok E -> E <> [] -> Sorted Rle E ->
  0 < T_min <= T_max -> (1 <= T_steps)%Z ->
  exists curve,
    specific_heat eigvalsh ham T_min T_max T_steps = Ok curve /\
    length curve = Z.to_nat T_steps /\
    Rmin_list (zero_referenced E) = 0 /\
    forall i, (i < Z.to_nat T_steps)%nat ->
      let Ti := linear_point T_min T_max (Z.to_nat T_steps) i in
      nth i curve (0, None)
      = (Ti, Some (cV_formula (zero_referenced E) Ti)).
Proof.
  intros Hsolve HE Hasc HT Hsteps.
  destruct (linspace_spec T_min T_max (num := T_steps)) as (grid & Hg & Hlen & Hnth);
    [lia|].
  destruct E as [|e0 l]; [congruence|].
  destruct (shift_by_first Hasc) as [Hshift Hmin].
  unfold specific_heat. rewrite Hg, Hsolve. cbn [Py.bind item nth_error].
  rewrite Hshift.
  eexists. split; [reflexivity|]. split; [now rewrite length_map|].
  split; [assumption|].
  intros i Hi. set (Ti := linear_point T_min T_max (Z.to_nat T_steps) i).
  rewrite (nth_indep _ (0, None)
             ((fun Ti => (Ti, cV (zero_referenced (e0 :: l)) Ti)) 0))
    by (rewrite length_map; lia).
  rewrite (map_nth (fun Ti => (Ti, cV (zero_referenced (e0 :: l)) Ti))).
  rewrite Hnth by assumption. fold Ti. f_equal.
  apply cV_finite.
  - unfold zero_referenced. cbn [map]. discriminate.
  - assert (0 < Ti) by (apply linear_point_pos; assumption). lra.
Qed.

Lemma specific_heat_curve_witness :
  exists curve,
    specific_heat Examples.eigvalsh_diagonal Examples.two_levels 2 300 150
    = Ok curve /\
    length curve = Z.to_nat 150 /\
    Rmin_list (zero_referenced [1; 3]) = 0 /\
    forall i, (i < Z.to_nat 150)%nat ->
      let Ti := linear_point 2 300 (Z.to_nat 150) i in
      nth i curve (0, None)
      = (Ti, Some (cV_formula (zero_referenced [1; 3]) Ti)).
Proof.
  apply specific_heat_curve.
  - reflexivity.
  - discriminate.
  - repeat constructor. lra.
  - lra.
  - lia.
Defined.

End SpecificHeatFacts.

(** ** The operator builder *)

Module OperatorFacts.

Import Np Operators OperatorSpec ThermalSpec FloatFacts.
Local Open Scope R_scope.

Lemma Q2R_of_nat (k : nat) : Q2R (inject_Z (Z.of_nat k)) = INR k.
Proof. unfold Q2R. simpl. rewrite INR_IZR_INZ. lra. Qed.

Lemma half_integer_Q2R (J : Q) (n : nat) :
  half_integer J n -> Q2R J = INR n / 2.
Proof.
  unfold half_integer. intros H. apply Qeq_eqR in H. rewrite H.
  rewrite Q2R_div by discriminate. rewrite Q2R_of_nat.
  unfold Q2R. simpl. lra.
Qed.

Lemma arange_nat (stop : Q) (N : nat) :
  (stop == inject_Z (Z.of_nat N))%Q ->
  arange stop = map (fun k => inject_Z (Z.of_nat k)) (seq 0 N).
Proof.
  intros H. unfold arange. rewrite (Qceiling_comp _ _ H), Qceiling_Z.
  now rewrite Nat2Z.id.
Qed.

Lemma arange_2J (J : Q) (n : nat) :
  half_integer J n ->
  arange (2 * J) = map (fun k => inject_Z (Z.of_nat k)) (seq 0 n).
Proof.
  unfold half_integer. intros H. apply arange_nat. rewrite H. field.
Qed.

Lemma arange_2J1 (J : Q) (n : nat) :
  half_integer J n ->
  arange (2 * J + 1)
  = map (fun k => inject_Z (Z.of_nat k)) (seq 0 (Datatypes.S n)).
Proof.
  unfold half_integer. intros H. apply arange_nat. rewrite H.
  rewrite Nat2Z.inj_succ. unfold Z.succ. rewrite inject_Z_plus. field.
Qed.

Lemma lad_sq (n k : nat) :
  (k <= n)%nat -> lad n k * lad n k = (INR n - INR k) * (INR k + 1).
Proof.
  intros Hk. unfold lad. apply sqrt_sqrt.
  apply le_INR in Hk. pose proof (pos_INR k). nra.
Qed.

Lemma ladder_closed (self : Self.training_data) (n : nat) :
  half_integer (Self.J self) n ->
  ladder self = map (fun k => Some (lad n k)) (seq 0 n).
Proof.
  intros HJ. unfold ladder. rewrite (arange_2J HJ), map_map.
  apply map_ext_in. intros k Hk. apply in_seq in Hk.
  assert (Q2R ((2 * Self.J self - inject_Z (Z.of_nat k))
               * (inject_Z (Z.of_nat k) + 1))
          = (INR n - INR k) * (INR k + 1)) as ->.
  { rewrite Q2R_mult, Q2R_minus, Q2R_plus, Q2R_mult, Q2R_of_nat.
    rewrite (half_integer_Q2R HJ). unfold Q2R. simpl. lra. }
  unfold Float.sqrt, lad.
  destruct (Rlt_dec ((INR n - INR k) * (INR k + 1)) 0) as [Hneg|_];
    [|reflexivity].
  exfalso. assert (INR k <= INR n) by (apply le_INR; lia).
  pose proof (pos_INR k). nra.
Qed.

Lemma diag_main_entry (v : list Float.float) (i j : nat) :
  entry (diag v 0) i j
  = if (i =? j)%nat then Cx.of_float (nth i v (Some 0))
    else Some (Cx.of_R 0).
Proof.
  unfold diag. cbn [entry].
  destruct (Z.eqb_spec (Z.of_nat j - Z.of_nat i) 0);
    destruct (Nat.eqb_spec i j); try lia; reflexivity.
Qed.

Lemma diag_sub_entry (v : list Float.float) (i j : nat) :
  entry (diag v (-1)) i j
  = if (i =? j + 1)%nat then Cx.of_float (nth j v (Some 0))
    else Some (Cx.of_R 0).
Proof.
  unfold diag. cbn [entry].
  destruct (Z.eqb_spec (Z.of_nat j - Z.of_nat i) (-1));
    destruct (Nat.eqb_spec i (j + 1)); try lia; reflexivity.
Qed.

Lemma diag_super_entry (v : list Float.float) (i j : nat) :
  entry (diag v 1) i j
  = if (j =? i + 1)%nat then Cx.of_float (nth i v (Some 0))
    else Some (Cx.of_R 0).
Proof.
  unfold diag. cbn [entry].
  destruct (Z.eqb_spec (Z.of_nat j - Z.of_nat i) 1);
    destruct (Nat.eqb_spec j (i + 1)); try lia; reflexivity.
Qed.

Lemma pair_eq (a b c d : R) : a = c -> b = d -> (a, b) = (c, d) :> Cx.C.
Proof. now intros -> ->. Qed.

Lemma Some_pair_eq (a b c d : R) :
  a = c -> b = d -> Some (a, b) = Some (c, d) :> Cx.cfloat.
Proof. now intros -> ->. Qed.

Lemma stretch_id (d i : nat) : (i < d)%nat -> stretch d i = i.
Proof.
  intros Hi. unfold stretch. destruct (Nat.eqb_spec d 1); [lia|reflexivity].
Qed.

(** An elementwise operation on two arrays of the same shape. *)
Lemma elementwise_same_shape f (A B : ndarray) :
  nrows A = nrows B -> ncols A = ncols B ->
  exists C, elementwise f A B = Ok C /\
    nrows C = nrows A /\ ncols C = ncols A /\
    forall i j, (i < nrows A)%nat -> (j < ncols A)%nat ->
      entry C i j = f (entry A i j) (entry B i j).
Proof.
  intros Hr Hc. unfold elementwise, broadcast_dim.
  rewrite <- Hr, <- Hc, !Nat.eqb_refl.
  eexists. split; [reflexivity|]. cbn [nrows ncols entry].
  repeat split. intros i j Hi Hj. now rewrite !stretch_id.
Qed.

Section ValidJ.

Variable self : Self.training_data.
Variable n : nat.
Hypothesis HJ : half_integer (Self.J self) n.

Lemma Jplus_shape :
  nrows (Jplus_op self) = Datatypes.S n /\
  ncols (Jplus_op self) = Datatypes.S n.
Proof.
  unfold Jplus_op. rewrite (ladder_closed _ HJ).
  cbn [diag nrows ncols]. rewrite length_map, length_seq.
  split; simpl; lia.
Qed.

Lemma Jminus_shape :
  nrows (Jminus_op self) = Datatypes.S n /\
  ncols (Jminus_op self) = Datatypes.S n.
Proof.
  unfold Jminus_op. rewrite (ladder_closed _ HJ).
  cbn [diag nrows ncols]. rewrite length_map, length_seq.
  split; simpl; lia.
Qed.

Lemma Jz_shape :
  nrows (Jz_op self) = Datatypes.S n /\ ncols (Jz_op self) = Datatypes.S n.
Proof.
  unfold Jz_op. rewrite (arange_2J1 HJ).
  cbn [diag nrows ncols]. rewrite !length_map, length_seq.
  split; simpl; lia.
Qed.

Lemma Jplus_closed (i j : nat) :
  (i < Datatypes.S n)%nat -> (j < Datatypes.S n)%nat ->
  entry (Jplus_op self) i j = Some (Cx.of_R (Jplus_entry n i j)).
Proof.
  intros Hi Hj. unfold Jplus_op, Jplus_entry.
  rewrite diag_sub_entry, (ladder_closed _ HJ).
  destruct (Nat.eqb_spec i (j + 1)); [|reflexivity].
  rewrite nth_map_seq by lia. reflexivity.
Qed.

Lemma Jminus_closed (i j : nat) :
  (i < Datatypes.S n)%nat -> (j < Datatypes.S n)%nat ->
  entry (Jminus_op self) i j = Some (Cx.of_R (Jminus_entry n i j)).
Proof.
  intros Hi Hj. unfold Jminus_op, Jminus_entry.
  rewrite diag_super_entry, (ladder_closed _ HJ).
  destruct (Nat.eqb_spec j (i + 1)); [|reflexivity].
  rewrite nth_map_seq by lia. reflexivity.
Qed.

Lemma Jz_closed (i j : nat) :
  (i < Datatypes.S n)%nat -> (j < Datatypes.S n)%nat ->
  entry (Jz_op self) i j = Some (Cx.of_R (Jz_entry n i j)).
Proof.
  intros Hi Hj. unfold Jz_op, Jz_entry.
  rewrite diag_main_entry, (arange_2J1 HJ), map_map.
  destruct (Nat.eqb_spec i j); [|reflexivity].
  rewrite nth_map_seq by lia. cbn [Cx.of_float option_map].
  rewrite Q2R_minus, Q2R_of_nat, (half_integer_Q2R HJ). reflexivity.
Qed.

Lemma Jx_closed :
  exists jx, Jx_op self = Ok jx /\
    nrows jx = Datatypes.S n /\ ncols jx = Datatypes.S n /\
    forall i j, (i < Datatypes.S n)%nat -> (j < Datatypes.S n)%nat ->
      entry jx i j = Some (Jx_entry n i j).
Proof.
  destruct Jplus_shape as [Hpr Hpc]. destruct Jminus_shape as [Hmr Hmc].
  destruct (@elementwise_same_shape Cx.cadd (Jplus_op self) (Jminus_op self))
    as (s & Hs & Hsr & Hsc & Hse); [congruence|congruence|].
  unfold Jx_op, add. rewrite Hs. cbn [Py.bind].
  eexists. split; [reflexivity|]. cbn [div_scalar nrows ncols entry].
  split; [congruence|]. split; [congruence|].
  intros i j Hi Hj. rewrite Hse by (rewrite ?Hpr, ?Hpc; assumption).
  rewrite Jplus_closed, Jminus_closed by assumption.
  unfold Jx_entry, Cx.div_float, Cx.cadd, Cx.lift2, Cx.add, Cx.of_R.
  destruct (Req_dec_T 2 0) as [E|_]; [lra|]. cbn [fst snd].
  apply Some_pair_eq; lra.
Qed.

Lemma Jy_closed :
  exists jy, Jy_op self = Ok jy /\
    nrows jy = Datatypes.S n /\ ncols jy = Datatypes.S n /\
    forall i j, (i < Datatypes.S n)%nat -> (j < Datatypes.S n)%nat ->
      entry jy i j = Some (Jy_entry n i j).
Proof.
  destruct Jplus_shape as [Hpr Hpc]. destruct Jminus_shape as [Hmr Hmc].
  destruct (@elementwise_same_shape Cx.csub (Jplus_op self) (Jminus_op self))
    as (s & Hs & Hsr & Hsc & Hse); [congruence|congruence|].
  unfold Jy_op, sub. rewrite Hs. cbn [Py.bind].
  eexists. split; [reflexivity|]. cbn [scale nrows ncols entry].
  split; [congruence|]. split; [congruence|].
  intros i j Hi Hj. rewrite Hse by (rewrite ?Hpr, ?Hpc; assumption).
  rewrite Jplus_closed, Jminus_closed by assumption.
  unfold Jy_entry, Cx.div_float, Cx.cmul, Cx.csub, Cx.lift2, Cx.mul, Cx.sub,
    Cx.opp, Cx.j, Cx.of_R.
  destruct (Req_dec_T 2 0) as [E|_]; [lra|]. cbn [fst snd].
  apply Some_pair_eq; lra.
Qed.

End ValidJ.

(** *** Sums over a band *)

Lemma Rsum_zero (A : Type) (f : A -> R) (l : list A) :
  (forall a, In a l -> f a = 0) -> Rsum (map f l) = 0.
Proof.
  induction l as [|x l IH]; intros H; cbn [map Rsum fold_right]; [reflexivity|].
  fold (Rsum (map f l)). rewrite IH, H; [lra|now left|].
  intros a Ha. apply H. now right.
Qed.

Lemma Rsum_minus (A : Type) (f g : A -> R) (l : list A) :
  Rsum (map f l) - Rsum (map g l) = Rsum (map (fun a => f a - g a) l).
Proof.
  induction l as [|x l IH]; cbn [map Rsum fold_right]; [lra|].
  fold (Rsum (map f l)) (Rsum (map g l)) (Rsum (map (fun a => f a - g a) l)).
  rewrite <- IH. lra.
Qed.

(** A sum whose only non-zero term is the one of index [a]. *)
Lemma Rsum_single_from (f : nat -> R) (a s N : nat) :
  Rsum (map (fun k => if (k =? a)%nat then f k else 0) (seq s N))
  = if ((s <=? a) && (a <? s + N))%bool then f a else 0.
Proof.
  revert s. induction N as [|N IH]; intros s; cbn [seq map Rsum fold_right].
  - destruct (Nat.leb_spec s a), (Nat.ltb_spec a (s + 0)); cbn [andb];
      try reflexivity; lia.
  - fold (Rsum (map (fun k => if (k =? a)%nat then f k else 0)
                    (seq (Datatypes.S s) N))).
    rewrite IH.
    destruct (Nat.eqb_spec s a) as [->|Hne].
    + destruct (Nat.leb_spec (Datatypes.S a) a); [lia|].
      destruct (Nat.leb_spec a a); [|lia].
      destruct (Nat.ltb_spec a (a + Datatypes.S N)); [|lia].
      cbn [andb]. lra.
    + destruct (Nat.leb_spec (Datatypes.S s) a), (Nat.leb_spec s a),
        (Nat.ltb_spec a (Datatypes.S s + N)),
        (Nat.ltb_spec a (s + Datatypes.S N)); cbn [andb]; try lia; lra.
Qed.

Lemma Rsum_single (f : nat -> R) (a N : nat) :
  (a < N)%nat ->
  Rsum (map (fun k => if (k =? a)%nat then f k else 0) (seq 0 N)) = f a.
Proof.
  intros Ha. rewrite Rsum_single_from.
  destruct (Nat.ltb_spec a (0 + N)); [reflexivity|lia].
Qed.

Lemma Csum_components (A : Type) (f : A -> Cx.C) (l : list A) :
  Csum (map f l)
  = (Rsum (map (fun a => fst (f a)) l), Rsum (map (fun a => snd (f a)) l)).
Proof.
  induction l as [|x l IH]; cbn [map Csum Rsum fold_right]; [reflexivity|].
  fold (Csum (map f l)). rewrite IH. reflexivity.
Qed.

Lemma mmul_ext (N : nat) (A A' B B' : nat -> nat -> Cx.C) (i j : nat) :
  (forall k, (k < N)%nat -> A i k = A' i k) ->
  (forall k, (k < N)%nat -> B k j = B' k j) ->
  mmul N A B i j = mmul N A' B' i j.
Proof.
  intros HA HB. unfold mmul. f_equal. apply map_ext_in.
  intros k Hk. apply in_seq in Hk. rewrite HA, HB by lia. reflexivity.
Qed.

(** *** The ladder products *)

Lemma sum_plus_minus (n i j : nat) :
  (i < Datatypes.S n)%nat -> (j < Datatypes.S n)%nat ->
  Rsum (map (fun k => Jplus_entry n i k * Jminus_entry n k j)
            (seq 0 (Datatypes.S n)))
  = if (i =? j)%nat then INR i * (INR n - INR i + 1) else 0.
Proof.
  intros Hi Hj. destruct i as [|i'].
  - rewrite Rsum_zero.
    + destruct (0 =? j)%nat; simpl; lra.
    + intros k _. unfold Jplus_entry.
      destruct (Nat.eqb_spec 0 (k + 1)); [lia|lra].
  - rewrite (Rsum_ext _
      (fun k => if (k =? i')%nat
                then (if (Datatypes.S i' =? j)%nat then lad n k * lad n k
                      else 0)
                else 0)).
    + rewrite (Rsum_single (fun k => if (Datatypes.S i' =? j)%nat
                                      then lad n k * lad n k else 0))
        by lia.
      destruct (Nat.eqb_spec (Datatypes.S i') j); [|reflexivity].
      rewrite lad_sq by lia. rewrite S_INR. ring.
    + intros k _. unfold Jplus_entry, Jminus_entry.
      destruct (Nat.eqb_spec (Datatypes.S i') (k + 1)),
        (Nat.eqb_spec j (k + 1)), (Nat.eqb_spec k i'),
        (Nat.eqb_spec (Datatypes.S i') j); try lia; lra.
Qed.

Lemma sum_minus_plus (n i j : nat) :
  (i < Datatypes.S n)%nat -> (j < Datatypes.S n)%nat ->
  Rsum (map (fun k => Jminus_entry n i k * Jplus_entry n k j)
            (seq 0 (Datatypes.S n)))
  = if (i =? j)%nat then (INR n - INR i) * (INR i + 1) else 0.
Proof.
  intros Hi Hj.
  rewrite (Rsum_ext _
    (fun k => if (k =? i + 1)%nat
              then (if (i =? j)%nat then lad n i * lad n i else 0)
              else 0)).
  - rewrite Rsum_single_from. cbn [Nat.leb andb Nat.add].
    destruct (Nat.ltb_spec (i + 1) (Datatypes.S n)).
    + destruct (Nat.eqb_spec i j); [|reflexivity]. apply lad_sq. lia.
    + destruct (Nat.eqb_spec i j); [|reflexivity].
      assert (i = n) as -> by lia. ring.
  - intros k _. unfold Jplus_entry, Jminus_entry.
    destruct (Nat.eqb_spec k (i + 1)), (Nat.eqb_spec k (j + 1)),
      (Nat.eqb_spec i j); subst; try lia; try lra.
Qed.

(** *** The commutators of the closed forms *)

Ltac band_cases :=
  unfold Jx_entry, Jy_entry, Jz_entry, Jplus_entry, Jminus_entry;
  cbn [fst snd];
  repeat match goal with
  | |- context [Nat.eqb ?a ?b] => destruct (Nat.eqb_spec a b)
  end;
  subst; try lia; rewrite ?plus_INR; cbn [INR]; try field.

Lemma comm_xy (n i j : nat) :
  (i < Datatypes.S n)%nat -> (j < Datatypes.S n)%nat ->
  commutator (Datatypes.S n) (Jx_entry n) (Jy_entry n) i j
  = Cx.mul Cx.j (Cx.of_R (Jz_entry n i j)).
Proof.
  intros Hi Hj. unfold commutator, mmul. rewrite !Csum_components.
  unfold Cx.sub, Cx.mul, Cx.j, Cx.of_R. cbn [fst snd].
  apply pair_eq.
  - rewrite !Rsum_zero; [lra| |];
      intros k _; unfold Jx_entry, Jy_entry; cbn [fst snd]; ring.
  - rewrite Rsum_minus.
    rewrite (Rsum_ext _
      (fun k => (Jplus_entry n i k * Jminus_entry n k j
                 - Jminus_entry n i k * Jplus_entry n k j) * / 2))
      by (intros k _; unfold Jx_entry, Jy_entry; cbn [fst snd]; field).
    rewrite (Rsum_scale
      (fun k => Jplus_entry n i k * Jminus_entry n k j
                - Jminus_entry n i k * Jplus_entry n k j)).
    rewrite <- Rsum_minus, sum_plus_minus, sum_minus_plus by assumption.
    unfold Jz_entry. destruct (i =? j)%nat; field.
Qed.

Lemma comm_yz (n i j : nat) :
  (i < Datatypes.S n)%nat -> (j < Datatypes.S n)%nat ->
  commutator (Datatypes.S n) (Jy_entry n)
    (fun i j => Cx.of_R (Jz_entry n i j)) i j
  = Cx.mul Cx.j (Jx_entry n i j).
Proof.
  intros Hi Hj. unfold commutator, mmul. rewrite !Csum_components.
  unfold Cx.sub, Cx.mul, Cx.j, Cx.of_R. cbn [fst snd].
  apply pair_eq.
  - rewrite !Rsum_zero; [unfold Jx_entry; cbn [fst snd]; lra| |];
      intros k _; unfold Jy_entry; cbn [fst snd]; ring.
  - rewrite (Rsum_ext
      (fun k => fst (Jy_entry n i k) * 0
                + snd (Jy_entry n i k) * Jz_entry n k j)
      (fun k => if (k =? j)%nat
                then snd (Jy_entry n i k) * (INR k - INR n / 2) else 0)).
    2:{ intros k _. unfold Jz_entry, Jy_entry. cbn [fst snd].
        destruct (k =? j)%nat; ring. }
    rewrite (Rsum_ext
      (fun k => Jz_entry n i k * snd (Jy_entry n k j) + 0 * fst (Jy_entry n k j))
      (fun k => if (k =? i)%nat
                then (INR k - INR n / 2) * snd (Jy_entry n k j) else 0)).
    2:{ intros k _. unfold Jz_entry, Jy_entry. cbn [fst snd].
        destruct (Nat.eqb_spec i k), (Nat.eqb_spec k i); subst; try lia; ring. }
    rewrite (Rsum_single
      (fun k => snd (Jy_entry n i k) * (INR k - INR n / 2))) by assumption.
    rewrite (Rsum_single
      (fun k => (INR k - INR n / 2) * snd (Jy_entry n k j))) by assumption.
    band_cases.
Qed.

Lemma comm_zx (n i j : nat) :
  (i < Datatypes.S n)%nat -> (j < Datatypes.S n)%nat ->
  commutator (Datatypes.S n) (fun i j => Cx.of_R (Jz_entry n i j))
    (Jx_entry n) i j
  = Cx.mul Cx.j (Jy_entry n i j).
Proof.
  intros Hi Hj. unfold commutator, mmul. rewrite !Csum_components.
  unfold Cx.sub, Cx.mul, Cx.j, Cx.of_R. cbn [fst snd].
  apply pair_eq.
  - rewrite (Rsum_ext
      (fun k => Jz_entry n i k * fst (Jx_entry n k j)
                - 0 * snd (Jx_entry n k j))
      (fun k => if (k =? i)%nat
                then (INR k - INR n / 2) * fst (Jx_entry n k j) else 0)).
    2:{ intros k _. unfold Jz_entry, Jx_entry. cbn [fst snd].
        destruct (Nat.eqb_spec i k), (Nat.eqb_spec k i); subst; try lia; ring. }
    rewrite (Rsum_ext
      (fun k => fst (Jx_entry n i k) * Jz_entry n k j
                - snd (Jx_entry n i k) * 0)
      (fun k => if (k =? j)%nat
                then fst (Jx_entry n i k) * (INR k - INR n / 2) else 0)).
    2:{ intros k _. unfold Jz_entry, Jx_entry. cbn [fst snd].
        destruct (k =? j)%nat; ring. }
    rewrite (Rsum_single
      (fun k => (INR k - INR n / 2) * fst (Jx_entry n k j))) by assumption.
    rewrite (Rsum_single
      (fun k => fst (Jx_entry n i k) * (INR k - INR n / 2))) by assumption.
    band_cases.
  - rewrite !Rsum_zero; [unfold Jy_entry; cbn [fst snd]; lra| |];
      intros k _; unfold Jx_entry; cbn [fst snd]; ring.
Qed.

(** C5.  For a non-negative half-integer [J = n/2] the operator builder
    returns three finite [(n+1) x (n+1)] matrices; [Jz] is diagonal with the
    diagonal entries [-J, -J+1, ..., J] in this order, and the three satisfy
    [[Jx, Jy] = i Jz], [[Jy, Jz] = i Jx] and [[Jz, Jx] = i Jy]. *)
Theorem angular_momentum_algebra (self : Self.training_data) (n : nat) :
  half_integer (Self.J self) n ->
  exists jx jy,
    Jx_op self = Ok jx /\ Jy_op self = Ok jy /\
    let jz := Jz_op self in
    let N := Datatypes.S n in
    finite_square N jx /\ finite_square N jy /\ finite_square N jz /\
    (forall i j, (i < N)%nat -> (j < N)%nat ->
       entry jz i j
       = Some (Cx.of_R (if (i =? j)%nat then - Q2R (Self.J self) + INR i
                        else 0))) /\
    - Q2R (Self.J self) + INR n = Q2R (Self.J self) /\
    (forall i j, (i < N)%nat -> (j < N)%nat ->
       commutator N (value jx) (value jy) i j = Cx.mul Cx.j (value jz i j) /\
       commutator N (value jy) (value jz) i j = Cx.mul Cx.j (value jx i j) /\
       commutator N (value jz) (value jx) i j = Cx.mul Cx.j (value jy i j)).
Proof.
  intros HJ.
  destruct (Jx_closed _ HJ) as (jx & Hjx & Hxr & Hxc & Hx).
  destruct (Jy_closed _ HJ) as (jy & Hjy & Hyr & Hyc & Hy).
  destruct (Jz_shape _ HJ) as [Hzr Hzc].
  pose proof (Jz_closed _ HJ) as Hz.
  pose proof (half_integer_Q2R HJ) as HQ.
  exists jx, jy. split; [assumption|]. split; [assumption|]. cbv zeta.
  assert (Vx : forall i j, (i < Datatypes.S n)%nat -> (j < Datatypes.S n)%nat ->
            value jx i j = Jx_entry n i j)
    by (intros i j Hi Hj; unfold value; now rewrite Hx).
  assert (Vy : forall i j, (i < Datatypes.S n)%nat -> (j < Datatypes.S n)%nat ->
            value jy i j = Jy_entry n i j)
    by (intros i j Hi Hj; unfold value; now rewrite Hy).
  assert (Vz : forall i j, (i < Datatypes.S n)%nat -> (j < Datatypes.S n)%nat ->
            value (Jz_op self) i j = Cx.of_R (Jz_entry n i j))
    by (intros i j Hi Hj; unfold value; now rewrite Hz).
  repeat split; try assumption.
  - intros i j Hi Hj. now rewrite Hx.
  - intros i j Hi Hj. now rewrite Hy.
  - intros i j Hi Hj. now rewrite Hz.
  - intros i j Hi Hj. rewrite Hz by assumption. unfold Jz_entry.
    destruct (i =? j)%nat; [|reflexivity]. rewrite HQ. do 2 f_equal. lra.
  - rewrite HQ. lra.
  - unfold commutator.
    rewrite (@mmul_ext _ (value jx) (Jx_entry n) (value jy) (Jy_entry n)),
      (@mmul_ext _ (value jy) (Jy_entry n) (value jx) (Jx_entry n)), Vz
      by (intros; auto).
    now apply comm_xy.
  - unfold commutator.
    rewrite (@mmul_ext _ (value jy) (Jy_entry n) (value (Jz_op self))
               (fun i j => Cx.of_R (Jz_entry n i j))),
      (@mmul_ext _ (value (Jz_op self)) (fun i j => Cx.of_R (Jz_entry n i j))
               (value jy) (Jy_entry n)), Vx
      by (intros; auto).
    now apply comm_yz.
  - unfold commutator.
    rewrite (@mmul_ext _ (value (Jz_op self))
               (fun i j => Cx.of_R (Jz_entry n i j)) (value jx) (Jx_entry n)),
      (@mmul_ext _ (value jx) (Jx_entry n) (value (Jz_op self))
               (fun i j => Cx.of_R (Jz_entry n i j))), Vy
      by (intros; auto).
    now apply comm_zx.
Qed.

Lemma angular_momentum_algebra_witness :
  exists jx jy,
    Jx_op (Examples.ion "Oh" (7 # 2)) = Ok jx /\
    Jy_op (Examples.ion "Oh" (7 # 2)) = Ok jy /\
    let jz := Jz_op (Examples.ion "Oh" (7 # 2)) in
    let N := 8%nat in
    finite_square N jx /\ finite_square N jy /\ finite_square N jz /\
    (forall i j, (i < N)%nat -> (j < N)%nat ->
       entry jz i j
       = Some (Cx.of_R (if (i =? j)%nat then - Q2R (7 # 2) + INR i
                        else 0))) /\
    - Q2R (7 # 2) + INR 7 = Q2R (7 # 2) /\
    (forall i j, (i < N)%nat -> (j < N)%nat ->
       commutator N (value jx) (value jy) i j = Cx.mul Cx.j (value jz i j) /\
       commutator N (value jy) (value jz) i j = Cx.mul Cx.j (value jx i j) /\
       commutator N (value jz) (value jx) i j = Cx.mul Cx.j (value jy i j)).
Proof.
  apply (@angular_momentum_algebra (Examples.ion "Oh" (7 # 2)) 7).
  reflexivity.
Defined.

End OperatorFacts.

(** ** Loops that may raise *)

Module PyFacts.

Lemma bind_Ok_inv (A B : Type) (r : result A) (k : A -> result B) (b : B) :
  Py.bind r k = Ok b -> exists a, r = Ok a /\ k a = Ok b.
Proof. destruct r as [a|e]; [|discriminate]. intros H. now exists a. Qed.

Lemma mapM_In (A B : Type) (f : A -> result B) (l : list A) (ys : list B) :
  mapM f l = Ok ys ->
  forall y, In y ys -> exists x, In x l /\ f x = Ok y.
Proof.
  revert ys. induction l as [|a l IH]; intros ys H y Hy; cbn [mapM] in H.
  - injection H as <-. destruct Hy.
  - destruct (f a) as [b|e] eqn:Ea; [|discriminate].
    destruct (mapM f l) as [bs|e]; [|discriminate].
    injection H as <-. destruct Hy as [<-|Hy].
    + exists a. split; [now left|assumption].
    + destruct (IH bs eq_refl y Hy) as (x & Hx & Hfx).
      exists x. split; [now right|assumption].
Qed.

Lemma mapM_returns (A B : Type) (f : A -> result B) (l : list A) :
  (forall x, In x l -> exists y, f x = Ok y) ->
  exists ys, mapM f l = Ok ys /\ length ys = length l.
Proof.
  induction l as [|a l IH]; intros H; cbn [mapM].
  - now exists [].
  - destruct (H a) as [b Hb]; [now left|]. rewrite Hb.
    destruct IH as (bs & Hbs & Hlen); [intros x Hx; apply H; now right|].
    rewrite Hbs. exists (b :: bs). split; [reflexivity|]. simpl. now rewrite Hlen.
Qed.

(** The same, with a relation between each element and its result. *)
Lemma mapM_related (A B : Type) (P : A -> B -> Prop) (f : A -> result B)
    (l : list A) :
  (forall x, In x l -> exists y, f x = Ok y /\ P x y) ->
  exists ys, mapM f l = Ok ys /\ Forall2 P l ys.
Proof.
  induction l as [|a l IH]; intros H; cbn [mapM].
  - exists []. split; [reflexivity|constructor].
  - destruct (H a) as (b & Hb & Pb); [now left|]. rewrite Hb.
    destruct IH as (bs & Hbs & HF); [intros x Hx; apply H; now right|].
    rewrite Hbs. exists (b :: bs). split; [reflexivity|now constructor].
Qed.

Lemma Forall2_at (A B : Type) (P : A -> B -> Prop) (l : list A)
    (ys : list B) (da : A) (db : B) :
  Forall2 P l ys ->
  length ys = length l /\
  forall i, (i < length l)%nat -> P (nth i l da) (nth i ys db).
Proof.
  induction 1 as [|a b l ys Hab HF [IHlen IH]].
  - split; [reflexivity|]. intros i Hi. simpl in Hi. lia.
  - split; [simpl; now rewrite IHlen|].
    intros [|i] Hi; [assumption|]. apply IH. simpl in Hi. lia.
Qed.

End PyFacts.

(** ** The field-perturbed Hamiltonian and the induced moment *)

Module FieldFacts.

Import Np Operators Thermal OperatorSpec ThermalSpec FloatFacts
  SpecificHeatFacts OperatorFacts PyFacts.
Local Open Scope R_scope.

Lemma gJLS_defined (self : Self.training_data) (n : nat) :
  half_integer (Self.J self) n -> (1 <= n)%nat ->
  gJLS self
  = Ok (1 + (Self.J self * (Self.J self + 1)
             + Self.S self * (Self.S self + 1)
             - Self.L self * (Self.L self + 1))
            / (2 * Self.J self * (Self.J self + 1)))%Q.
Proof.
  intros HJ Hn. unfold gJLS.
  destruct (Qeq_bool (2 * Self.J self * (Self.J self + 1)) 0) eqn:E;
    [|reflexivity].
  exfalso. apply Qeq_bool_iff, Qeq_eqR in E.
  rewrite !Q2R_mult, Q2R_plus, (half_integer_Q2R HJ) in E.
  assert (1 <= INR n) by (change 1 with (INR 1); apply le_INR; lia).
  unfold Q2R in E. simpl in E. nra.
Qed.

(** The 2-norm of a 3-vector. *)
Lemma norm_3 (x y z : R) :
  norm (map Some [x; y; z]) = Some (sqrt (x * x + y * y + z * z)).
Proof.
  unfold norm. cbn [map Float.sum fold_right Float.sq Float.mul Float.add
                    Float.lift2 Float.sqrt].
  destruct (Rlt_dec (x * x + (y * y + (z * z + 0))) 0) as [Hneg|_].
  - exfalso. nra.
  - do 2 f_equal. ring.
Qed.

(** A non-zero 3-vector divided by its norm has finite components and unit
    length. *)
Lemma normalized_unit (x y z : R) :
  x * x + y * y + z * z <> 0 ->
  exists d, normalized [x; y; z] = map Some d /\ unit_vector d /\
    d = map (fun c => c / sqrt (x * x + y * y + z * z)) [x; y; z].
Proof.
  intros Hnz. set (s := x * x + y * y + z * z) in *.
  assert (Hs : 0 < s) by (subst s; nra).
  assert (Hr : 0 < sqrt s) by now apply sqrt_lt_R0.
  assert (Hrr : sqrt s * sqrt s = s) by (apply sqrt_sqrt; lra).
  exists (map (fun c => c / sqrt s) [x; y; z]).
  split; [|split; [|reflexivity]].
  - unfold normalized. rewrite norm_3. fold s. cbn [map].
    rewrite !div_Some by lra. reflexivity.
  - exists (x / sqrt s), (y / sqrt s), (z / sqrt s).
    split; [reflexivity|].
    replace (x / sqrt s * (x / sqrt s) + y / sqrt s * (y / sqrt s)
             + z / sqrt s * (z / sqrt s))
      with (s / (sqrt s * sqrt s)) by (subst s; field; lra).
    rewrite Hrr. field. lra.
Qed.

Section ValidJ.

Variable self : Self.training_data.
Variable n : nat.
Hypothesis HJ : half_integer (Self.J self) n.

(** The field-direction operator: its shape and its entries. *)
Lemma J_op_closed (d0 d1 d2 : Float.float) :
  exists Jdir, J_op self [d0; d1; d2] = Ok Jdir /\
    nrows Jdir = Datatypes.S n /\ ncols Jdir = Datatypes.S n /\
    forall i j, (i < Datatypes.S n)%nat -> (j < Datatypes.S n)%nat ->
      entry Jdir i j
      = Cx.cadd
          (Cx.cadd (Cx.cmul (Cx.of_float d0) (Some (Jx_entry n i j)))
                   (Cx.cmul (Cx.of_float d1) (Some (Jy_entry n i j))))
          (Cx.cmul (Cx.of_float d2) (Some (Cx.of_R (Jz_entry n i j)))).
Proof.
  destruct (Jx_closed self HJ) as (jx & Hjx & Hxr & Hxc & Hx).
  destruct (Jy_closed self HJ) as (jy & Hjy & Hyr & Hyc & Hy).
  destruct (Jz_shape self HJ) as [Hzr Hzc].
  pose proof (Jz_closed self HJ) as Hz.
  unfold J_op. cbn [item nth_error Py.bind]. rewrite Hjx, Hjy. cbn [Py.bind].
  destruct (@elementwise_same_shape Cx.cadd (scale (Cx.of_float d0) jx)
              (scale (Cx.of_float d1) jy))
    as (s & Hs & Hsr & Hsc & Hse);
    [cbn [scale nrows]; congruence|cbn [scale ncols]; congruence|].
  unfold add at 1. rewrite Hs. cbn [Py.bind].
  cbn [scale nrows ncols] in Hsr, Hsc, Hse.
  destruct (@elementwise_same_shape Cx.cadd s
              (scale (Cx.of_float d2) (Jz_op self)))
    as (t & Ht & Htr & Htc & Hte);
    [cbn [scale nrows]; congruence|cbn [scale ncols]; congruence|].
  unfold add. rewrite Ht.
  exists t. split; [reflexivity|]. split; [congruence|]. split; [congruence|].
  intros i j Hi Hj.
  rewrite Hte by (rewrite ?Hsr, ?Hsc, ?Hxr, ?Hxc; assumption).
  rewrite Hse by (rewrite ?Hxr, ?Hxc; assumption).
  cbn [scale entry]. rewrite Hx, Hy, Hz by assumption. reflexivity.
Qed.

End ValidJ.

(** The perturbed Hamiltonian: its shape and its entries. *)
Lemma perturbed_closed (ham_cr Jdir : ndarray) (g B : R) :
  nrows ham_cr = nrows Jdir -> ncols ham_cr = ncols Jdir ->
  exists ham, perturbed ham_cr g Jdir B = Ok ham /\
    nrows ham = nrows ham_cr /\ ncols ham = ncols ham_cr /\
    forall i j, (i < nrows ham_cr)%nat -> (j < ncols ham_cr)%nat ->
      entry ham i j
      = Cx.csub (entry ham_cr i j)
          (Cx.cmul (Cx.cmul (Some (Cx.of_R (g * Q2R muB_over_kB)))
                            (entry Jdir i j))
                   (Some (Cx.of_R B))).
Proof.
  intros Hr Hc. unfold perturbed, sub.
  apply elementwise_same_shape; cbn [scale_r scale nrows ncols]; assumption.
Qed.

(** The moment is computed without exception when the shapes agree. *)
Lemma mag_returns (g : R) (Jdir : ndarray) (E : list R) (V : ndarray)
    (T : R) :
  ncols Jdir = nrows V -> nrows Jdir = nrows V ->
  (length E <= ncols V)%nat ->
  exists m, mag g Jdir E V T = Ok m.
Proof.
  intros Hc Hr HE. unfold mag.
  destruct (@mapM_returns _ _
    (fun i =>
       (u <- column V i ;;
        JV <- dot Jdir V ;;
        w <- column JV i ;;
        d <- vdot (map Cx.cconj u) w ;;
        e <- item E i ;;
        Ok (Cx.cmul d
              (Cx.of_float (Float.exp (- Some e / Some T)%float))))%result)
    (seq 0 (length E))) as (terms & Hterms & _).
  - intros i Hi. apply in_seq in Hi.
    unfold column at 1. destruct (Nat.ltb_spec i (ncols V)); [|lia].
    cbn [Py.bind]. unfold dot. rewrite Hc, Nat.eqb_refl. cbn [Py.bind].
    unfold column. cbn [ncols nrows].
    destruct (Nat.ltb_spec i (ncols V)); [|lia]. cbn [Py.bind].
    unfold vdot. rewrite !length_map, !length_seq, Hr, Nat.eqb_refl.
    cbn [Py.bind]. unfold item.
    destruct (nth_error E i) as [e|] eqn:Ee.
    + eexists. reflexivity.
    + apply nth_error_None in Ee. lia.
  - rewrite Hterms. eexists. reflexivity.
Qed.

Lemma solve_returns (eigh : ndarray -> result (list R * ndarray))
    (N : nat) (m : ndarray) :
  solver_contract eigh N -> (1 <= N)%nat -> nrows m = N -> ncols m = N ->
  exists E V, solve eigh m = Ok (E, V) /\ length E = N /\
    nrows V = N /\ ncols V = N.
Proof.
  intros Hc HN Hr Hcol. destruct (Hc m Hr Hcol) as (E & V & He & HE & HVr & HVc).
  unfold solve. rewrite He. cbn [Py.bind fst snd].
  destruct E as [|e0 E']; [simpl in HE; lia|]. cbn [item nth_error Py.bind].
  eexists. eexists. split; [reflexivity|]. rewrite length_map. now repeat split.
Qed.

Section WellFormed.

Variable eigh : ndarray -> result (list R * ndarray).
Variable self : Self.training_data.
Variable n : nat.
Variable ham_cr : ndarray.
Variable B_direction : list R.
Hypothesis HJ : half_integer (Self.J self) n.
Hypothesis Hn : (1 <= n)%nat.
Hypothesis Hdir : length B_direction = 3%nat.
Hypothesis Hrows : nrows ham_cr = Datatypes.S n.
Hypothesis Hcols : ncols ham_cr = Datatypes.S n.
Hypothesis Hsolver : solver_contract eigh (Datatypes.S n).

(** On well-formed inputs [susceptibility] returns [T_steps] rows, one per
    temperature of the linear grid, whatever the temperatures are. *)
Lemma susceptibility_returns (B T_min T_max : R) (T_steps : Z) :
  (0 <= T_steps)%Z ->
  exists curve,
    susceptibility eigh self ham_cr B_direction B T_min T_max T_steps
    = Ok curve /\
    length curve = Z.to_nat T_steps /\
    forall i, (i < Z.to_nat T_steps)%nat ->
      fst (nth i curve (0, None))
      = linear_point T_min T_max (Z.to_nat T_steps) i.
Proof.
  intros Hsteps. unfold susceptibility.
  rewrite (gJLS_defined _ HJ Hn). cbn [Py.bind].
  destruct (linspace_spec T_min T_max Hsteps) as (grid & Hg & Hlen & Hnth).
  rewrite Hg. cbn [Py.bind].
  destruct B_direction as [|x [|y [|z [|? ?]]]]; try discriminate Hdir.
  unfold normalized. cbn [map].
  set (nrm := norm [Some x; Some y; Some z]).
  destruct (J_op_closed self HJ (Some x / nrm)%float (Some y / nrm)%float
              (Some z / nrm)%float) as (Jdir & HJdir & Hdr & Hdc & _).
  rewrite HJdir. cbn [Py.bind].
  match goal with
  | |- context [perturbed ham_cr ?g Jdir B] =>
      destruct (@perturbed_closed ham_cr Jdir g B)
        as (ham & Hham & Hhr & Hhc & _); [congruence|congruence|]
  end.
  rewrite Hham. cbn [Py.bind].
  destruct (@solve_returns eigh (Datatypes.S n) ham Hsolver)
    as (E & V & Hsol & HE & HVr & HVc); [lia|congruence|congruence|].
  rewrite Hsol. cbn [Py.bind fst snd].
  match goal with
  | |- context [mapM ?f grid] =>
      destruct (@mapM_related _ _ (fun T row => fst row = T) f grid)
        as (rows & Hrows' & HF)
  end.
  - intros T _.
    match goal with
    | |- context [mag ?g Jdir E V T] =>
        destruct (@mag_returns g Jdir E V T) as [m Hm]; [congruence|congruence|lia|]
    end.
    rewrite Hm. cbn [Py.bind]. eexists. split; reflexivity.
  - exists rows. split; [assumption|].
    destruct (Forall2_at 0 (0, None) HF) as [Hl Hat].
    split; [transitivity (length grid); [exact Hl|exact Hlen]|].
    intros i Hi. rewrite <- Hnth by assumption. apply Hat. lia.
Qed.

(** On well-formed inputs [magnetization] returns one list of rows per
    field of the linear grid, and in it one row [(B, T, value)] per
    temperature of the geometric grid. *)
Lemma magnetization_returns (geomspace : R -> R -> Z -> result (list R))
    (B_min B_max : R) (B_steps : Z) (T_min T_max : R) (T_steps : Z)
    (T_array : list R) :
  geomspace T_min T_max T_steps = Ok T_array ->
  (0 <= B_steps)%Z ->
  exists B_array rows,
    linspace B_min B_max B_steps = Ok B_array /\
    magnetization eigh geomspace self ham_cr B_direction B_min B_max B_steps
      T_min T_max T_steps = Ok rows /\
    Forall2 (fun B row =>
               Forall2 (fun T (e : R * R * Float.float) => fst e = (B, T))
                       T_array row)
            B_array rows.
Proof.
  intros HT Hsteps. unfold magnetization.
  rewrite (gJLS_defined _ HJ Hn). cbn [Py.bind]. rewrite HT. cbn [Py.bind].
  destruct (linspace_spec B_min B_max Hsteps) as (grid & Hg & Hlen & Hnth).
  rewrite Hg. cbn [Py.bind].
  destruct B_direction as [|x [|y [|z [|? ?]]]]; try discriminate Hdir.
  unfold normalized. cbn [map].
  set (nrm := norm [Some x; Some y; Some z]).
  destruct (J_op_closed self HJ (Some x / nrm)%float (Some y / nrm)%float
              (Some z / nrm)%float) as (Jdir & HJdir & Hdr & Hdc & _).
  rewrite HJdir. cbn [Py.bind].
  match goal with
  | |- context [mapM ?f grid] =>
      destruct (@mapM_related _ _
        (fun B row =>
           Forall2 (fun T (e : R * R * Float.float) => fst e = (B, T))
                   T_array row) f grid) as (rows & Hrows' & HF)
  end.
  - intros B _.
    match goal with
    | |- context [perturbed ham_cr ?g Jdir B] =>
        destruct (@perturbed_closed ham_cr Jdir g B)
          as (ham & Hham & Hhr & Hhc & _); [congruence|congruence|]
    end.
    rewrite Hham. cbn [Py.bind].
    destruct (@solve_returns eigh (Datatypes.S n) ham Hsolver)
      as (E & V & Hsol & HE & HVr & HVc); [lia|congruence|congruence|].
    rewrite Hsol. cbn [Py.bind fst snd].
    match goal with
    | |- context [mapM ?f T_array] =>
        destruct (@mapM_related _ _
          (fun T (e : R * R * Float.float) => fst e = (B, T)) f T_array)
          as (row & Hrow & HFr)
    end.
    + intros T _.
      match goal with
      | |- context [mag ?g Jdir E V T] =>
          destruct (@mag_returns g Jdir E V T) as [m Hm];
            [congruence|congruence|lia|]
      end.
      rewrite Hm. cbn [Py.bind]. eexists. split; reflexivity.
    + exists row. split; assumption.
  - exists grid, rows. split; [reflexivity|]. split; assumption.
Qed.

End WellFormed.

(** What a row of the susceptibility curve holds. *)
Lemma susceptibility_row eigh self ham_cr B_direction B T_min T_max T_steps
    susc T chi :
  susceptibility eigh self ham_cr B_direction B T_min T_max T_steps
  = Ok susc ->
  In (T, chi) susc ->
  exists g Jdir ham es m,
    gJLS self = Ok g /\
    J_op self (normalized B_direction) = Ok Jdir /\
    perturbed ham_cr (Q2R g) Jdir B = Ok ham /\
    solve eigh ham = Ok es /\
    mag (Q2R g) Jdir (fst es) (snd es) T = Ok m /\
    chi = Cx.real (Cx.div_float m (Some B)).
Proof.
  intros H Hin. unfold susceptibility in H.
  apply bind_Ok_inv in H as (g & Hg & H).
  apply bind_Ok_inv in H as (T_array & HT & H).
  apply bind_Ok_inv in H as (Jdir & HJdir & H).
  apply bind_Ok_inv in H as (ham & Hham & H).
  apply bind_Ok_inv in H as (es & Hes & H).
  destruct (mapM_In _ _ H _ Hin) as (T0 & _ & Hrow).
  apply bind_Ok_inv in Hrow as (m & Hm & Hrow).
  injection Hrow as -> <-.
  now exists g, Jdir, ham, es, m.
Qed.

(** What an entry of the magnetization array holds. *)
Lemma magnetization_row eigh geomspace self ham_cr B_direction B_min B_max
    B_steps T_min T_max T_steps rows row B T v :
  magnetization eigh geomspace self ham_cr B_direction B_min B_max B_steps
    T_min T_max T_steps = Ok rows ->
  In row rows -> In (B, T, v) row ->
  exists g Jdir ham es m,
    gJLS self = Ok g /\
    J_op self (normalized B_direction) = Ok Jdir /\
    perturbed ham_cr (Q2R g) Jdir B = Ok ham /\
    solve eigh ham = Ok es /\
    mag (Q2R g) Jdir (fst es) (snd es) T = Ok m /\
    v = Cx.real m.
Proof.
  intros H Hrow Hin. unfold magnetization in H.
  apply bind_Ok_inv in H as (g & Hg & H).
  apply bind_Ok_inv in H as (T_array & HT & H).
  apply bind_Ok_inv in H as (B_array & HB & H).
  apply bind_Ok_inv in H as (Jdir & HJdir & H).
  destruct (mapM_In _ _ H _ Hrow) as (B0 & _ & HB0).
  apply bind_Ok_inv in HB0 as (ham & Hham & HB0).
  apply bind_Ok_inv in HB0 as (es & Hes & HB0).
  destruct (mapM_In _ _ HB0 _ Hin) as (T0 & _ & HT0).
  apply bind_Ok_inv in HT0 as (m & Hm & HT0).
  injection HT0 as -> -> <-.
  now exists g, Jdir, ham, es, m.
Qed.

Lemma real_div_mul (m : Cx.cfloat) (B : R) :
  B <> 0 ->
  (Cx.real (Cx.div_float m (Some B)) * Some B)%float = Cx.real m.
Proof.
  intros HB. destruct m as [[re im]|]; [|reflexivity].
  unfold Cx.div_float. destruct (Req_dec_T B 0) as [E|_]; [contradiction|].
  cbn [Cx.real option_map fst Float.mul Float.lift2]. f_equal. now field.
Qed.

(** C4.  For the same zero-field Hamiltonian and field direction, a non-zero
    field [B] and a temperature [T] that occur in both grids, the
    susceptibility at [T] multiplied by [B] is the magnetization at
    [(B, T)]: the susceptibility is the induced moment divided by [B]. *)
Theorem susceptibility_times_field
    (eigh : ndarray -> result (list R * ndarray))
    (geomspace : R -> R -> Z -> result (list R))
    (self : Self.training_data) (ham_cr : ndarray) (B_direction : list R)
    (B T_min T_max : R) (T_steps : Z)
    (B_min B_max : R) (B_steps : Z) (T_min' T_max' : R) (T_steps' : Z)
    (susc : list (R * Float.float))
    (rows : list (list (R * R * Float.float))) :
  B <> 0 ->
  susceptibility eigh self ham_cr B_direction B T_min T_max T_steps
  = Ok susc ->
  magnetization eigh geomspace self ham_cr B_direction B_min B_max B_steps
    T_min' T_max' T_steps' = Ok rows ->
  forall row T chi v,
    In row rows -> In (B, T, v) row -> In (T, chi) susc ->
    (chi * Some B)%float = v.
Proof.
  intros HB Hs Hm row T chi v Hrow Hv Hchi.
  pose proof (@susceptibility_row eigh self ham_cr B_direction B T_min T_max
                T_steps susc T chi Hs Hchi)
    as (g & Jdir & ham & es & m & Hg & HJ & Hham & Hes & Hmag & ->).
  pose proof (@magnetization_row eigh geomspace self ham_cr B_direction
                B_min B_max B_steps T_min' T_max' T_steps' rows row B T v
                Hm Hrow Hv)
    as (g' & Jdir' & ham' & es' & m' & Hg' & HJ' & Hham' & Hes' & Hmag' & ->).
  rewrite Hg in Hg'. injection Hg' as <-.
  rewrite HJ in HJ'. injection HJ' as <-.
  rewrite Hham in Hham'. injection Hham' as <-.
  rewrite Hes in Hes'. injection Hes' as <-.
  rewrite Hmag in Hmag'. injection Hmag' as <-.
  now apply real_div_mul.
Qed.

Lemma muB_over_kB_value : Q2R muB_over_kB = 0.671713816.
Proof. unfold Q2R, muB_over_kB. simpl. lra. Qed.

Lemma gJLS_lande (self : Self.training_data) (n : nat) :
  half_integer (Self.J self) n -> (1 <= n)%nat ->
  Q2R (1 + (Self.J self * (Self.J self + 1)
            + Self.S self * (Self.S self + 1)
            - Self.L self * (Self.L self + 1))
           / (2 * Self.J self * (Self.J self + 1)))%Q
  = lande (Q2R (Self.J self)) (Q2R (Self.L self)) (Q2R (Self.S self)).
Proof.
  intros HJ Hn. unfold lande.
  assert (Hd : ~ (2 * Self.J self * (Self.J self + 1) == 0)%Q).
  { intros E. apply Qeq_eqR in E.
    rewrite !Q2R_mult, Q2R_plus, (half_integer_Q2R HJ) in E.
    assert (1 <= INR n) by (change 1 with (INR 1); apply le_INR; lia).
    unfold Q2R in E. simpl in E. nra. }
  rewrite Q2R_plus, Q2R_div by assumption.
  rewrite Q2R_minus, !Q2R_plus, !Q2R_mult, !Q2R_plus.
  assert (H1 : Q2R 1 = 1) by (unfold Q2R; simpl; lra).
  assert (H2 : Q2R 2 = 2) by (unfold Q2R; simpl; lra).
  rewrite !H1, !H2. reflexivity.
Qed.

(** C3.  For a valid [J = n/2 > 0], a finite [(n+1) x (n+1)] zero-field
    Hamiltonian, a non-zero direction [(x, y, z)] and any field [B], the
    perturbed Hamiltonian is [ham0 - gJLS * 0.671713816 * J_dir * B], where
    [J_dir = d_x Jx + d_y Jy + d_z Jz] is built from the direction divided by
    its norm, which has unit length, and [gJLS] is the Lande-type factor of
    [J], [L], [S]; it is the matrix that [susceptibility] and
    [magnetization] hand to the eigen-solver for every value they return. *)
Theorem perturbed_hamiltonian_formula (self : Self.training_data) (n : nat)
    (ham_cr : ndarray) (x y z : R) :
  half_integer (Self.J self) n -> (1 <= n)%nat ->
  finite_square (Datatypes.S n) ham_cr ->
  x * x + y * y + z * z <> 0 ->
  let N := Datatypes.S n in
  exists d jx jy Jdir g,
    (normalized [x; y; z] = map Some d /\ unit_vector d) /\
    (Jx_op self = Ok jx /\ Jy_op self = Ok jy /\
     J_op self (map Some d) = Ok Jdir /\ finite_square N Jdir /\
     forall i j, (i < N)%nat -> (j < N)%nat ->
       value Jdir i j
       = field_direction_operator d (value jx) (value jy)
           (value (Jz_op self)) i j) /\
    (gJLS self = Ok g /\
     Q2R g = lande (Q2R (Self.J self)) (Q2R (Self.L self))
               (Q2R (Self.S self))) /\
    forall B, exists ham,
      perturbed ham_cr (Q2R g) Jdir B = Ok ham /\ finite_square N ham /\
      (forall i j, (i < N)%nat -> (j < N)%nat ->
         value ham i j
         = field_hamiltonian (value ham_cr) (Q2R g) (value Jdir) B i j) /\
      (forall eigh T_min T_max T_steps susc T chi,
         susceptibility eigh self ham_cr [x; y; z] B T_min T_max T_steps
         = Ok susc ->
         In (T, chi) susc ->
         exists es m, solve eigh ham = Ok es /\
           mag (Q2R g) Jdir (fst es) (snd es) T = Ok m /\
           chi = Cx.real (Cx.div_float m (Some B))) /\
      (forall eigh geomspace B_min B_max B_steps T_min T_max T_steps rows
              row T v,
         magnetization eigh geomspace self ham_cr [x; y; z] B_min B_max
           B_steps T_min T_max T_steps = Ok rows ->
         In row rows -> In (B, T, v) row ->
         exists es m, solve eigh ham = Ok es /\
           mag (Q2R g) Jdir (fst es) (snd es) T = Ok m /\
           v = Cx.real m).
Proof.
  intros HJ Hn (Hr & Hc & Hfin) Hnz N.
  destruct (normalized_unit Hnz) as (d & Hd & Hunit & Hdeq).
  destruct (Jx_closed self HJ) as (jx & Hjx & Hxr & Hxc & Hx).
  destruct (Jy_closed self HJ) as (jy & Hjy & Hyr & Hyc & Hy).
  pose proof (Jz_closed self HJ) as Hz.
  cbn [map] in Hdeq.
  set (r := sqrt (x * x + y * y + z * z)) in *.
  destruct (J_op_closed self HJ (Some (x / r)) (Some (y / r)) (Some (z / r)))
    as (Jdir & HJdir & Hdr & Hdc & Hde).
  assert (HJd : J_op self (map Some d) = Ok Jdir) by (now rewrite Hdeq).
  assert (HJn : J_op self (normalized [x; y; z]) = Ok Jdir)
    by (now rewrite Hd).
  pose proof (gJLS_defined self HJ Hn) as Hg.
  pose proof (gJLS_lande self HJ Hn) as Hl.
  set (g := (1 + (Self.J self * (Self.J self + 1)
                  + Self.S self * (Self.S self + 1)
                  - Self.L self * (Self.L self + 1))
                 / (2 * Self.J self * (Self.J self + 1)))%Q) in *.
  assert (HdeS : forall i j, (i < N)%nat -> (j < N)%nat ->
            entry Jdir i j
            = Some (field_direction_operator d (value jx) (value jy)
                      (value (Jz_op self)) i j)).
  { intros i j Hi Hj. rewrite Hde by assumption.
    unfold field_direction_operator, value.
    rewrite Hx, Hy, Hz by assumption. rewrite Hdeq. reflexivity. }
  exists d, jx, jy, Jdir, g.
  split; [now split|]. split.
  { split; [assumption|]. split; [assumption|]. split; [assumption|]. split.
    - split; [assumption|]. split; [assumption|].
      intros i j Hi Hj. rewrite HdeS by assumption. discriminate.
    - intros i j Hi Hj. unfold value at 1. now rewrite HdeS. }
  split; [now split|].
  intros B.
  destruct (@perturbed_closed ham_cr Jdir (Q2R g) B)
    as (ham & Hham & Hhr & Hhc & Hhe); [congruence|congruence|].
  assert (HheS : forall i j, (i < N)%nat -> (j < N)%nat ->
            entry ham i j
            = Some (field_hamiltonian (value ham_cr) (Q2R g) (value Jdir) B
                      i j)).
  { intros i j Hi Hj. rewrite Hhe by (rewrite ?Hr, ?Hc; assumption).
    unfold field_hamiltonian, value. rewrite HdeS by assumption.
    specialize (Hfin i j Hi Hj).
    destruct (entry ham_cr i j) as [h|]; [|contradiction].
    rewrite muB_over_kB_value. reflexivity. }
  exists ham. split; [assumption|]. split.
  { split; [rewrite Hhr; exact Hr|]. split; [rewrite Hhc; exact Hc|].
    intros i j Hi Hj. rewrite HheS by assumption. discriminate. }
  split.
  { intros i j Hi Hj. unfold value at 1. now rewrite HheS. }
  split.
  - intros eigh T_min T_max T_steps susc T chi Hs Hin.
    pose proof (@susceptibility_row eigh self ham_cr [x; y; z] B T_min T_max
                  T_steps susc T chi Hs Hin)
      as (g' & Jdir' & ham' & es & m & Hg' & HJ' & Hham' & Hes & Hm & ->).
    rewrite Hg in Hg'. injection Hg' as <-.
    rewrite HJn in HJ'. injection HJ' as <-.
    rewrite Hham in Hham'. injection Hham' as <-.
    now exists es, m.
  - intros eigh geomspace B_min B_max B_steps T_min T_max T_steps rows row
      T v Hm Hrow Hin.
    pose proof (@magnetization_row eigh geomspace self ham_cr [x; y; z]
                  B_min B_max B_steps T_min T_max T_steps rows row B T v
                  Hm Hrow Hin)
      as (g' & Jdir' & ham' & es & m & Hg' & HJ' & Hham' & Hes & Hmag & ->).
    rewrite Hg in Hg'. injection Hg' as <-.
    rewrite HJn in HJ'. injection HJ' as <-.
    rewrite Hham in Hham'. injection Hham' as <-.
    now exists es, m.
Qed.

Lemma doublet_finite : finite_square 2 Examples.doublet.
Proof.
  split; [reflexivity|]. split; [reflexivity|].
  intros [|[|i]] [|[|j]] _ _; discriminate.
Qed.

Lemma eigh_diagonal_contract (N : nat) :
  solver_contract Examples.eigh_diagonal N.
Proof.
  intros m Hr Hc. exists (Examples.diagonal m), (Examples.identity (nrows m)).
  split; [reflexivity|]. unfold Examples.diagonal.
  rewrite length_map, length_seq. cbn [Examples.identity nrows ncols].
  now repeat split.
Qed.

Lemma perturbed_hamiltonian_formula_witness :
  exists d Jdir g ham,
    normalized [0; 0; 1] = map Some d /\ unit_vector d /\
    J_op (Examples.ion "Oh" (1 # 2)) (map Some d) = Ok Jdir /\
    gJLS (Examples.ion "Oh" (1 # 2)) = Ok g /\
    perturbed Examples.doublet (Q2R g) Jdir (1 / 10000) = Ok ham /\
    forall i j, (i < 2)%nat -> (j < 2)%nat ->
      value ham i j
      = field_hamiltonian (value Examples.doublet) (Q2R g) (value Jdir)
          (1 / 10000) i j.
Proof.
  destruct (@perturbed_hamiltonian_formula (Examples.ion "Oh" (1 # 2)) 1
              Examples.doublet 0 0 1)
    as (d & jx & jy & Jdir & g & [Hd Hu] & (_ & _ & HJ & _ & _) & [Hg _]
        & HB).
  - reflexivity.
  - lia.
  - exact doublet_finite.
  - lra.
  - destruct (HB (1 / 10000)) as (ham & Hham & _ & He & _).
    exists d, Jdir, g, ham. repeat split; assumption.
Defined.

Lemma susceptibility_times_field_witness :
  exists susc rows row T chi v,
    susceptibility Examples.eigh_diagonal (Examples.ion "Oh" (1 # 2))
      Examples.doublet [0; 0; 1] 1 2 2 1 = Ok susc /\
    magnetization Examples.eigh_diagonal Examples.geomspace_positive
      (Examples.ion "Oh" (1 # 2)) Examples.doublet [0; 0; 1] 1 1 1 2 2 1
    = Ok rows /\
    In row rows /\ In (1, T, v) row /\ In (T, chi) susc /\
    (chi * Some 1)%float = v.
Proof.
  destruct (@susceptibility_returns Examples.eigh_diagonal
              (Examples.ion "Oh" (1 # 2)) 1 Examples.doublet [0; 0; 1]
              eq_refl (le_n 1) eq_refl eq_refl eq_refl
              (@eigh_diagonal_contract 2) 1 2 2 1)
    as (susc & Hs & Hlen & Hfst); [lia|].
  destruct (@magnetization_returns Examples.eigh_diagonal
              (Examples.ion "Oh" (1 # 2)) 1 Examples.doublet [0; 0; 1]
              eq_refl (le_n 1) eq_refl eq_refl eq_refl
              (@eigh_diagonal_contract 2) Examples.geomspace_positive
              1 1 1 2 2 1 [2] eq_refl)
    as (B_array & rows & HB & Hm & HF); [lia|].
  injection HB as <-.
  destruct susc as [|[T chi] [|? ?]]; try discriminate Hlen.
  specialize (Hfst 0%nat (le_n 1)). cbn in Hfst. subst T.
  inversion HF as [|B row l1 l2 Hrow Hnil]; subst. inversion Hnil; subst.
  inversion Hrow as [|T [[B' T'] v] l3 l4 He Hnil']; subst.
  inversion Hnil'; subst. cbn [fst] in He. injection He as -> ->.
  exists [(2, chi)], [[(1, 2, v)]], [(1, 2, v)], 2, chi, v.
  split; [exact Hs|]. split; [exact Hm|].
  split; [now left|]. split; [now left|]. split; [now left|].
  refine (@susceptibility_times_field Examples.eigh_diagonal
            Examples.geomspace_positive (Examples.ion "Oh" (1 # 2))
            Examples.doublet [0; 0; 1] 1 2 2 1 1 1 1 2 2 1
            [(2, chi)] [[(1, 2, v)]] _ Hs Hm [(1, 2, v)] 2 chi v _ _ _).
  - lra.
  - now left.
  - now left.
  - now left.
Defined.

(** [specific_heat] returns [T_steps] rows, one per temperature of the linear
    grid, whatever the temperatures are, once the solver has returned a
    non-empty spectrum. *)
Lemma specific_heat_returns (eigvalsh : ndarray -> result (list R))
    (ham : ndarray) (T_min T_max : R) (T_steps : Z) (E : list R) :
  eigvalsh ham = Ok E -> E <> [] -> (0 <= T_steps)%Z ->
  exists curve,
    specific_heat eigvalsh ham T_min T_max T_steps = Ok curve /\
    length curve = Z.to_nat T_steps /\
    forall i, (i < Z.to_nat T_steps)%nat ->
      fst (nth i curve (0, None))
      = linear_point T_min T_max (Z.to_nat T_steps) i.
Proof.
  intros Hsolve HE Hsteps.
  destruct (linspace_spec T_min T_max Hsteps) as (grid & Hg & Hlen & Hnth).
  destruct E as [|e0 l]; [congruence|].
  unfold specific_heat. rewrite Hg, Hsolve. cbn [Py.bind item nth_error].
  eexists. split; [reflexivity|]. split; [now rewrite length_map|].
  intros i Hi.
  match goal with
  | |- context [map ?f grid] =>
      rewrite (nth_indep _ (0, None) (f 0)) by (rewrite length_map; lia);
      rewrite (map_nth f)
  end.
  cbn [fst]. now apply Hnth.
Qed.

(** C7, as stated, fails: with [T_min = 0] neither function raises. *)
Lemma zero_T_min_is_accepted :
  ~ (forall eigvalsh eigh self ham_cr B_direction B T_min T_max T_steps,
       T_min <= 0 ->
       (exists e,
          specific_heat eigvalsh ham_cr T_min T_max T_steps = Raise e) /\
       (exists e,
          susceptibility eigh self ham_cr B_direction B T_min T_max T_steps
          = Raise e)).
Proof.
  intros H.
  destruct (H Examples.eigvalsh_diagonal Examples.eigh_diagonal
              (Examples.ion "Oh" (1 # 2)) Examples.doublet [0; 0; 1]
              (1 / 10000) 0 300 3%Z (Rle_refl 0)) as [[e He] [e' He']].
  destruct (@specific_heat_returns Examples.eigvalsh_diagonal
              Examples.doublet 0 300 3 [0; 2] eq_refl)
    as (curve & Hc & _); [discriminate|lia|].
  rewrite Hc in He. discriminate He.
Qed.

(** C7, amended.  The temperature range is not validated.  For a request
    with [T_min <= 0] and [T_steps >= 0], on inputs that are otherwise well
    formed (the eigenvalue solver returns a non-empty spectrum; [J = n/2 > 0],
    a direction with three components, an [(n+1) x (n+1)] Hamiltonian, a
    solver that returns [n+1] eigenvalues and eigenvectors), [specific_heat]
    and [susceptibility] raise nothing and return [T_steps] rows, the i-th
    holding the i-th temperature of the linear grid from [T_min] to
    [T_max]. *)
Theorem temperature_range_not_validated
    (eigvalsh : ndarray -> result (list R))
    (eigh : ndarray -> result (list R * ndarray))
    (self : Self.training_data) (n : nat) (ham_cr : ndarray)
    (B_direction : list R) (B T_min T_max : R) (T_steps : Z) (E : list R) :
  T_min <= 0 -> (0 <= T_steps)%Z ->
  eigvalsh ham_cr = Ok E -> E <> [] ->
  half_integer (Self.J self) n -> (1 <= n)%nat ->
  length B_direction = 3%nat ->
  nrows ham_cr = Datatypes.S n -> ncols ham_cr = Datatypes.S n ->
  solver_contract eigh (Datatypes.S n) ->
  (exists curve,
     specific_heat eigvalsh ham_cr T_min T_max T_steps = Ok curve /\
     length curve = Z.to_nat T_steps /\
     forall i, (i < Z.to_nat T_steps)%nat ->
       fst (nth i curve (0, None))
       = linear_point T_min T_max (Z.to_nat T_steps) i) /\
  (exists curve,
     susceptibility eigh self ham_cr B_direction B T_min T_max T_steps
     = Ok curve /\
     length curve = Z.to_nat T_steps /\
     forall i, (i < Z.to_nat T_steps)%nat ->
       fst (nth i curve (0, None))
       = linear_point T_min T_max (Z.to_nat T_steps) i).
Proof.
  intros _ Hsteps Hsolve HE HJ Hn Hdir Hr Hc Hsolver. split.
  - now apply (specific_heat_returns _ _ _ _ Hsolve).
  - now apply susceptibility_returns with (n := n).
Qed.

Lemma temperature_range_not_validated_witness :
  (exists curve,
     specific_heat Examples.eigvalsh_diagonal Examples.doublet 0 300 3
     = Ok curve /\
     length curve = Z.to_nat 3 /\
     forall i, (i < Z.to_nat 3)%nat ->
       fst (nth i curve (0, None)) = linear_point 0 300 (Z.to_nat 3) i) /\
  (exists curve,
     susceptibility Examples.eigh_diagonal (Examples.ion "Oh" (1 # 2))
       Examples.doublet [0; 0; 1] (1 / 10000) 0 300 3 = Ok curve /\
     length curve = Z.to_nat 3 /\
     forall i, (i < Z.to_nat 3)%nat ->
       fst (nth i curve (0, None)) = linear_point 0 300 (Z.to_nat 3) i).
Proof.
  apply (@temperature_range_not_validated Examples.eigvalsh_diagonal
           Examples.eigh_diagonal (Examples.ion "Oh" (1 # 2)) 1
           Examples.doublet [0; 0; 1] (1 / 10000) 0 300 3 [0; 2]).
  - lra.
  - lia.
  - reflexivity.
  - discriminate.
  - reflexivity.
  - lia.
  - reflexivity.
  - reflexivity.
  - reflexivity.
  - apply eigh_diagonal_contract.
Defined.

End FieldFacts.

(** * Further properties *)

(** ** The sampler: ranges, termination and errors *)

Module SamplerMore.

Import Rng Sampler SamplerSpec SamplerFacts.
Local Open Scope Q_scope.
Local Open Scope string_scope.

Lemma has_bounds_items range i :
  has_bounds range i ->
  (p <- item range i ;; item p 0)%result = Ok (bound range i 0) /\
  (p <- item range i ;; item p 1)%result = Ok (bound range i 1).
Proof.
  intros (lo & hi & rest & H). unfold item, bound.
  rewrite H. cbn [Py.bind nth_error]. rewrite (nth_error_nth _ _ [] H).
  now split.
Qed.

(** A draw from a row that exists returns, and consumes one draw. *)
Lemma draw_in_run range i g :
  has_bounds range i ->
  draw_in range i g
  = (Ok (scaled range i (stream g (consumed g))), advance g 1).
Proof.
  intros H. destruct (has_bounds_items H) as [H0 H1].
  unfold draw_in, Rng.bind, lift. rewrite H0, H1.
  unfold random, ret, scaled, advance. do 2 f_equal. lia.
Qed.

(** A draw from a row that does not exist raises before the generator is
    touched. *)
Lemma draw_in_missing range i g :
  nth_error range i = None -> draw_in range i g = (Raise IndexError, g).
Proof.
  intros H. unfold draw_in, Rng.bind, lift, item. now rewrite H.
Qed.

Lemma scaled_within range i r :
  ordered range i -> 0 <= r -> r < 1 ->
  bound range i 0 <= scaled range i r /\ scaled range i r <= bound range i 1.
Proof.
  unfold ordered, scaled. intros Ho Hr0 Hr1.
  set (lo := bound range i 0) in *. set (hi := bound range i 1) in *.
  split; nra.
Qed.

Ltac run_draw :=
  rewrite draw_in_run
    by (match goal with
        | H : forall i, _ -> has_bounds _ i |- _ => apply H; lia
        end);
  cbn [advance stream consumed].

(** One iteration of the ["C4v"] loop on a complete range table. *)
Lemma body_C4v_run range W a0 a1 a2 a3 a4 a5 g :
  (forall i, (i < 5)%nat -> has_bounds range i) ->
  body_C4v range W [a0; a1; a2; a3; a4; a5] g
  = (Ok (candidate_C4v range W (stream g) (consumed g) a5), advance g 5).
Proof.
  intros H. unfold body_C4v, Rng.bind.
  do 5 run_draw. unfold ret, candidate_C4v, advance. cbn [set_item stream consumed].
  replace (consumed g + 1 + 1)%nat with (consumed g + 2)%nat by lia.
  replace (consumed g + 2 + 1)%nat with (consumed g + 3)%nat by lia.
  replace (consumed g + 3 + 1)%nat with (consumed g + 4)%nat by lia.
  replace (consumed g + 4 + 1)%nat with (consumed g + 5)%nat by lia.
  reflexivity.
Qed.

(** One iteration of the ["D3h"] loop on a complete range table. *)
Lemma body_D3h_run range W a0 a1 a2 a3 a4 g :
  (forall i, (i < 4)%nat -> has_bounds range i) ->
  body_D3h range W [a0; a1; a2; a3; a4] g
  = (Ok (candidate_D3h range W (stream g) (consumed g) a4), advance g 4).
Proof.
  intros H. unfold body_D3h, Rng.bind.
  do 4 run_draw. unfold ret, candidate_D3h, advance. cbn [set_item stream consumed].
  replace (consumed g + 1 + 1)%nat with (consumed g + 2)%nat by lia.
  replace (consumed g + 2 + 1)%nat with (consumed g + 3)%nat by lia.
  replace (consumed g + 3 + 1)%nat with (consumed g + 4)%nat by lia.
  reflexivity.
Qed.

Lemma while_done (St : Type) fuel (cond : St -> bool) body (s : St) g :
  cond s = false -> while fuel cond body s g = Some (Ok s, g).
Proof. intros H. destruct fuel; cbn [while]; now rewrite H. Qed.

(** The ["C4v"] loop returns the first candidate that is accepted, once the
    fuel covers the iterations before it. *)
Lemma while_C4v_accepts range W :
  (forall i, (i < 5)%nat -> has_bounds range i) ->
  forall k fuel a0 a1 a2 a3 a4 a5 g,
    rejected [a0; a1; a2; a3; a4; a5] = true ->
    (forall i, (i < k)%nat ->
       rejected (candidate_C4v range W (stream g) (consumed g + 5 * i) a5)
       = true) ->
    rejected (candidate_C4v range W (stream g) (consumed g + 5 * k) a5)
    = false ->
    (k + 1 <= fuel)%nat ->
    while fuel rejected (body_C4v range W) [a0; a1; a2; a3; a4; a5] g
    = Some (Ok (candidate_C4v range W (stream g) (consumed g + 5 * k) a5),
            advance g (5 * (k + 1))).
Proof.
  intros Hb. induction k as [|k IH];
    intros fuel a0 a1 a2 a3 a4 a5 g Hrej Hbefore Hacc Hfuel;
    (destruct fuel as [|fuel]; [lia|]);
    cbn [while]; rewrite Hrej, body_C4v_run by assumption.
  - rewrite Nat.mul_0_r, Nat.add_0_r in Hacc.
    rewrite while_done by assumption.
    now rewrite Nat.mul_0_r, Nat.add_0_r.
  - unfold candidate_C4v at 1.
    rewrite IH; cbn [advance stream consumed].
    + rewrite advance_advance.
      replace (consumed g + 5 + 5 * k)%nat
        with (consumed g + 5 * Datatypes.S k)%nat by lia.
      replace (5 + 5 * (k + 1))%nat with (5 * (Datatypes.S k + 1))%nat
        by lia.
      reflexivity.
    + specialize (Hbefore 0%nat ltac:(lia)).
      now rewrite Nat.mul_0_r, Nat.add_0_r in Hbefore.
    + intros i Hi. specialize (Hbefore (Datatypes.S i) ltac:(lia)).
      replace (consumed g + 5 + 5 * i)%nat
        with (consumed g + 5 * Datatypes.S i)%nat by lia.
      assumption.
    + replace (consumed g + 5 + 5 * k)%nat
        with (consumed g + 5 * Datatypes.S k)%nat by lia.
      assumption.
    + lia.
Qed.

Lemma while_D3h_accepts range W :
  (forall i, (i < 4)%nat -> has_bounds range i) ->
  forall k fuel a0 a1 a2 a3 a4 g,
    rejected [a0; a1; a2; a3; a4] = true ->
    (forall i, (i < k)%nat ->
       rejected (candidate_D3h range W (stream g) (consumed g + 4 * i) a4)
       = true) ->
    rejected (candidate_D3h range W (stream g) (consumed g + 4 * k) a4)
    = false ->
    (k + 1 <= fuel)%nat ->
    while fuel rejected (body_D3h range W) [a0; a1; a2; a3; a4] g
    = Some (Ok (candidate_D3h range W (stream g) (consumed g + 4 * k) a4),
            advance g (4 * (k + 1))).
Proof.
  intros Hb. induction k as [|k IH];
    intros fuel a0 a1 a2 a3 a4 g Hrej Hbefore Hacc Hfuel;
    (destruct fuel as [|fuel]; [lia|]);
    cbn [while]; rewrite Hrej, body_D3h_run by assumption.
  - rewrite Nat.mul_0_r, Nat.add_0_r in Hacc.
    rewrite while_done by assumption.
    now rewrite Nat.mul_0_r, Nat.add_0_r.
  - unfold candidate_D3h at 1.
    rewrite IH; cbn [advance stream consumed].
    + rewrite advance_advance.
      replace (consumed g + 4 + 4 * k)%nat
        with (consumed g + 4 * Datatypes.S k)%nat by lia.
      replace (4 + 4 * (k + 1))%nat with (4 * (Datatypes.S k + 1))%nat
        by lia.
      reflexivity.
    + specialize (Hbefore 0%nat ltac:(lia)).
      now rewrite Nat.mul_0_r, Nat.add_0_r in Hbefore.
    + intros i Hi. specialize (Hbefore (Datatypes.S i) ltac:(lia)).
      replace (consumed g + 4 + 4 * i)%nat
        with (consumed g + 4 * Datatypes.S i)%nat by lia.
      assumption.
    + replace (consumed g + 4 + 4 * k)%nat
        with (consumed g + 4 * Datatypes.S k)%nat by lia.
      assumption.
    + lia.
Qed.

(** *** The concrete tables and generator satisfy the hypotheses *)

Lemma example_uniform : uniform (stream Examples.rg).
Proof.
  intros k. cbn [stream Examples.rg]. destruct (k <? 5)%nat; split; lra.
Qed.

Lemma example_has_bounds i :
  (i < 5)%nat -> has_bounds Examples.Stevens_range i.
Proof.
  intros Hi. destruct i as [|[|[|[|[|i]]]]]; try lia;
    eexists; eexists; eexists; reflexivity.
Qed.

Lemma example_ordered i : ordered Examples.Stevens_range i.
Proof.
  unfold ordered, bound.
  destruct i as [|[|[|[|[|[|i]]]]]]; cbn [nth Examples.Stevens_range]; lra.
Qed.

Lemma example_wide_has_bounds i :
  (i < 5)%nat -> has_bounds Examples.Stevens_range_wide i.
Proof.
  intros Hi. destruct i as [|[|[|[|[|i]]]]]; try lia;
    eexists; eexists; eexists; reflexivity.
Qed.

(** *** The point group without a rejection loop *)

(** X1.  For ["Oh"] and a range table whose first two rows hold their bounds
    in order, the call returns for every fuel after exactly two draws: the
    second entry lies within its range, and the leading entry is a value
    within its range multiplied by [W_sign]. *)
Theorem Oh_returns_after_two_draws self range W fuel g :
  Self.point_group self = "Oh" ->
  has_bounds range 0 -> has_bounds range 1 ->
  ordered range 0 -> ordered range 1 ->
  uniform (stream g) ->
  exists a x1,
    generate_random_stevens self range W fuel g
    = Some (Ok [a * W; x1], advance g 2) /\
    (bound range 0 0 <= a /\ a <= bound range 0 1) /\
    (bound range 1 0 <= x1 /\ x1 <= bound range 1 1).
Proof.
  intros Hpg H0 H1 Ho0 Ho1 Hu.
  exists (scaled range 0 (stream g (consumed g))),
         (scaled range 1 (stream g (consumed g + 1)%nat)).
  split; [|split; apply scaled_within; try assumption; apply Hu].
  unfold generate_random_stevens. rewrite Hpg.
  cbn [String.eqb Ascii.eqb Bool.eqb]. unfold Rng.bind.
  rewrite draw_in_run by assumption. rewrite draw_in_run by assumption.
  unfold ret. rewrite advance_advance. reflexivity.
Qed.

Lemma Oh_returns_after_two_draws_witness :
  exists a x1,
    generate_random_stevens (Examples.ion "Oh" 4) Examples.Stevens_range 1 0
      Examples.rg
    = Some (Ok [a * 1; x1], advance Examples.rg 2) /\
    (bound Examples.Stevens_range 0 0 <= a
     /\ a <= bound Examples.Stevens_range 0 1) /\
    (bound Examples.Stevens_range 1 0 <= x1
     /\ x1 <= bound Examples.Stevens_range 1 1).
Proof.
  apply Oh_returns_after_two_draws.
  - reflexivity.
  - apply example_has_bounds. lia.
  - apply example_has_bounds. lia.
  - apply example_ordered.
  - apply example_ordered.
  - exact example_uniform.
Defined.

(** *** Accepted samples lie within the ranges *)

(** X2.  For ["C4v"] and ["D3h"], with draws in [[0, 1)] and rows whose
    bounds are in order, every vector that is returned has its leading entry
    equal to a value of [range[0]] multiplied by [W_sign], every interior
    entry within its own range, and the trailing entry in [[-1, 1)]. *)
Theorem accepted_sample_within_ranges self range W fuel g v g' :
  Self.point_group self = "C4v" \/ Self.point_group self = "D3h" ->
  generate_random_stevens self range W fuel g = Some (Ok v, g') ->
  uniform (stream g) ->
  (forall i, ordered range i) ->
  let m := draws_per_iteration self in
  (exists a, nth 0 v 0 = a * W /\
     bound range 0 0 <= a /\ a <= bound range 0 1) /\
  (forall i, (1 <= i < m)%nat ->
     bound range i 0 <= nth i v 0 /\ nth i v 0 <= bound range i 1) /\
  (-1 <= nth m v 0 /\ nth m v 0 < 1).
Proof.
  intros [Hpg|Hpg] H Hu Ho; unfold draws_per_iteration; rewrite Hpg;
    cbn [String.eqb Ascii.eqb Bool.eqb]; cbv zeta.
  - apply (run_C4v _ _ _ _ _ Hpg) in H as (k & _ & _ & _ & ->).
    split; [|split].
    + eexists. split; [reflexivity|]. apply scaled_within; auto; apply Hu.
    + intros i Hi.
      assert (i = 1 \/ i = 2 \/ i = 3 \/ i = 4)%nat as [->|[->|[->| ->]]]
        by lia; cbn [nth candidate_C4v];
        apply scaled_within; auto; apply Hu.
    + cbn [nth candidate_C4v].
      destruct (Hu (consumed g + 5 * k)%nat). split; lra.
  - apply (run_D3h _ _ _ _ _ Hpg) in H as (k & _ & _ & _ & ->).
    split; [|split].
    + eexists. split; [reflexivity|]. apply scaled_within; auto; apply Hu.
    + intros i Hi.
      assert (i = 1 \/ i = 2 \/ i = 3)%nat as [->|[->| ->]]
        by lia; cbn [nth candidate_D3h];
        apply scaled_within; auto; apply Hu.
    + cbn [nth candidate_D3h].
      destruct (Hu (consumed g + 4 * k)%nat). split; lra.
Qed.

Lemma accepted_sample_within_ranges_witness :
  let v := [-202 # 8; 0 # 2; 0 # 2; 0 # 2; 0 # 2; 0 # 2] in
  let m := draws_per_iteration (Examples.ion "C4v" 4) in
  (exists a, nth 0 v 0 = a * (-1) /\
     bound Examples.Stevens_range 0 0 <= a
     /\ a <= bound Examples.Stevens_range 0 1) /\
  (forall i, (1 <= i < m)%nat ->
     bound Examples.Stevens_range i 0 <= nth i v 0
     /\ nth i v 0 <= bound Examples.Stevens_range i 1) /\
  (-1 <= nth m v 0 /\ nth m v 0 < 1).
Proof.
  apply (@accepted_sample_within_ranges (Examples.ion "C4v" 4)
           Examples.Stevens_range (-1) 2 Examples.rg _
           (advance Examples.rg 11)).
  - left. reflexivity.
  - reflexivity.
  - exact example_uniform.
  - exact example_ordered.
Defined.

(** A call that returns was made for one of the three point groups. *)
Lemma returns_supported self range W fuel g v g' :
  generate_random_stevens self range W fuel g = Some (Ok v, g') ->
  Self.point_group self = "Oh" \/ Self.point_group self = "C4v"
  \/ Self.point_group self = "D3h".
Proof.
  unfold generate_random_stevens.
  destruct (String.eqb_spec (Self.point_group self) "Oh"); [now left|].
  destruct (String.eqb_spec (Self.point_group self) "C4v");
    [now right; left|].
  destruct (String.eqb_spec (Self.point_group self) "D3h");
    [now right; right|].
  discriminate.
Qed.

(** What the ["Oh"] branch returns. *)
Lemma run_Oh self range W fuel g v g' :
  Self.point_group self = "Oh" ->
  generate_random_stevens self range W fuel g = Some (Ok v, g') ->
  v = [scaled range 0 (stream g (consumed g)) * W;
       scaled range 1 (stream g (consumed g + 1)%nat)] /\
  g' = advance g 2.
Proof.
  intros Hpg H. unfold generate_random_stevens in H. rewrite Hpg in H.
  cbn [String.eqb Ascii.eqb Bool.eqb] in H. injection H as H.
  apply run_bind_Ok_inv in H as (x0 & g0 & H0 & H).
  apply draw_in_Ok in H0 as [-> ->].
  apply run_bind_Ok_inv in H as (x1 & g1 & H1 & H).
  apply draw_in_Ok in H1 as [-> ->].
  unfold ret in H. injection H as <- <-.
  rewrite advance_advance. now split.
Qed.

(** The leading entry of a returned vector is a scaled draw times the sign
    selector, for each of the three point groups. *)
Lemma leading_entry self range W fuel g v g' :
  generate_random_stevens self range W fuel g = Some (Ok v, g') ->
  exists c, nth 0 v 0 = scaled range 0 (stream g c) * W.
Proof.
  intros H. destruct (returns_supported _ _ _ _ _ H) as [Hpg|[Hpg|Hpg]].
  - apply (run_Oh _ _ _ _ _ Hpg) in H as [-> _]. eexists. reflexivity.
  - apply (run_C4v _ _ _ _ _ Hpg) in H as (k & _ & _ & _ & ->).
    eexists. reflexivity.
  - apply (run_D3h _ _ _ _ _ Hpg) in H as (k & _ & _ & _ & ->).
    eexists. reflexivity.
Qed.

(** X3.  With draws in [[0, 1)] and a leading range of positive values, the
    leading entry of every returned vector has the sign of [W_sign], and its
    magnitude lies between the two bounds multiplied by [|W_sign|]. *)
Theorem leading_entry_sign self range W fuel g v g' :
  generate_random_stevens self range W fuel g = Some (Ok v, g') ->
  uniform (stream g) ->
  0 < bound range 0 0 -> ordered range 0 ->
  (0 < W -> 0 < nth 0 v 0) /\ (W < 0 -> nth 0 v 0 < 0) /\
  bound range 0 0 * Qabs W <= Qabs (nth 0 v 0) /\
  Qabs (nth 0 v 0) <= bound range 0 1 * Qabs W.
Proof.
  intros H Hu Hlo Ho. destruct (leading_entry _ _ _ _ _ H) as [c ->].
  destruct (scaled_within (i := 0%nat) (r := stream g c) Ho) as [Ha Hb];
    try apply Hu.
  set (a := scaled range 0 (stream g c)) in *.
  rewrite Qabs_Qmult. rewrite (Qabs_pos a) by lra.
  pose proof (Qabs_nonneg W).
  repeat split; try nra.
Qed.

Lemma leading_entry_sign_witness :
  let v := [-202 # 8; 0 # 2; 0 # 2; 0 # 2; 0 # 2; 0 # 2] in
  (0 < -1 -> 0 < nth 0 v 0) /\ (-1 < 0 -> nth 0 v 0 < 0) /\
  bound Examples.Stevens_range 0 0 * Qabs (-1) <= Qabs (nth 0 v 0) /\
  Qabs (nth 0 v 0) <= bound Examples.Stevens_range 0 1 * Qabs (-1).
Proof.
  apply (@leading_entry_sign (Examples.ion "C4v" 4) Examples.Stevens_range
           (-1) 2 Examples.rg _ (advance Examples.rg 11)).
  - reflexivity.
  - exact example_uniform.
  - reflexivity.
  - apply example_ordered.
Defined.

(** *** Termination of the rejection loop *)

(** X4.  For ["C4v"] and ["D3h"] and a complete range table, if the
    candidates built from the first [k] groups of draws are rejected and the
    next one is accepted, then every fuel of at least [k + 1] iterations
    makes the call return that candidate, completed by the trailing draw,
    with [draws_per_iteration * (k + 1) + 1] draws consumed. *)
Theorem enough_fuel_returns self range W fuel g k :
  Self.point_group self = "C4v" \/ Self.point_group self = "D3h" ->
  let m := draws_per_iteration self in
  (forall i, (i < m)%nat -> has_bounds range i) ->
  (forall i, (i < k)%nat ->
     rejected (candidate self range W (stream g) (consumed g + m * i) 0)
     = true) ->
  rejected (candidate self range W (stream g) (consumed g + m * k) 0)
  = false ->
  (k + 1 <= fuel)%nat ->
  generate_random_stevens self range W fuel g
  = Some (Ok (candidate self range W (stream g) (consumed g + m * k)
                (2 * stream g (consumed g + m * (k + 1)) - 1)),
          advance g (m * (k + 1) + 1)).
Proof.
  intros [Hpg|Hpg]; unfold draws_per_iteration, candidate,
    generate_random_stevens; rewrite Hpg;
    cbn [String.eqb Ascii.eqb Bool.eqb]; cbv zeta;
    intros Hb Hbefore Hacc Hfuel.
  - rewrite (@while_C4v_accepts range W Hb k fuel)
      by (assumption || reflexivity).
    cbn [after_loop]. rewrite draw_trailing_run, advance_advance.
    reflexivity.
  - rewrite (@while_D3h_accepts range W Hb k fuel)
      by (assumption || reflexivity).
    cbn [after_loop]. rewrite draw_trailing_run, advance_advance.
    reflexivity.
Qed.

Lemma enough_fuel_returns_witness :
  generate_random_stevens (Examples.ion "C4v" 4) Examples.Stevens_range (-1)
    7 Examples.rg
  = Some (Ok (candidate (Examples.ion "C4v" 4) Examples.Stevens_range (-1)
                (stream Examples.rg) (consumed Examples.rg + 5 * 1)
                (2 * stream Examples.rg (consumed Examples.rg + 5 * (1 + 1))
                 - 1)),
          advance Examples.rg (5 * (1 + 1) + 1)).
Proof.
  apply (@enough_fuel_returns (Examples.ion "C4v" 4) Examples.Stevens_range
           (-1) 7 Examples.rg 1).
  - left. reflexivity.
  - exact example_has_bounds.
  - intros i Hi. assert (i = 0%nat) as -> by lia. reflexivity.
  - reflexivity.
  - lia.
Defined.

(** A ["C4v"] loop all of whose candidates fail the test of the loop runs
    through every fuel. *)
Lemma while_C4v_rejects range W :
  (forall i, (i < 5)%nat -> has_bounds range i) ->
  forall fuel a0 a1 a2 a3 a4 a5 g,
    rejected [a0; a1; a2; a3; a4; a5] = true ->
    (forall k,
       rejected (candidate_C4v range W (stream g) (consumed g + 5 * k) a5)
       = true) ->
    while fuel rejected (body_C4v range W) [a0; a1; a2; a3; a4; a5] g = None.
Proof.
  intros Hb. induction fuel as [|fuel IH];
    intros a0 a1 a2 a3 a4 a5 g Hrej Hall; cbn [while]; rewrite Hrej;
    [reflexivity|].
  rewrite body_C4v_run by assumption.
  unfold candidate_C4v at 1. apply IH; cbn [advance stream consumed].
  - specialize (Hall 0%nat).
    now rewrite Nat.mul_0_r, Nat.add_0_r in Hall.
  - intros k. specialize (Hall (Datatypes.S k)).
    replace (consumed g + 5 + 5 * k)%nat
      with (consumed g + 5 * Datatypes.S k)%nat by lia.
    assumption.
Qed.

(** The same for the ["D3h"] loop. *)
Lemma while_D3h_rejects range W :
  (forall i, (i < 4)%nat -> has_bounds range i) ->
  forall fuel a0 a1 a2 a3 a4 g,
    rejected [a0; a1; a2; a3; a4] = true ->
    (forall k,
       rejected (candidate_D3h range W (stream g) (consumed g + 4 * k) a4)
       = true) ->
    while fuel rejected (body_D3h range W) [a0; a1; a2; a3; a4] g = None.
Proof.
  intros Hb. induction fuel as [|fuel IH];
    intros a0 a1 a2 a3 a4 g Hrej Hall; cbn [while]; rewrite Hrej;
    [reflexivity|].
  rewrite body_D3h_run by assumption.
  unfold candidate_D3h at 1. apply IH; cbn [advance stream consumed].
  - specialize (Hall 0%nat).
    now rewrite Nat.mul_0_r, Nat.add_0_r in Hall.
  - intros k. specialize (Hall (Datatypes.S k)).
    replace (consumed g + 4 + 4 * k)%nat
      with (consumed g + 4 * Datatypes.S k)%nat by lia.
    assumption.
Qed.

(** With the second row of the table at [[2, 3]] and the draws of
    [Examples.rg], every candidate fails the test of the loop, evaluated in
    float64: the first has the test value 5, the later ones 2.5. *)
Lemma example_wide_rejected k :
  rejected (candidate (Examples.ion "C4v" 4) Examples.Stevens_range_wide 1
              (stream Examples.rg) (consumed Examples.rg + 5 * k) 0) = true.
Proof.
  destruct k as [|k]; [reflexivity|].
  unfold candidate, candidate_C4v.
  cbn [Self.point_group Examples.ion String.eqb Ascii.eqb Bool.eqb
       stream consumed Examples.rg].
  repeat match goal with
         | |- context [(?n <? 5)%nat] =>
             replace (n <? 5)%nat with false
               by (symmetry; apply Nat.ltb_ge; lia)
         end.
  reflexivity.
Qed.

(** A second row above 1 does not by itself keep the loop running: with the
    row at 1 + 2^-52 and the leading entry 25.25, the sum
    [25.25 + (1 + 2^-52)] is rounded to [26.25], the test value is 1, and the
    first candidate is accepted. *)
Lemma row_above_1_can_be_accepted :
  exists v g',
    generate_random_stevens (Examples.ion "C4v" 4)
      Examples.Stevens_range_above_1 1 1 Examples.rg_absorbed
    = Some (Ok v, g')
    /\ 1 < nth 1 v 0.
Proof.
  eexists. eexists. split; [vm_compute; reflexivity|].
  vm_compute. reflexivity.
Qed.

(** X5.  The rejection loops of ["C4v"] and ["D3h"] have no bound on their
    iterations and no other way out than an accepted candidate: on a
    complete range table, if every candidate that the draws build fails the
    test of the loop, as the program evaluates it in float64, the call
    returns for no fuel at all. *)
Theorem rejection_loop_has_no_cap self range W g :
  Self.point_group self = "C4v" \/ Self.point_group self = "D3h" ->
  let m := draws_per_iteration self in
  (forall i, (i < m)%nat -> has_bounds range i) ->
  (forall k,
     rejected (candidate self range W (stream g) (consumed g + m * k) 0)
     = true) ->
  forall fuel, generate_random_stevens self range W fuel g = None.
Proof.
  intros [Hpg|Hpg]; unfold draws_per_iteration, candidate,
    generate_random_stevens; rewrite Hpg;
    cbn [String.eqb Ascii.eqb Bool.eqb]; cbv zeta;
    intros Hb Hall fuel.
  - rewrite (@while_C4v_rejects range W Hb fuel)
      by (assumption || reflexivity).
    reflexivity.
  - rewrite (@while_D3h_rejects range W Hb fuel)
      by (assumption || reflexivity).
    reflexivity.
Qed.

Lemma rejection_loop_has_no_cap_witness :
  generate_random_stevens (Examples.ion "C4v" 4)
    Examples.Stevens_range_wide 1 1000 Examples.rg = None.
Proof.
  refine (@rejection_loop_has_no_cap (Examples.ion "C4v" 4)
            Examples.Stevens_range_wide 1 Examples.rg _ _ _ 1000%nat).
  - left. reflexivity.
  - exact example_wide_has_bounds.
  - exact example_wide_rejected.
Defined.

(** *** A range table with too few rows *)

Lemma advance_zero g : advance g 0 = g.
Proof. destruct g. unfold advance. cbn. f_equal. lia. Qed.

Ltac short_table Hlen Hrows :=
  unfold Rng.bind;
  repeat (rewrite draw_in_run by (apply Hrows; lia);
          cbn [advance stream consumed]);
  rewrite draw_in_missing by (apply nth_error_None; lia);
  unfold advance; apply f_equal;
  match goal with g : Generator |- _ => destruct g end;
  cbn [stream consumed]; f_equal; lia.

Lemma body_C4v_short range W sp g :
  (length range < 5)%nat ->
  (forall i, (i < length range)%nat -> has_bounds range i) ->
  body_C4v range W sp g = (Raise IndexError, advance g (length range)).
Proof.
  intros Hlen Hrows. unfold body_C4v.
  destruct (length range) as [|[|[|[|[|k]]]]] eqn:E; try lia;
    short_table Hlen Hrows.
Qed.

Lemma body_D3h_short range W sp g :
  (length range < 4)%nat ->
  (forall i, (i < length range)%nat -> has_bounds range i) ->
  body_D3h range W sp g = (Raise IndexError, advance g (length range)).
Proof.
  intros Hlen Hrows. unfold body_D3h.
  destruct (length range) as [|[|[|[|k]]]] eqn:E; try lia;
    short_table Hlen Hrows.
Qed.

(** X6.  A range table with fewer rows than the point group reads, each row
    holding its two bounds, makes the call raise [IndexError] at the first
    missing row, after one draw for every row that exists. *)
Theorem short_range_table_raises self range W fuel g :
  Self.point_group self = "Oh"
  \/ ((Self.point_group self = "C4v" \/ Self.point_group self = "D3h")
      /\ (1 <= fuel)%nat) ->
  (length range < rows_read self)%nat ->
  (forall i, (i < length range)%nat -> has_bounds range i) ->
  generate_random_stevens self range W fuel g
  = Some (Raise IndexError, advance g (length range)).
Proof.
  intros Hpg; unfold rows_read, draws_per_iteration, generate_random_stevens.
  destruct Hpg as [Hpg|[[Hpg|Hpg] Hfuel]]; rewrite Hpg;
    cbn [String.eqb Ascii.eqb Bool.eqb]; intros Hlen Hrows.
  - f_equal.
    destruct (length range) as [|[|k]] eqn:E; try lia;
      short_table Hlen Hrows.
  - destruct fuel as [|fuel]; [lia|]. cbn [while].
    rewrite initial_C4v_rejected, body_C4v_short by assumption.
    reflexivity.
  - destruct fuel as [|fuel]; [lia|]. cbn [while].
    rewrite initial_D3h_rejected, body_D3h_short by assumption.
    reflexivity.
Qed.

Lemma short_range_table_raises_witness :
  generate_random_stevens (Examples.ion "C4v" 4) Examples.Stevens_range_short
    1 1 Examples.rg
  = Some (Raise IndexError,
          advance Examples.rg (length Examples.Stevens_range_short)).
Proof.
  apply short_range_table_raises.
  - right. split; [left; reflexivity|lia].
  - cbn. lia.
  - intros i Hi. cbn in Hi.
    destruct i as [|[|i]]; try lia; eexists; eexists; eexists; reflexivity.
Defined.

End SamplerMore.

(** ** The assembler: what is handed over, and to which function *)

Module AssemblerMore.

Import Rng Sampler SamplerSpec SamplerFacts SamplerMore.
Import Assembler AssemblerSpec AssemblerFacts.
Local Open Scope string_scope.

Lemma args_of_all (l : list Q) : args_of (length l) l = l.
Proof.
  unfold args_of. apply (nth_ext _ _ 0%Q 0%Q).
  - now rewrite length_map, length_seq.
  - intros i Hi. rewrite length_map, length_seq in Hi.
    now rewrite FloatFacts.nth_map_seq.
Qed.

Lemma by_J_supported self n f1 f2 f3 f4 f5 f6 stevens_params :
  supported_J (Self.J self) ->
  exists f, by_J self n f1 f2 f3 f4 f5 f6 stevens_params
            = Calls f (args_of n stevens_params).
Proof.
  unfold supported_J, by_J. intros H.
  repeat match goal with
  | |- context [Qeq_bool ?a ?b] =>
      let E := fresh "E" in
      destruct (Qeq_bool a b) eqn:E; [eexists; reflexivity|]
  end.
  exfalso.
  repeat match goal with
  | E : Qeq_bool _ _ = false |- _ => apply Qeq_bool_neq in E
  end.
  tauto.
Qed.

Lemma ham_cr_calls self stevens_params :
  supported self ->
  length stevens_params = expected_count self ->
  supported_J (Self.J self) ->
  exists f, ham_cr self stevens_params = Calls f stevens_params.
Proof.
  unfold supported, expected_count, ham_cr.
  intros [Hpg|[Hpg|Hpg]] Hlen HJ; rewrite Hpg in *;
    cbn [String.eqb Ascii.eqb Bool.eqb] in *;
    rewrite Hlen; cbn [Nat.eqb negb];
    match goal with
    | |- context [by_J self ?n ?f1 ?f2 ?f3 ?f4 ?f5 ?f6 stevens_params] =>
        destruct (@by_J_supported self n f1 f2 f3 f4 f5 f6 stevens_params HJ)
          as [f Hf]
    end;
    rewrite Hf, <- Hlen, args_of_all; now exists f.
Qed.

Lemma ham_cr_None self stevens_params :
  supported self ->
  length stevens_params = expected_count self ->
  ~ supported_J (Self.J self) ->
  ham_cr self stevens_params = ReturnsNone.
Proof.
  unfold supported, expected_count, ham_cr.
  intros [Hpg|[Hpg|Hpg]] Hlen HJ; rewrite Hpg in *;
    cbn [String.eqb Ascii.eqb Bool.eqb] in *;
    rewrite Hlen; cbn [Nat.eqb negb]; now apply by_J_unsupported.
Qed.

Lemma supported_J_dec (J : Q) : supported_J J \/ ~ supported_J J.
Proof.
  unfold supported_J.
  destruct (Qeq_dec J (7 # 2)); [tauto|].
  destruct (Qeq_dec J 4); [tauto|].
  destruct (Qeq_dec J (9 # 2)); [tauto|].
  destruct (Qeq_dec J 6); [tauto|].
  destruct (Qeq_dec J (15 # 2)); [tauto|].
  destruct (Qeq_dec J 8); tauto.
Qed.

(** X7.  For a supported point group, a parameter vector of the expected
    length and a supported J, [ham_cr] hands over to a function of the
    imported module, and the arguments it passes are the entries of the
    parameter vector, all of them, unchanged and in order. *)
Theorem hands_over_the_parameters self stevens_params :
  supported self ->
  length stevens_params = expected_count self ->
  supported_J (Self.J self) ->
  exists f, ham_cr self stevens_params = Calls f stevens_params.
Proof. exact (@ham_cr_calls self stevens_params). Qed.

Lemma hands_over_the_parameters_witness :
  exists f,
    ham_cr (Examples.ion "D3h" (15 # 2)) [1; 0; 0; 0; 1]%Q
    = Calls f [1; 0; 0; 0; 1]%Q.
Proof.
  apply hands_over_the_parameters.
  - right. right. reflexivity.
  - reflexivity.
  - unfold supported_J. cbn [Self.J Examples.ion].
    right. right. right. right. left. reflexivity.
Defined.

(** X8.  For a point group that is not supported, [ham_cr] raises the "not
    implemented" [ValueError] whatever the parameter vector and J are: the
    length of the vector is not looked at. *)
Theorem unsupported_point_group_not_assembled self stevens_params :
  ~ supported self ->
  ham_cr self stevens_params
  = Raises (ValueError
      "This point group and/or value of J is not implemented.").
Proof.
  unfold supported, ham_cr. intros H.
  destruct (String.eqb_spec (Self.point_group self) "Oh"); [tauto|].
  destruct (String.eqb_spec (Self.point_group self) "C4v"); [tauto|].
  destruct (String.eqb_spec (Self.point_group self) "D3h"); [tauto|].
  reflexivity.
Qed.

Lemma unsupported_point_group_not_assembled_witness :
  ham_cr (Examples.ion "Td" 4) []
  = Raises (ValueError
      "This point group and/or value of J is not implemented.").
Proof.
  apply unsupported_point_group_not_assembled.
  unfold supported. cbn [Self.point_group Examples.ion].
  intros [H|[H|H]]; discriminate H.
Defined.

Lemma by_J_named self n pg f1 f2 f3 f4 f5 f6 stevens_params f a :
  named_for f1 = (pg, 4%Q) -> named_for f2 = (pg, (15 # 2)%Q) ->
  named_for f3 = (pg, (7 # 2)%Q) -> named_for f4 = (pg, 6%Q) ->
  named_for f5 = (pg, 8%Q) -> named_for f6 = (pg, (9 # 2)%Q) ->
  by_J self n f1 f2 f3 f4 f5 f6 stevens_params = Calls f a ->
  fst (named_for f) = pg /\ (Self.J self == snd (named_for f))%Q.
Proof.
  unfold by_J. intros N1 N2 N3 N4 N5 N6.
  repeat match goal with
  | |- context [Qeq_bool ?x ?y] =>
      let E := fresh "E" in
      destruct (Qeq_bool x y) eqn:E;
      [apply Qeq_bool_iff in E; intros H; injection H as <- _;
       rewrite ?N1, ?N2, ?N3, ?N4, ?N5, ?N6; now split|]
  end.
  discriminate.
Qed.

(** X9.  Whenever [ham_cr] hands over to a function of the imported module,
    it is the function named after the point group and the J of the object:
    none of the eighteen branches calls the function of another
    combination. *)
Theorem calls_the_function_named_for_the_object self stevens_params f a :
  ham_cr self stevens_params = Calls f a ->
  fst (named_for f) = Self.point_group self /\
  (Self.J self == snd (named_for f))%Q.
Proof.
  unfold ham_cr.
  destruct (String.eqb_spec (Self.point_group self) "Oh") as [->|_].
  { destruct (negb _); [discriminate|]. now apply by_J_named. }
  destruct (String.eqb_spec (Self.point_group self) "C4v") as [->|_].
  { destruct (negb _); [discriminate|]. now apply by_J_named. }
  destruct (String.eqb_spec (Self.point_group self) "D3h") as [->|_].
  { destruct (negb _); [discriminate|]. now apply by_J_named. }
  discriminate.
Qed.

Lemma calls_the_function_named_for_the_object_witness :
  fst (named_for ham_cr_PG_D3h_J_7_5)
  = Self.point_group (Examples.ion "D3h" (15 # 2)) /\
  (Self.J (Examples.ion "D3h" (15 # 2))
   == snd (named_for ham_cr_PG_D3h_J_7_5))%Q.
Proof.
  apply (@calls_the_function_named_for_the_object
           (Examples.ion "D3h" (15 # 2)) [1; 0; 0; 0; 1]%Q
           ham_cr_PG_D3h_J_7_5 [1; 0; 0; 0; 1]%Q).
  reflexivity.
Defined.

(** The vector that the sampler returns has the length of its point group. *)
Lemma sampled_length self range W fuel g v g' :
  generate_random_stevens self range W fuel g = Some (Ok v, g') ->
  supported self /\ length v = expected_count self.
Proof.
  intros H. unfold supported, expected_count.
  destruct (returns_supported _ _ _ _ _ H) as [Hpg|[Hpg|Hpg]].
  - apply (run_Oh _ _ _ _ _ Hpg) in H as [-> _].
    rewrite Hpg. split; [now left|reflexivity].
  - apply (run_C4v _ _ _ _ _ Hpg) in H as (k & _ & _ & _ & ->).
    rewrite Hpg. split; [now right; left|reflexivity].
  - apply (run_D3h _ _ _ _ _ Hpg) in H as (k & _ & _ & _ & ->).
    rewrite Hpg. split; [now right; right|reflexivity].
Qed.

(** X10.  A parameter vector returned by [generate_random_stevens] is
    accepted by [ham_cr] of the same object: [ham_cr] raises nothing on it;
    it hands the whole vector over when J is supported and returns [None]
    otherwise. *)
Theorem sampled_parameters_are_accepted self range W fuel g v g' :
  generate_random_stevens self range W fuel g = Some (Ok v, g') ->
  (forall e, ham_cr self v <> Raises e) /\
  (supported_J (Self.J self) -> exists f, ham_cr self v = Calls f v) /\
  (~ supported_J (Self.J self) -> ham_cr self v = ReturnsNone).
Proof.
  intros H. destruct (sampled_length _ _ _ _ _ H) as [Hs Hlen].
  assert (Hcalls : supported_J (Self.J self) ->
                   exists f, ham_cr self v = Calls f v)
    by (intros HJ; now apply ham_cr_calls).
  assert (Hnone : ~ supported_J (Self.J self) -> ham_cr self v = ReturnsNone)
    by (intros HJ; now apply ham_cr_None).
  split; [|now split].
  intros e He.
  destruct (supported_J_dec (Self.J self)) as [HJ|HJ].
  - destruct (Hcalls HJ) as [f Hf]. congruence.
  - rewrite (Hnone HJ) in He. discriminate.
Qed.

Lemma sampled_parameters_are_accepted_witness :
  let v := [-202 # 8; 0 # 2; 0 # 2; 0 # 2; 0 # 2; 0 # 2]%Q in
  (forall e, ham_cr (Examples.ion "C4v" 4) v <> Raises e) /\
  (supported_J (Self.J (Examples.ion "C4v" 4)) ->
   exists f, ham_cr (Examples.ion "C4v" 4) v = Calls f v) /\
  (~ supported_J (Self.J (Examples.ion "C4v" 4)) ->
   ham_cr (Examples.ion "C4v" 4) v = ReturnsNone).
Proof.
  apply (@sampled_parameters_are_accepted (Examples.ion "C4v" 4)
           Examples.Stevens_range (-1) 2 Examples.rg _
           (advance Examples.rg 11)).
  reflexivity.
Defined.

End AssemblerMore.

(** ** The operator builder: Hermitian matrices, the Casimir operator *)

Module OperatorMore.

Import Np Operators OperatorSpec ThermalSpec FloatFacts OperatorFacts.
Local Open Scope R_scope.

Lemma Rsum_plus (A : Type) (f g : A -> R) (l : list A) :
  Rsum (map f l) + Rsum (map g l) = Rsum (map (fun a => f a + g a) l).
Proof.
  induction l as [|x l IH]; cbn [map Rsum fold_right]; [lra|].
  fold (Rsum (map f l)) (Rsum (map g l)) (Rsum (map (fun a => f a + g a) l)).
  rewrite <- IH. lra.
Qed.

(** [J-] is the transpose of [J+]. *)
Lemma Jminus_is_transpose (n i j : nat) :
  Jminus_entry n i j = Jplus_entry n j i.
Proof. reflexivity. Qed.

Lemma Jx_entry_hermitian (n i j : nat) :
  Jx_entry n i j = Cx.conj (Jx_entry n j i).
Proof.
  unfold Jx_entry, Cx.conj. cbn [fst snd]. rewrite !Jminus_is_transpose.
  apply pair_eq; lra.
Qed.

Lemma Jy_entry_hermitian (n i j : nat) :
  Jy_entry n i j = Cx.conj (Jy_entry n j i).
Proof.
  unfold Jy_entry, Cx.conj. cbn [fst snd]. rewrite !Jminus_is_transpose.
  apply pair_eq; lra.
Qed.

Lemma Jz_entry_symmetric (n i j : nat) : Jz_entry n i j = Jz_entry n j i.
Proof.
  unfold Jz_entry.
  destruct (Nat.eqb_spec i j), (Nat.eqb_spec j i); subst; try lia;
    reflexivity.
Qed.

(** X11.  For every J = n/2 the three operators that the builder returns
    are Hermitian: each equals its own conjugate transpose. *)
Theorem operators_are_hermitian (self : Self.training_data) (n : nat) :
  half_integer (Self.J self) n ->
  exists jx jy,
    Jx_op self = Ok jx /\ Jy_op self = Ok jy /\
    hermitian (Datatypes.S n) (value jx) /\
    hermitian (Datatypes.S n) (value jy) /\
    hermitian (Datatypes.S n) (value (Jz_op self)).
Proof.
  intros HJ.
  destruct (Jx_closed self HJ) as (jx & Hjx & _ & _ & Hx).
  destruct (Jy_closed self HJ) as (jy & Hjy & _ & _ & Hy).
  pose proof (Jz_closed self HJ) as Hz.
  exists jx, jy. split; [assumption|]. split; [assumption|].
  repeat split; intros i j Hi Hj; unfold value.
  - rewrite !Hx by assumption. apply Jx_entry_hermitian.
  - rewrite !Hy by assumption. apply Jy_entry_hermitian.
  - rewrite !Hz by assumption. rewrite (Jz_entry_symmetric n i j).
    unfold Cx.conj, Cx.of_R. cbn [fst snd]. apply pair_eq; lra.
Qed.

Lemma operators_are_hermitian_witness :
  exists jx jy,
    Jx_op (Examples.ion "Oh" (7 # 2)) = Ok jx /\
    Jy_op (Examples.ion "Oh" (7 # 2)) = Ok jy /\
    hermitian 8 (value jx) /\ hermitian 8 (value jy) /\
    hermitian 8 (value (Jz_op (Examples.ion "Oh" (7 # 2)))).
Proof.
  apply (@operators_are_hermitian (Examples.ion "Oh" (7 # 2)) 7).
  reflexivity.
Defined.

(** The diagonal of [Jz Jz]. *)
Lemma sum_z_z (n i j : nat) :
  (i < Datatypes.S n)%nat -> (j < Datatypes.S n)%nat ->
  Rsum (map (fun k => Jz_entry n i k * Jz_entry n k j)
            (seq 0 (Datatypes.S n)))
  = if (i =? j)%nat then (INR i - INR n / 2) * (INR i - INR n / 2) else 0.
Proof.
  intros Hi Hj.
  rewrite (Rsum_ext _
    (fun k => if (k =? i)%nat
              then (INR k - INR n / 2) * Jz_entry n k j else 0)).
  - rewrite (Rsum_single
      (fun k => (INR k - INR n / 2) * Jz_entry n k j)) by assumption.
    unfold Jz_entry. destruct (i =? j)%nat; ring.
  - intros k _. unfold Jz_entry.
    destruct (Nat.eqb_spec i k), (Nat.eqb_spec k i); subst; try lia; ring.
Qed.

(** The closed forms satisfy [Jx^2 + Jy^2 + Jz^2 = (n/2)(n/2 + 1) I]. *)
Lemma casimir_closed (n i j : nat) :
  (i < Datatypes.S n)%nat -> (j < Datatypes.S n)%nat ->
  Cx.add
    (Cx.add (mmul (Datatypes.S n) (Jx_entry n) (Jx_entry n) i j)
            (mmul (Datatypes.S n) (Jy_entry n) (Jy_entry n) i j))
    (mmul (Datatypes.S n) (fun i j => Cx.of_R (Jz_entry n i j))
          (fun i j => Cx.of_R (Jz_entry n i j)) i j)
  = scalar_matrix (INR n / 2 * (INR n / 2 + 1)) i j.
Proof.
  intros Hi Hj. unfold mmul. rewrite !Csum_components.
  unfold Cx.add, Cx.mul, Cx.of_R, scalar_matrix. cbn [fst snd].
  apply pair_eq.
  - rewrite Rsum_plus.
    rewrite (Rsum_ext _
      (fun k => (Jplus_entry n i k * Jminus_entry n k j
                 + Jminus_entry n i k * Jplus_entry n k j) * / 2))
      by (intros k _; unfold Jx_entry, Jy_entry; cbn [fst snd]; field).
    rewrite (Rsum_scale
      (fun k => Jplus_entry n i k * Jminus_entry n k j
                + Jminus_entry n i k * Jplus_entry n k j)).
    rewrite <- Rsum_plus, sum_plus_minus, sum_minus_plus by assumption.
    rewrite (Rsum_ext
      (fun k => Jz_entry n i k * Jz_entry n k j - 0 * 0)
      (fun k => Jz_entry n i k * Jz_entry n k j))
      by (intros; ring).
    rewrite sum_z_z by assumption.
    destruct (i =? j)%nat; field.
  - rewrite !Rsum_zero; [lra| | |];
      intros k _; unfold Jx_entry, Jy_entry; cbn [fst snd]; ring.
Qed.

(** X12.  For every J = n/2 the operators satisfy
    [Jx Jx + Jy Jy + Jz Jz = J (J + 1) I]: the total angular momentum
    squared is the multiple [J (J + 1)] of the identity. *)
Theorem total_angular_momentum_squared (self : Self.training_data)
    (n : nat) :
  half_integer (Self.J self) n ->
  exists jx jy,
    Jx_op self = Ok jx /\ Jy_op self = Ok jy /\
    let jz := Jz_op self in
    let N := Datatypes.S n in
    forall i j, (i < N)%nat -> (j < N)%nat ->
      Cx.add (Cx.add (mmul N (value jx) (value jx) i j)
                     (mmul N (value jy) (value jy) i j))
             (mmul N (value jz) (value jz) i j)
      = scalar_matrix (Q2R (Self.J self) * (Q2R (Self.J self) + 1)) i j.
Proof.
  intros HJ.
  destruct (Jx_closed self HJ) as (jx & Hjx & _ & _ & Hx).
  destruct (Jy_closed self HJ) as (jy & Hjy & _ & _ & Hy).
  pose proof (Jz_closed self HJ) as Hz.
  exists jx, jy. split; [assumption|]. split; [assumption|]. cbv zeta.
  intros i j Hi Hj.
  rewrite (@mmul_ext _ (value jx) (Jx_entry n) (value jx) (Jx_entry n)),
    (@mmul_ext _ (value jy) (Jy_entry n) (value jy) (Jy_entry n)),
    (@mmul_ext _ (value (Jz_op self)) (fun i j => Cx.of_R (Jz_entry n i j))
       (value (Jz_op self)) (fun i j => Cx.of_R (Jz_entry n i j)))
    by (intros k Hk; unfold value; rewrite ?Hx, ?Hy, ?Hz by assumption;
        reflexivity).
  rewrite (half_integer_Q2R HJ). now apply casimir_closed.
Qed.

Lemma total_angular_momentum_squared_witness :
  exists jx jy,
    Jx_op (Examples.ion "Oh" (7 # 2)) = Ok jx /\
    Jy_op (Examples.ion "Oh" (7 # 2)) = Ok jy /\
    let jz := Jz_op (Examples.ion "Oh" (7 # 2)) in
    let N := 8%nat in
    forall i j, (i < N)%nat -> (j < N)%nat ->
      Cx.add (Cx.add (mmul N (value jx) (value jx) i j)
                     (mmul N (value jy) (value jy) i j))
             (mmul N (value jz) (value jz) i j)
      = scalar_matrix (Q2R (7 # 2) * (Q2R (7 # 2) + 1)) i j.
Proof.
  apply (@total_angular_momentum_squared (Examples.ion "Oh" (7 # 2)) 7).
  reflexivity.
Defined.

(** X13.  For every J = n/2 the raising and lowering operators are
    recovered from the two components: [Jx + i Jy = J+] and
    [Jx - i Jy = J-], entry by entry, and all entries of the two ladder
    operators are finite. *)
Theorem ladder_operators_recovered (self : Self.training_data) (n : nat) :
  half_integer (Self.J self) n ->
  exists jx jy,
    Jx_op self = Ok jx /\ Jy_op self = Ok jy /\
    let N := Datatypes.S n in
    finite_square N (Jplus_op self) /\ finite_square N (Jminus_op self) /\
    forall i j, (i < N)%nat -> (j < N)%nat ->
      Cx.add (value jx i j) (Cx.mul Cx.j (value jy i j))
      = value (Jplus_op self) i j /\
      Cx.sub (value jx i j) (Cx.mul Cx.j (value jy i j))
      = value (Jminus_op self) i j.
Proof.
  intros HJ.
  destruct (Jx_closed self HJ) as (jx & Hjx & _ & _ & Hx).
  destruct (Jy_closed self HJ) as (jy & Hjy & _ & _ & Hy).
  destruct (Jplus_shape self HJ) as [Hpr Hpc].
  destruct (Jminus_shape self HJ) as [Hmr Hmc].
  pose proof (Jplus_closed self HJ) as Hp.
  pose proof (Jminus_closed self HJ) as Hm.
  exists jx, jy. split; [assumption|]. split; [assumption|]. cbv zeta.
  split; [|split].
  - split; [assumption|]. split; [assumption|].
    intros i j Hi Hj. rewrite Hp by assumption. discriminate.
  - split; [assumption|]. split; [assumption|].
    intros i j Hi Hj. rewrite Hm by assumption. discriminate.
  - intros i j Hi Hj. unfold value.
    rewrite Hx, Hy, Hp, Hm by assumption.
    unfold Jx_entry, Jy_entry, Cx.add, Cx.sub, Cx.mul, Cx.j, Cx.of_R.
    cbn [fst snd]. split; apply pair_eq; lra.
Qed.

Lemma ladder_operators_recovered_witness :
  exists jx jy,
    Jx_op (Examples.ion "Oh" (7 # 2)) = Ok jx /\
    Jy_op (Examples.ion "Oh" (7 # 2)) = Ok jy /\
    let N := 8%nat in
    finite_square N (Jplus_op (Examples.ion "Oh" (7 # 2))) /\
    finite_square N (Jminus_op (Examples.ion "Oh" (7 # 2))) /\
    forall i j, (i < N)%nat -> (j < N)%nat ->
      Cx.add (value jx i j) (Cx.mul Cx.j (value jy i j))
      = value (Jplus_op (Examples.ion "Oh" (7 # 2))) i j /\
      Cx.sub (value jx i j) (Cx.mul Cx.j (value jy i j))
      = value (Jminus_op (Examples.ion "Oh" (7 # 2))) i j.
Proof.
  apply (@ladder_operators_recovered (Examples.ion "Oh" (7 # 2)) 7).
  reflexivity.
Defined.

(** *** The g factor *)

Lemma product_zero (J : Q) :
  (2 * J * (J + 1) == 0 <-> J == 0 \/ J == -1)%Q.
Proof.
  split.
  - intros H. destruct (Qeq_dec J 0) as [H0|H0]; [now left|right].
    destruct (Qeq_dec (J + 1) 0) as [H1|H1]; [lra|].
    exfalso. apply Qmult_integral in H as [H|H]; [|contradiction].
    apply Qmult_integral in H as [H|H]; [discriminate H|contradiction].
  - intros [H|H]; rewrite H; reflexivity.
Qed.

(** X14.  [gJLS] raises exactly when J is 0 or -1, the two values at which
    [2J(J+1)] vanishes, and what it raises is [ZeroDivisionError]; for every
    other J it returns. *)
Theorem gJLS_raises_exactly_at_0_and_minus_1 (self : Self.training_data) :
  (gJLS self = Raise ZeroDivisionError
   <-> (Self.J self == 0 \/ Self.J self == -1)%Q) /\
  ((exists g, gJLS self = Ok g)
   <-> ~ (Self.J self == 0 \/ Self.J self == -1)%Q).
Proof.
  unfold gJLS.
  destruct (Qeq_bool (2 * Self.J self * (Self.J self + 1)) 0) eqn:E.
  - apply Qeq_bool_iff, product_zero in E. split; split; try tauto.
    + intros [g Hg]. discriminate Hg.
  - apply Qeq_bool_neq in E. rewrite product_zero in E.
    split; split; try tauto.
    + discriminate.
    + intros _. eexists. reflexivity.
Qed.

Lemma gJLS_raises_exactly_at_0_and_minus_1_witness :
  gJLS (Examples.ion "Oh" 0) = Raise ZeroDivisionError.
Proof.
  apply (gJLS_raises_exactly_at_0_and_minus_1 (Examples.ion "Oh" 0)).
  left. reflexivity.
Defined.

(** X15.  Where [gJLS] returns, it returns 1 for a pure orbital moment
    (S = 0 and L = J) and 2 for a pure spin moment (L = 0 and S = J). *)
Theorem gJLS_pure_orbital_and_pure_spin (self : Self.training_data) (g : Q) :
  gJLS self = Ok g ->
  ((Self.S self == 0 -> Self.L self == Self.J self -> g == 1) /\
   (Self.L self == 0 -> Self.S self == Self.J self -> g == 2))%Q.
Proof.
  unfold gJLS.
  destruct (Qeq_bool (2 * Self.J self * (Self.J self + 1)) 0) eqn:E;
    [discriminate|].
  apply Qeq_bool_neq in E. intros H. injection H as <-.
  assert (H0 : ~ (Self.J self == 0)%Q)
    by (intros H; apply E; rewrite H; reflexivity).
  assert (H1 : ~ (Self.J self + 1 == 0)%Q)
    by (intros H; apply E; rewrite H; ring).
  split; intros Ha Hb; rewrite Ha, Hb; field; split; assumption.
Qed.

Lemma gJLS_pure_orbital_and_pure_spin_witness :
  let g := (1 + (3 * (3 + 1) + 0 * (0 + 1) - 3 * (3 + 1))
                / (2 * 3 * (3 + 1)))%Q in
  ((Self.S Examples.orbital_ion == 0 ->
    Self.L Examples.orbital_ion == Self.J Examples.orbital_ion -> g == 1) /\
   (Self.L Examples.orbital_ion == 0 ->
    Self.S Examples.orbital_ion == Self.J Examples.orbital_ion -> g == 2))%Q.
Proof.
  apply (@gJLS_pure_orbital_and_pure_spin Examples.orbital_ion).
  reflexivity.
Defined.

End OperatorMore.

(** ** Specific heat: stability, sign and reference energy *)

Module SpecificHeatMore.

Import Np Thermal ThermalSpec FloatFacts SpecificHeatFacts OperatorFacts
  OperatorMore PyFacts.
Local Open Scope R_scope.

Lemma Rsum_nonneg (A : Type) (f : A -> R) (l : list A) :
  (forall a, In a l -> 0 <= f a) -> 0 <= Rsum (map f l).
Proof.
  induction l as [|x l IH]; intros H; cbn [map Rsum fold_right]; [lra|].
  fold (Rsum (map f l)).
  assert (0 <= f x) by (apply H; now left).
  assert (0 <= Rsum (map f l)) by (apply IH; intros a Ha; apply H; now right).
  lra.
Qed.

Lemma Rsum_le (A : Type) (f g : A -> R) (l : list A) :
  (forall a, In a l -> f a <= g a) -> Rsum (map f l) <= Rsum (map g l).
Proof.
  induction l as [|x l IH]; intros H; cbn [map Rsum fold_right]; [lra|].
  fold (Rsum (map f l)) (Rsum (map g l)).
  assert (f x <= g x) by (apply H; now left).
  assert (Rsum (map f l) <= Rsum (map g l))
    by (apply IH; intros a Ha; apply H; now right).
  lra.
Qed.

Lemma Rsum_const (A : Type) (c : R) (l : list A) :
  Rsum (map (fun _ => c) l) = INR (length l) * c.
Proof.
  induction l as [|x l IH]; [cbn; lra|].
  cbn [map Rsum fold_right]. fold (Rsum (map (fun _ : A => c) l)).
  rewrite IH. change (length (x :: l)) with (Datatypes.S (length l)).
  rewrite S_INR. ring.
Qed.

(** The weights of a non-empty spectrum sum to 1. *)
Lemma weights_sum_to_1 (E : list R) (T : R) :
  E <> [] -> Rsum (map (weight E T) E) = 1.
Proof.
  intros HE. pose proof (partition_pos T HE) as HZ. unfold weight.
  rewrite (Rsum_ext _ (fun e => exp (- e / T) * / partition E T))
    by (intros; reflexivity).
  rewrite (Rsum_scale (fun e => exp (- e / T))).
  fold (partition E T). field. lra.
Qed.

Lemma weight_pos (E : list R) (T e : R) : E <> [] -> 0 < weight E T e.
Proof.
  intros HE. unfold weight. apply Rdiv_lt_0_compat.
  - apply exp_pos.
  - now apply partition_pos.
Qed.

(** A weighted average is linear. *)
Lemma average_linear (E : list R) (T a b c : R) (f g : R -> R) :
  E <> [] ->
  average E T (fun e => a * f e + b * g e + c)
  = a * average E T f + b * average E T g + c.
Proof.
  intros HE. unfold average.
  rewrite (Rsum_ext _
    (fun e => (f e * weight E T e * a + g e * weight E T e * b)
              + weight E T e * c)) by (intros; ring).
  rewrite <- Rsum_plus, <- Rsum_plus.
  rewrite (Rsum_scale (fun e => f e * weight E T e)),
    (Rsum_scale (fun e => g e * weight E T e)),
    (Rsum_scale (weight E T)), weights_sum_to_1 by assumption.
  ring.
Qed.

(** The bracket of [cV] is the variance of the energy. *)
Lemma cV_formula_variance (E : list R) (T : R) :
  E <> [] -> cV_formula E T = 1 / T ^ 2 * energy_variance E T.
Proof.
  intros HE. unfold cV_formula, energy_variance.
  set (mu := mean_energy E T).
  assert (H : average E T (fun e => (e - mu) ^ 2)
              = average E T (fun e => 1 * e ^ 2 + (- 2 * mu) * e + mu ^ 2))
    by (unfold average; apply Rsum_ext; intros; ring).
  rewrite H.
  rewrite (average_linear T 1 (- 2 * mu) (mu ^ 2) (fun e => e ^ 2)
             (fun e => e) HE).
  fold (mean_energy E T). fold mu. ring.
Qed.

(** What [specific_heat] has computed when it returns. *)
Lemma specific_heat_inv (eigvalsh : ndarray -> result (list R))
    (ham : ndarray) (T_min T_max : R) (T_steps : Z)
    (curve : list (R * Float.float)) :
  specific_heat eigvalsh ham T_min T_max T_steps = Ok curve ->
  exists grid e0 l,
    linspace T_min T_max T_steps = Ok grid /\
    eigvalsh ham = Ok (e0 :: l) /\
    curve = map (fun Ti => (Ti, cV (map (fun e => e - e0) (e0 :: l)) Ti))
                grid.
Proof.
  unfold specific_heat. intros H.
  apply bind_Ok_inv in H as (grid & Hg & H).
  apply bind_Ok_inv in H as (E & HE & H).
  apply bind_Ok_inv in H as (e0 & He0 & H).
  destruct E as [|e E]; [discriminate He0|].
  cbn [item nth_error] in He0. injection He0 as ->. injection H as <-.
  now exists grid, e0, E.
Qed.

Lemma exp_le_1 (x : R) : x <= 0 -> exp x <= 1.
Proof.
  intros [Hx| ->].
  - rewrite <- exp_0. left. now apply exp_increasing.
  - rewrite exp_0. lra.
Qed.

(** X16.  After the shift by the first eigenvalue of an ascending spectrum,
    at a positive temperature every Boltzmann factor lies in (0, 1] and the
    partition function is finite and lies between 1 and the number of
    levels: the exponentials cannot overflow. *)
Theorem partition_function_between_1_and_N (e0 : R) (l : list R) (T : R) :
  Sorted Rle (e0 :: l) -> 0 < T ->
  let energies := map (fun e => e - e0) (e0 :: l) in
  exists ws z,
    boltzmann energies T = map Some ws /\
    Forall (fun w => 0 < w /\ w <= 1) ws /\
    Z_cr energies T = Some z /\
    1 <= z /\ z <= INR (length (e0 :: l)).
Proof.
  intros Hs HT energies.
  pose proof (sorted_head_least Hs) as Hleast.
  assert (Hnn : forall e, In e energies -> 0 <= e).
  { intros e He. unfold energies in He. apply in_map_iff in He.
    destruct He as (x & <- & [<-|Hx]); [lra|].
    rewrite Forall_forall in Hleast. specialize (Hleast x Hx). lra. }
  assert (Hw : forall e, In e energies ->
                 0 < exp (- e / T) /\ exp (- e / T) <= 1).
  { intros e He. split; [apply exp_pos|]. apply exp_le_1.
    specialize (Hnn e He).
    assert (0 <= e / T) by (apply Rmult_le_pos; [lra|];
                            left; now apply Rinv_0_lt_compat).
    unfold Rdiv in *. lra. }
  exists (map (fun e => exp (- e / T)) energies), (partition energies T).
  split; [|split; [|split; [|split]]].
  - unfold boltzmann. rewrite map_map. apply map_ext.
    intros e. apply boltzmann_term. lra.
  - apply Forall_forall. intros w Hin. apply in_map_iff in Hin.
    destruct Hin as (e & <- & He). now apply Hw.
  - apply Z_cr_finite. lra.
  - unfold partition, energies. cbn [map Rsum fold_right].
    fold (Rsum (map (fun e => exp (- e / T)) (map (fun e => e - e0) l))).
    replace (- (e0 - e0) / T) with 0 by (field; lra). rewrite exp_0.
    assert (0 <= Rsum (map (fun e => exp (- e / T))
                           (map (fun e => e - e0) l)))
      by (apply Rsum_nonneg; intros; left; apply exp_pos).
    lra.
  - unfold partition.
    replace (length (e0 :: l)) with (length energies)
      by (unfold energies; apply length_map).
    rewrite <- (Rmult_1_r (INR (length energies))), <- Rsum_const.
    apply Rsum_le. intros e He. now apply Hw.
Qed.

Lemma partition_function_between_1_and_N_witness :
  let energies := map (fun e => e - 1) [1; 3] in
  exists ws z,
    boltzmann energies 2 = map Some ws /\
    Forall (fun w => 0 < w /\ w <= 1) ws /\
    Z_cr energies 2 = Some z /\
    1 <= z /\ z <= INR (length [1; 3]).
Proof.
  apply partition_function_between_1_and_N.
  - repeat constructor. lra.
  - lra.
Defined.

Lemma variance_nonneg (E : list R) (T : R) :
  E <> [] -> 0 <= energy_variance E T.
Proof.
  intros HE. unfold energy_variance, average. apply Rsum_nonneg.
  intros e _. pose proof (weight_pos T e HE).
  pose proof (pow2_ge_0 (e - mean_energy E T)). nra.
Qed.

Lemma cV_formula_nonneg (E : list R) (T : R) :
  E <> [] -> T <> 0 -> 0 <= cV_formula E T.
Proof.
  intros HE HT. rewrite cV_formula_variance by assumption.
  pose proof (variance_nonneg T HE).
  assert (0 < 1 / T ^ 2).
  { apply Rdiv_lt_0_compat; [lra|].
    assert (0 <= T ^ 2) by apply pow2_ge_0.
    assert (T ^ 2 <> 0) by (apply pow_nonzero; assumption). lra. }
  nra.
Qed.

(** X17.  Every value of a curve that [specific_heat] returns at a non-zero
    temperature is finite and not negative. *)
Theorem specific_heat_is_not_negative
    (eigvalsh : ndarray -> result (list R)) (ham : ndarray)
    (T_min T_max : R) (T_steps : Z) (curve : list (R * Float.float))
    (T : R) (v : Float.float) :
  specific_heat eigvalsh ham T_min T_max T_steps = Ok curve ->
  In (T, v) curve -> T <> 0 ->
  exists c, v = Some c /\ 0 <= c.
Proof.
  intros H Hin HT.
  apply specific_heat_inv in H as (grid & e0 & l & _ & _ & ->).
  apply in_map_iff in Hin as (Ti & Heq & _). injection Heq as -> <-.
  rewrite cV_finite by (assumption || discriminate).
  eexists. split; [reflexivity|].
  apply cV_formula_nonneg; [discriminate|assumption].
Qed.

Lemma specific_heat_is_not_negative_witness :
  exists curve T v c,
    specific_heat Examples.eigvalsh_diagonal Examples.two_levels 2 2 1
    = Ok curve /\
    In (T, v) curve /\ T <> 0 /\ v = Some c /\ 0 <= c.
Proof.
  set (curve := [(2, cV (map (fun e => e - 1) [1; 3]) 2)]).
  assert (Hc : specific_heat Examples.eigvalsh_diagonal Examples.two_levels
                 2 2 1 = Ok curve) by reflexivity.
  assert (Hin : In (2, cV (map (fun e => e - 1) [1; 3]) 2) curve)
    by (now left).
  assert (HT : 2 <> 0) by lra.
  destruct (@specific_heat_is_not_negative Examples.eigvalsh_diagonal
              Examples.two_levels 2 2 1 curve 2 _ Hc Hin HT)
    as (c & Hv & Hpos).
  exists curve, 2, (cV (map (fun e => e - 1) [1; 3]) 2), c.
  repeat split; assumption.
Defined.

(** The weights and the averages after a shift of the spectrum. *)
Lemma partition_shift (E : list R) (T c : R) :
  T <> 0 ->
  partition (map (fun e => e - c) E) T = partition E T * exp (c / T).
Proof.
  intros HT. unfold partition. rewrite map_map.
  rewrite (Rsum_ext _ (fun e => exp (- e / T) * exp (c / T))).
  - now rewrite (Rsum_scale (fun e => exp (- e / T))).
  - intros e _. rewrite <- exp_plus. f_equal. now field.
Qed.

Lemma weight_shift (E : list R) (T c e : R) :
  E <> [] -> T <> 0 ->
  weight (map (fun e => e - c) E) T (e - c) = weight E T e.
Proof.
  intros HE HT. unfold weight. rewrite partition_shift by assumption.
  replace (- (e - c) / T) with (- e / T + c / T) by (now field).
  rewrite exp_plus. pose proof (partition_pos T HE).
  pose proof (exp_pos (c / T)). field. split; lra.
Qed.

Lemma average_shift (E : list R) (T c : R) (f : R -> R) :
  E <> [] -> T <> 0 ->
  average (map (fun e => e - c) E) T f = average E T (fun e => f (e - c)).
Proof.
  intros HE HT. unfold average. rewrite map_map.
  apply Rsum_ext. intros e _. now rewrite weight_shift.
Qed.

(** The formula does not depend on the reference energy. *)
Lemma cV_formula_shift (E : list R) (T c : R) :
  E <> [] -> T <> 0 ->
  cV_formula (map (fun e => e - c) E) T = cV_formula E T.
Proof.
  intros HE HT. unfold cV_formula. rewrite !average_shift by assumption.
  assert (H2 : average E T (fun e => (e - c) ^ 2)
               = average E T (fun e => 1 * e ^ 2 + (- 2 * c) * e + c ^ 2))
    by (unfold average; apply Rsum_ext; intros; ring).
  assert (H1 : average E T (fun e => e - c)
               = average E T (fun e => 1 * e + 0 * e + - c))
    by (unfold average; apply Rsum_ext; intros; ring).
  rewrite H2, H1.
  rewrite (average_linear T 1 (- 2 * c) (c ^ 2) (fun e => e ^ 2)
             (fun e => e) HE).
  rewrite (average_linear T 1 0 (- c) (fun e => e) (fun e => e) HE).
  ring.
Qed.

(** X18.  The curve does not depend on the reference energy: at every
    non-zero temperature, the value computed from the shifted eigenvalues is
    the Boltzmann-weighted variance formula of the eigenvalues as the solver
    returned them, whether they are in ascending order or not. *)
Theorem specific_heat_ignores_the_reference
    (eigvalsh : ndarray -> result (list R)) (ham : ndarray)
    (T_min T_max : R) (T_steps : Z) (curve : list (R * Float.float))
    (E : list R) (T : R) (v : Float.float) :
  specific_heat eigvalsh ham T_min T_max T_steps = Ok curve ->
  eigvalsh ham = Ok E ->
  In (T, v) curve -> T <> 0 ->
  v = Some (cV_formula E T).
Proof.
  intros H HE Hin HT.
  apply specific_heat_inv in H as (grid & e0 & l & _ & HE' & ->).
  rewrite HE in HE'. injection HE' as ->.
  apply in_map_iff in Hin as (Ti & Heq & _). injection Heq as -> <-.
  rewrite cV_finite by (assumption || discriminate).
  f_equal.
  refine (@cV_formula_shift (e0 :: l) T e0 _ HT). discriminate.
Qed.

Lemma specific_heat_ignores_the_reference_witness :
  cV (map (fun e => e - 1) [1; 3]) 2 = Some (cV_formula [1; 3] 2).
Proof.
  apply (@specific_heat_ignores_the_reference Examples.eigvalsh_diagonal
           Examples.two_levels 2 2 1
           [(2, cV (map (fun e => e - 1) [1; 3]) 2)] [1; 3] 2).
  - reflexivity.
  - reflexivity.
  - now left.
  - lra.
Defined.

(** The averages of a spectrum whose levels all coincide. *)
Lemma cV_formula_degenerate (E : list R) (T e : R) :
  E <> [] -> (forall x, In x E -> x = e) -> T <> 0 -> cV_formula E T = 0.
Proof.
  intros HE Hall HT. rewrite cV_formula_variance by assumption.
  assert (Hmu : mean_energy E T = e).
  { unfold mean_energy, average.
    rewrite (Rsum_ext _ (fun x => weight E T x * e))
      by (intros x Hx; rewrite (Hall x Hx); ring).
    rewrite (Rsum_scale (weight E T)), weights_sum_to_1 by assumption.
    ring. }
  unfold energy_variance, average. rewrite Hmu.
  rewrite (Rsum_ext _ (fun _ => 0))
    by (intros x Hx; rewrite (Hall x Hx); ring).
  rewrite Rsum_const. ring.
Qed.

(** X19.  A Hamiltonian whose eigenvalues all coincide has no specific heat:
    every value of the curve at a non-zero temperature is 0. *)
Theorem degenerate_spectrum_has_no_specific_heat
    (eigvalsh : ndarray -> result (list R)) (ham : ndarray)
    (T_min T_max : R) (T_steps : Z) (curve : list (R * Float.float))
    (E : list R) (e T : R) (v : Float.float) :
  specific_heat eigvalsh ham T_min T_max T_steps = Ok curve ->
  eigvalsh ham = Ok E ->
  (forall x, In x E -> x = e) ->
  In (T, v) curve -> T <> 0 ->
  v = Some 0.
Proof.
  intros H HE Hall Hin HT.
  apply specific_heat_inv in H as (grid & e0 & l & _ & HE' & ->).
  rewrite HE in HE'. injection HE' as ->.
  apply in_map_iff in Hin as (Ti & Heq & _). injection Heq as -> <-.
  rewrite cV_finite by (assumption || discriminate).
  f_equal.
  transitivity (cV_formula (e0 :: l) T).
  - refine (@cV_formula_shift (e0 :: l) T e0 _ HT). discriminate.
  - apply cV_formula_degenerate with (e := e);
      [discriminate|assumption|assumption].
Qed.

Lemma degenerate_spectrum_has_no_specific_heat_witness :
  cV (map (fun e => e - 4) [4; 4; 4]) 2 = Some 0.
Proof.
  apply (@degenerate_spectrum_has_no_specific_heat
           (fun _ => Ok [4; 4; 4]) Examples.two_levels 2 2 1
           [(2, cV (map (fun e => e - 4) [4; 4; 4]) 2)] [4; 4; 4] 4 2).
  - reflexivity.
  - reflexivity.
  - intros x [<-|[<-|[<-|[]]]]; reflexivity.
  - now left.
  - lra.
Defined.

(** The formula on two levels. *)
Lemma cV_formula_two_levels (e0 e1 T : R) :
  T <> 0 ->
  cV_formula [e0; e1] T
  = ((e1 - e0) / T) ^ 2 * exp (- ((e1 - e0) / T))
    / (1 + exp (- ((e1 - e0) / T))) ^ 2.
Proof.
  intros HT.
  rewrite <- (@cV_formula_shift [e0; e1] T e0) by (discriminate || assumption).
  cbn [map]. replace (e0 - e0) with 0 by ring.
  unfold cV_formula, average, weight, partition.
  cbn [map Rsum fold_right].
  replace (- 0 / T) with 0 by (field; assumption).
  replace (- (e1 - e0) / T) with (- ((e1 - e0) / T)) by (field; assumption).
  rewrite exp_0.
  set (x := exp (- ((e1 - e0) / T))).
  assert (0 < x) by apply exp_pos.
  field. repeat split; (assumption || lra).
Qed.

(** X20.  For a Hamiltonian with two eigenvalues the curve is the Schottky
    curve of a two-level system: with [x = (e1 - e0)/T], the value at a
    non-zero temperature [T] is [x^2 exp(-x) / (1 + exp(-x))^2]. *)
Theorem two_levels_give_the_Schottky_curve
    (eigvalsh : ndarray -> result (list R)) (ham : ndarray)
    (T_min T_max : R) (T_steps : Z) (curve : list (R * Float.float))
    (e0 e1 T : R) (v : Float.float) :
  specific_heat eigvalsh ham T_min T_max T_steps = Ok curve ->
  eigvalsh ham = Ok [e0; e1] ->
  In (T, v) curve -> T <> 0 ->
  let x := (e1 - e0) / T in
  v = Some (x ^ 2 * exp (- x) / (1 + exp (- x)) ^ 2).
Proof.
  intros H HE Hin HT x. subst x.
  apply specific_heat_inv in H as (grid & e & l & _ & HE' & ->).
  rewrite HE in HE'. injection HE' as <- <-.
  apply in_map_iff in Hin as (Ti & Heq & _). injection Heq as -> <-.
  rewrite cV_finite by (assumption || discriminate).
  f_equal.
  transitivity (cV_formula [e0; e1] T).
  - refine (@cV_formula_shift [e0; e1] T e0 _ HT). discriminate.
  - now apply cV_formula_two_levels.
Qed.

Lemma two_levels_give_the_Schottky_curve_witness :
  cV (map (fun e => e - 1) [1; 3]) 2
  = Some (((3 - 1) / 2) ^ 2 * exp (- ((3 - 1) / 2))
          / (1 + exp (- ((3 - 1) / 2))) ^ 2).
Proof.
  apply (@two_levels_give_the_Schottky_curve Examples.eigvalsh_diagonal
           Examples.two_levels 2 2 1
           [(2, cV (map (fun e => e - 1) [1; 3]) 2)] 1 3 2).
  - reflexivity.
  - reflexivity.
  - now left.
  - lra.
Defined.

(** X21.  [specific_heat] fails in three ways only, in this order: a negative
    [T_steps] raises [ValueError] before the solver is called; otherwise an
    exception of the solver is passed on; otherwise an empty spectrum raises
    [IndexError].  In every other case it returns [T_steps] rows. *)
Theorem specific_heat_fails_in_three_ways
    (eigvalsh : ndarray -> result (list R)) (ham : ndarray)
    (T_min T_max : R) (T_steps : Z) :
  ((T_steps < 0)%Z ->
   exists msg,
     specific_heat eigvalsh ham T_min T_max T_steps
     = Raise (ValueError msg)) /\
  ((0 <= T_steps)%Z -> forall e, eigvalsh ham = Raise e ->
   specific_heat eigvalsh ham T_min T_max T_steps = Raise e) /\
  ((0 <= T_steps)%Z -> eigvalsh ham = Ok [] ->
   specific_heat eigvalsh ham T_min T_max T_steps = Raise IndexError) /\
  ((0 <= T_steps)%Z -> forall E, eigvalsh ham = Ok E -> E <> [] ->
   exists curve,
     specific_heat eigvalsh ham T_min T_max T_steps = Ok curve /\
     length curve = Z.to_nat T_steps).
Proof.
  unfold specific_heat. repeat split.
  - intros Hneg. unfold linspace.
    destruct (Z.ltb_spec T_steps 0) as [_|?]; [|lia].
    eexists. reflexivity.
  - intros Hpos e He.
    destruct (linspace_spec T_min T_max Hpos) as (grid & -> & _).
    cbn [Py.bind]. now rewrite He.
  - intros Hpos He.
    destruct (linspace_spec T_min T_max Hpos) as (grid & -> & _).
    cbn [Py.bind]. now rewrite He.
  - intros Hpos E He HE.
    destruct (linspace_spec T_min T_max Hpos) as (grid & -> & Hlen & _).
    cbn [Py.bind]. rewrite He. cbn [Py.bind].
    destruct E as [|e0 l]; [congruence|]. cbn [item nth_error Py.bind].
    eexists. split; [reflexivity|]. now rewrite length_map.
Qed.

Lemma specific_heat_fails_in_three_ways_witness :
  (exists msg,
     specific_heat (fun _ => Raise IndexError) Examples.two_levels 1 300 (-1)
     = Raise (ValueError msg)) /\
  specific_heat (fun _ => Ok []) Examples.two_levels 1 300 3
  = Raise IndexError.
Proof.
  split.
  - apply (@specific_heat_fails_in_three_ways (fun _ => Raise IndexError)
             Examples.two_levels 1 300 (-1)). lia.
  - apply (@specific_heat_fails_in_three_ways (fun _ => Ok [])
             Examples.two_levels 1 300 3); [lia|reflexivity].
Defined.

End SpecificHeatMore.

(** ** The field functions: failures, the direction, the grid *)

Module FieldMore.

Import Np Operators Thermal OperatorSpec ThermalSpec FloatFacts
  SpecificHeatFacts OperatorFacts OperatorMore PyFacts FieldFacts.
Local Open Scope R_scope.

(** *** The g factor decides first *)

Lemma gJLS_raises (self : Self.training_data) :
  (Self.J self == 0 \/ Self.J self == -1)%Q ->
  gJLS self = Raise ZeroDivisionError.
Proof.
  intros H. apply product_zero, Qeq_bool_iff in H. unfold gJLS.
  now rewrite H.
Qed.

Lemma gJLS_returns (self : Self.training_data) :
  ~ (Self.J self == 0 \/ Self.J self == -1)%Q ->
  exists g, gJLS self = Ok g.
Proof.
  intros H. unfold gJLS.
  destruct (Qeq_bool (2 * Self.J self * (Self.J self + 1)) 0) eqn:E.
  - apply Qeq_bool_iff, product_zero in E. contradiction.
  - eexists. reflexivity.
Qed.

(** X22.  For an object with J = 0 or J = -1, [susceptibility] and
    [magnetization] raise [ZeroDivisionError] whatever their arguments are:
    the g factor is computed before the grids, the direction and the
    Hamiltonian are looked at, and the solver is not called. *)
Theorem no_moment_for_J_0
    (eigh : ndarray -> result (list R * ndarray))
    (geomspace : R -> R -> Z -> result (list R))
    (self : Self.training_data) (ham_cr : ndarray) (B_direction : list R)
    (B T_min T_max : R) (T_steps : Z) (B_min B_max : R) (B_steps : Z) :
  (Self.J self == 0 \/ Self.J self == -1)%Q ->
  susceptibility eigh self ham_cr B_direction B T_min T_max T_steps
  = Raise ZeroDivisionError /\
  magnetization eigh geomspace self ham_cr B_direction B_min B_max B_steps
    T_min T_max T_steps
  = Raise ZeroDivisionError.
Proof.
  intros H. unfold susceptibility, magnetization.
  rewrite (gJLS_raises self H). split; reflexivity.
Qed.

Lemma no_moment_for_J_0_witness :
  susceptibility Examples.eigh_diagonal (Examples.ion "Oh" 0)
    Examples.doublet [0; 0; 1] (1 / 10000) 1 300 3
  = Raise ZeroDivisionError /\
  magnetization Examples.eigh_diagonal Examples.geomspace_positive
    (Examples.ion "Oh" 0) Examples.doublet [0; 0; 1] 0 10 2 1 300 3
  = Raise ZeroDivisionError.
Proof.
  apply (@no_moment_for_J_0 Examples.eigh_diagonal
           Examples.geomspace_positive (Examples.ion "Oh" 0)
           Examples.doublet [0; 0; 1] (1 / 10000) 1 300 3 0 10 2).
  left. reflexivity.
Defined.

(** *** A direction with fewer than three components *)

(** [Jx_op] and [Jy_op] return for every J, with the same shape. *)
Lemma Jx_op_returns (self : Self.training_data) :
  exists jx, Jx_op self = Ok jx /\
    nrows jx = (length (ladder self) + 1)%nat /\
    ncols jx = (length (ladder self) + 1)%nat.
Proof.
  destruct (@elementwise_same_shape Cx.cadd (Jplus_op self) (Jminus_op self))
    as (s & Hs & Hsr & Hsc & _); [reflexivity|reflexivity|].
  unfold Jx_op, add. rewrite Hs. cbn [Py.bind].
  eexists. split; [reflexivity|]. cbn [div_scalar nrows ncols].
  rewrite Hsr, Hsc. split; reflexivity.
Qed.

Lemma Jy_op_returns (self : Self.training_data) :
  exists jy, Jy_op self = Ok jy /\
    nrows jy = (length (ladder self) + 1)%nat /\
    ncols jy = (length (ladder self) + 1)%nat.
Proof.
  destruct (@elementwise_same_shape Cx.csub (Jplus_op self) (Jminus_op self))
    as (s & Hs & Hsr & Hsc & _); [reflexivity|reflexivity|].
  unfold Jy_op, sub. rewrite Hs. cbn [Py.bind].
  eexists. split; [reflexivity|]. cbn [scale nrows ncols].
  rewrite Hsr, Hsc. split; reflexivity.
Qed.

Lemma J_op_short (self : Self.training_data) (d : list Float.float) :
  (length d < 3)%nat -> J_op self d = Raise IndexError.
Proof.
  intros Hlen. unfold J_op.
  destruct d as [|d0 [|d1 [|d2 d]]]; [| | |simpl in Hlen; lia].
  - reflexivity.
  - cbn [item nth_error Py.bind].
    destruct (Jx_op_returns self) as (jx & -> & _). reflexivity.
  - cbn [item nth_error Py.bind].
    destruct (Jx_op_returns self) as (jx & -> & Hxr & Hxc).
    destruct (Jy_op_returns self) as (jy & -> & Hyr & Hyc).
    cbn [Py.bind].
    destruct (@elementwise_same_shape Cx.cadd (scale (Cx.of_float d0) jx)
                (scale (Cx.of_float d1) jy)) as (s & Hs & _);
      [cbn [scale nrows]; congruence|cbn [scale ncols]; congruence|].
    unfold add at 1. rewrite Hs. reflexivity.
Qed.

Lemma normalized_length (d : list R) : length (normalized d) = length d.
Proof. unfold normalized. apply length_map. Qed.

(** X23.  A field direction with fewer than three components makes
    [susceptibility] and [magnetization] raise [IndexError], once the g
    factor and the grids have been computed: the Hamiltonian is not looked
    at and the solver is not called. *)
Theorem short_direction_raises
    (eigh : ndarray -> result (list R * ndarray))
    (geomspace : R -> R -> Z -> result (list R))
    (self : Self.training_data) (ham_cr : ndarray) (B_direction : list R)
    (B T_min T_max : R) (T_steps : Z) (B_min B_max : R) (B_steps : Z)
    (T_min' T_max' : R) (T_steps' : Z) (T_array : list R) :
  ~ (Self.J self == 0 \/ Self.J self == -1)%Q ->
  (length B_direction < 3)%nat ->
  ((0 <= T_steps)%Z ->
   susceptibility eigh self ham_cr B_direction B T_min T_max T_steps
   = Raise IndexError) /\
  ((0 <= B_steps)%Z ->
   geomspace T_min' T_max' T_steps' = Ok T_array ->
   magnetization eigh geomspace self ham_cr B_direction B_min B_max B_steps
     T_min' T_max' T_steps'
   = Raise IndexError).
Proof.
  intros HJ Hlen. destruct (gJLS_returns self HJ) as [g Hg].
  assert (Hop : J_op self (normalized B_direction) = Raise IndexError)
    by (apply J_op_short; now rewrite normalized_length).
  split.
  - intros Hsteps. unfold susceptibility. rewrite Hg. cbn [Py.bind].
    destruct (linspace_spec T_min T_max Hsteps) as (grid & -> & _).
    cbn [Py.bind]. now rewrite Hop.
  - intros Hsteps HT. unfold magnetization. rewrite Hg. cbn [Py.bind].
    rewrite HT. cbn [Py.bind].
    destruct (linspace_spec B_min B_max Hsteps) as (grid & -> & _).
    cbn [Py.bind]. now rewrite Hop.
Qed.

Lemma short_direction_raises_witness :
  susceptibility Examples.eigh_diagonal (Examples.ion "Oh" (1 # 2))
    Examples.doublet [0; 1] (1 / 10000) 1 300 3
  = Raise IndexError.
Proof.
  apply (@short_direction_raises Examples.eigh_diagonal
           Examples.geomspace_positive (Examples.ion "Oh" (1 # 2))
           Examples.doublet [0; 1] (1 / 10000) 1 300 3 0 10 2 1 300 3 []).
  - intros [H|H]; discriminate H.
  - simpl. lia.
  - lia.
Defined.

(** *** Only the direction of [B_direction] matters *)

Lemma norm_closed (d : list R) :
  norm (map Some d) = Some (sqrt (Rsum (map (fun x => x * x) d))).
Proof.
  unfold norm. rewrite map_map.
  rewrite (sum_map_Some _ (fun x => x * x)) by (intros; reflexivity).
  unfold Float.sqrt.
  destruct (Rlt_dec (Rsum (map (fun x => x * x) d)) 0) as [Hneg|_];
    [|reflexivity].
  exfalso.
  assert (0 <= Rsum (map (fun x => x * x) d)).
  { clear Hneg. induction d as [|x d IH]; cbn [map Rsum fold_right]; [lra|].
    fold (Rsum (map (fun x => x * x) d)). nra. }
  lra.
Qed.

Lemma squares_nonneg (d : list R) : 0 <= Rsum (map (fun x => x * x) d).
Proof.
  induction d as [|x d IH]; cbn [map Rsum fold_right]; [lra|].
  fold (Rsum (map (fun x => x * x) d)). nra.
Qed.

Lemma normalized_scale (k : R) (d : list R) :
  0 < k -> normalized (map (Rmult k) d) = normalized d.
Proof.
  intros Hk. unfold normalized. rewrite !norm_closed, !map_map.
  set (s := Rsum (map (fun x => x * x) d)).
  assert (Hs : 0 <= s) by apply squares_nonneg.
  assert (Hks : sqrt (Rsum (map (fun x => k * x * (k * x)) d)) = k * sqrt s).
  { rewrite (Rsum_ext _ (fun x => x * x * (k * k))) by (intros; ring).
    rewrite (Rsum_scale (fun x => x * x)). fold s.
    rewrite sqrt_mult by nra. rewrite sqrt_square by lra. ring. }
  rewrite Hks. apply map_ext. intros x. unfold Float.div.
  destruct (Req_dec_T (sqrt s) 0) as [E|E].
  - rewrite E, Rmult_0_r. destruct (Req_dec_T 0 0); [reflexivity|lra].
  - destruct (Req_dec_T (k * sqrt s) 0) as [E'|_]; [nra|].
    f_equal. field. split; [assumption|lra].
Qed.

(** X24.  Only the direction of [B_direction] matters: with real
    arithmetic, multiplying all of its components by a positive factor
    changes nothing in what [susceptibility] and [magnetization] return or
    raise. *)
Theorem only_the_direction_matters
    (eigh : ndarray -> result (list R * ndarray))
    (geomspace : R -> R -> Z -> result (list R))
    (self : Self.training_data) (ham_cr : ndarray) (B_direction : list R)
    (k B T_min T_max : R) (T_steps : Z) (B_min B_max : R) (B_steps : Z) :
  0 < k ->
  susceptibility eigh self ham_cr (map (Rmult k) B_direction) B
    T_min T_max T_steps
  = susceptibility eigh self ham_cr B_direction B T_min T_max T_steps /\
  magnetization eigh geomspace self ham_cr (map (Rmult k) B_direction)
    B_min B_max B_steps T_min T_max T_steps
  = magnetization eigh geomspace self ham_cr B_direction
      B_min B_max B_steps T_min T_max T_steps.
Proof.
  intros Hk. unfold susceptibility, magnetization.
  rewrite (normalized_scale B_direction Hk). split; reflexivity.
Qed.

Lemma only_the_direction_matters_witness :
  susceptibility Examples.eigh_diagonal (Examples.ion "Oh" (1 # 2))
    Examples.doublet (map (Rmult 5) [0; 0; 1]) (1 / 10000) 1 300 3
  = susceptibility Examples.eigh_diagonal (Examples.ion "Oh" (1 # 2))
      Examples.doublet [0; 0; 1] (1 / 10000) 1 300 3.
Proof.
  apply (@only_the_direction_matters Examples.eigh_diagonal
           Examples.geomspace_positive (Examples.ion "Oh" (1 # 2))
           Examples.doublet [0; 0; 1] 5 (1 / 10000) 1 300 3 0 10 2).
  lra.
Defined.

(** *** The grid of [magnetization] *)

(** X25.  On well-formed inputs ([J = n/2 > 0], a direction with three
    components, an [(n+1) x (n+1)] Hamiltonian, a solver that returns [n+1]
    eigenvalues and eigenvectors) [magnetization] returns one block per
    field of the linear grid and in it one entry per temperature of the
    geometric grid: the entry [j] of block [i] is labelled with the field
    [i] and the temperature [j]. *)
Theorem magnetization_grid
    (eigh : ndarray -> result (list R * ndarray))
    (geomspace : R -> R -> Z -> result (list R))
    (self : Self.training_data) (n : nat) (ham_cr : ndarray)
    (B_direction : list R) (B_min B_max : R) (B_steps : Z)
    (T_min T_max : R) (T_steps : Z) (T_array : list R) :
  half_integer (Self.J self) n -> (1 <= n)%nat ->
  length B_direction = 3%nat ->
  nrows ham_cr = Datatypes.S n -> ncols ham_cr = Datatypes.S n ->
  solver_contract eigh (Datatypes.S n) ->
  geomspace T_min T_max T_steps = Ok T_array ->
  (0 <= B_steps)%Z ->
  exists rows,
    magnetization eigh geomspace self ham_cr B_direction B_min B_max B_steps
      T_min T_max T_steps = Ok rows /\
    length rows = Z.to_nat B_steps /\
    forall i, (i < Z.to_nat B_steps)%nat ->
      length (nth i rows []) = length T_array /\
      forall j, (j < length T_array)%nat ->
        fst (nth j (nth i rows []) (0, 0, None))
        = (linear_point B_min B_max (Z.to_nat B_steps) i, nth j T_array 0).
Proof.
  intros HJ Hn Hdir Hr Hc Hsolver HT Hsteps.
  destruct (@magnetization_returns eigh self n ham_cr B_direction HJ Hn Hdir
              Hr Hc Hsolver geomspace B_min B_max B_steps T_min T_max
              T_steps T_array HT Hsteps)
    as (B_array & rows & HB & Hm & HF).
  destruct (linspace_spec B_min B_max Hsteps) as (grid & Hg & Hlen & Hnth).
  rewrite Hg in HB. injection HB as <-.
  exists rows. split; [assumption|].
  destruct (Forall2_at 0 [] HF) as [Hl Hat].
  split; [transitivity (length grid); [exact Hl|exact Hlen]|].
  intros i Hi. specialize (Hat i). rewrite Hlen in Hat. specialize (Hat Hi).
  destruct (Forall2_at 0 (0, 0, None) Hat) as [Hl' Hat'].
  split; [exact Hl'|].
  intros j Hj. etransitivity; [exact (Hat' j Hj)|]. now rewrite Hnth.
Qed.

Lemma magnetization_grid_witness :
  exists rows,
    magnetization Examples.eigh_diagonal Examples.geomspace_positive
      (Examples.ion "Oh" (1 # 2)) Examples.doublet [0; 0; 1] 0 10 3 2 2 1
    = Ok rows /\
    length rows = 3%nat /\
    forall i, (i < 3)%nat ->
      length (nth i rows []) = 1%nat /\
      forall j, (j < 1)%nat ->
        fst (nth j (nth i rows []) (0, 0, None))
        = (linear_point 0 10 3 i, nth j [2] 0).
Proof.
  apply (@magnetization_grid Examples.eigh_diagonal
           Examples.geomspace_positive (Examples.ion "Oh" (1 # 2)) 1
           Examples.doublet [0; 0; 1] 0 10 3 2 2 1 [2]).
  - reflexivity.
  - lia.
  - reflexivity.
  - reflexivity.
  - reflexivity.
  - exact (@eigh_diagonal_contract 2).
  - reflexivity.
  - lia.
Defined.

(** *** The matrix handed to the solver is Hermitian *)

Lemma conj_add (a b : Cx.C) :
  Cx.conj (Cx.add a b) = Cx.add (Cx.conj a) (Cx.conj b).
Proof. unfold Cx.conj, Cx.add. cbn [fst snd]. apply pair_eq; ring. Qed.

Lemma conj_sub (a b : Cx.C) :
  Cx.conj (Cx.sub a b) = Cx.sub (Cx.conj a) (Cx.conj b).
Proof. unfold Cx.conj, Cx.sub. cbn [fst snd]. apply pair_eq; ring. Qed.

Lemma conj_mul (a b : Cx.C) :
  Cx.conj (Cx.mul a b) = Cx.mul (Cx.conj a) (Cx.conj b).
Proof. unfold Cx.conj, Cx.mul. cbn [fst snd]. apply pair_eq; ring. Qed.

Lemma conj_of_R (r : R) : Cx.conj (Cx.of_R r) = Cx.of_R r.
Proof. unfold Cx.conj, Cx.of_R. cbn [fst snd]. apply pair_eq; ring. Qed.

Lemma direction_operator_hermitian (n : nat) (d : list R) :
  hermitian (Datatypes.S n)
    (field_direction_operator d (Jx_entry n) (Jy_entry n)
       (fun i j => Cx.of_R (Jz_entry n i j))).
Proof.
  intros i j _ _. unfold field_direction_operator.
  rewrite !conj_add, !conj_mul, !conj_of_R.
  rewrite <- Jx_entry_hermitian, <- Jy_entry_hermitian.
  now rewrite (Jz_entry_symmetric n j i).
Qed.

(** X26.  For a valid [J = n/2 > 0], a non-zero direction and a zero-field
    Hamiltonian that is finite, [(n+1) x (n+1)] and Hermitian, the operator
    along the field and the perturbed Hamiltonian are finite and Hermitian
    for every field [B]; the perturbed Hamiltonian is the matrix that
    [susceptibility] and [magnetization] hand to the solver. *)
Theorem solver_receives_a_Hermitian_matrix (self : Self.training_data)
    (n : nat) (ham_cr : ndarray) (x y z B : R) :
  half_integer (Self.J self) n -> (1 <= n)%nat ->
  finite_square (Datatypes.S n) ham_cr ->
  hermitian (Datatypes.S n) (value ham_cr) ->
  x * x + y * y + z * z <> 0 ->
  exists g Jdir ham,
    gJLS self = Ok g /\
    J_op self (normalized [x; y; z]) = Ok Jdir /\
    perturbed ham_cr (Q2R g) Jdir B = Ok ham /\
    hermitian (Datatypes.S n) (value Jdir) /\
    finite_square (Datatypes.S n) ham /\
    hermitian (Datatypes.S n) (value ham) /\
    (forall eigh T_min T_max T_steps susc,
       susceptibility eigh self ham_cr [x; y; z] B T_min T_max T_steps
       = Ok susc ->
       exists es, solve eigh ham = Ok es) /\
    (forall eigh geomspace B_min B_max B_steps T_min T_max T_steps rows
            row T v,
       magnetization eigh geomspace self ham_cr [x; y; z] B_min B_max
         B_steps T_min T_max T_steps = Ok rows ->
       In row rows -> In (B, T, v) row ->
       exists es, solve eigh ham = Ok es).
Proof.
  intros HJ Hn (Hr & Hc & Hfin) Hherm Hnz.
  destruct (normalized_unit Hnz) as (d & Hd & _ & Hdeq).
  cbn [map] in Hdeq.
  set (r := sqrt (x * x + y * y + z * z)) in *.
  destruct (J_op_closed self HJ (Some (x / r)) (Some (y / r)) (Some (z / r)))
    as (Jdir & HJdir & Hdr & Hdc & Hde).
  assert (HJn : J_op self (normalized [x; y; z]) = Ok Jdir)
    by (rewrite Hd, Hdeq; exact HJdir).
  pose proof (gJLS_defined self HJ Hn) as Hg.
  set (g := (1 + (Self.J self * (Self.J self + 1)
                  + Self.S self * (Self.S self + 1)
                  - Self.L self * (Self.L self + 1))
                 / (2 * Self.J self * (Self.J self + 1)))%Q) in *.
  destruct (@perturbed_closed ham_cr Jdir (Q2R g) B)
    as (ham & Hham & Hhr & Hhc & Hhe); [congruence|congruence|].
  set (Jd := field_direction_operator d (Jx_entry n) (Jy_entry n)
               (fun i j => Cx.of_R (Jz_entry n i j))).
  assert (HJd : forall i j, (i < Datatypes.S n)%nat ->
            (j < Datatypes.S n)%nat -> entry Jdir i j = Some (Jd i j)).
  { intros i j Hi Hj. rewrite Hde by assumption. subst Jd.
    unfold field_direction_operator. rewrite Hdeq. reflexivity. }
  set (c := Cx.of_R (Q2R g * Q2R muB_over_kB)).
  assert (Hhv : forall i j, (i < Datatypes.S n)%nat ->
            (j < Datatypes.S n)%nat ->
            entry ham i j
            = Some (Cx.sub (value ham_cr i j)
                      (Cx.mul (Cx.mul c (Jd i j)) (Cx.of_R B)))).
  { intros i j Hi Hj. rewrite Hhe by (rewrite ?Hr, ?Hc; assumption).
    rewrite HJd by assumption. unfold value.
    specialize (Hfin i j Hi Hj).
    destruct (entry ham_cr i j) as [h|]; [reflexivity|contradiction]. }
  assert (HJdh : hermitian (Datatypes.S n) Jd)
    by apply direction_operator_hermitian.
  exists g, Jdir, ham.
  split; [assumption|]. split; [assumption|]. split; [assumption|].
  split.
  { intros i j Hi Hj. unfold value. rewrite !HJd by assumption.
    now apply HJdh. }
  split.
  { split; [rewrite Hhr; exact Hr|]. split; [rewrite Hhc; exact Hc|].
    intros i j Hi Hj. rewrite Hhv by assumption. discriminate. }
  split.
  { intros i j Hi Hj.
    assert (Hv : forall a b, (a < Datatypes.S n)%nat ->
              (b < Datatypes.S n)%nat ->
              value ham a b
              = Cx.sub (value ham_cr a b)
                  (Cx.mul (Cx.mul c (Jd a b)) (Cx.of_R B)))
      by (intros a b Ha Hb; unfold value at 1; now rewrite Hhv).
    rewrite !Hv by assumption.
    rewrite conj_sub, !conj_mul, conj_of_R. subst c. rewrite conj_of_R.
    rewrite <- (Hherm i j Hi Hj), <- (HJdh i j Hi Hj). reflexivity. }
  split.
  - intros eigh T_min T_max T_steps susc H. unfold susceptibility in H.
    apply bind_Ok_inv in H as (g' & Hg' & H).
    apply bind_Ok_inv in H as (T_array & _ & H).
    apply bind_Ok_inv in H as (Jdir' & HJ' & H).
    apply bind_Ok_inv in H as (ham' & Hham' & H).
    apply bind_Ok_inv in H as (es & Hes & _).
    rewrite Hg in Hg'. injection Hg' as <-.
    rewrite HJn in HJ'. injection HJ' as <-.
    rewrite Hham in Hham'. injection Hham' as <-.
    now exists es.
  - intros eigh geomspace B_min B_max B_steps T_min T_max T_steps rows row
      T v Hm Hrow Hin.
    pose proof (@magnetization_row eigh geomspace self ham_cr [x; y; z]
                  B_min B_max B_steps T_min T_max T_steps rows row B T v
                  Hm Hrow Hin)
      as (g' & Jdir' & ham' & es & m & Hg' & HJ' & Hham' & Hes & _).
    rewrite Hg in Hg'. injection Hg' as <-.
    rewrite HJn in HJ'. injection HJ' as <-.
    rewrite Hham in Hham'. injection Hham' as <-.
    now exists es.
Qed.

Lemma doublet_hermitian : hermitian 2 (value Examples.doublet).
Proof.
  intros [|[|i]] [|[|j]] Hi Hj; try lia;
    unfold value, Cx.conj; cbn; apply pair_eq; lra.
Qed.

Lemma solver_receives_a_Hermitian_matrix_witness :
  exists g Jdir ham,
    gJLS (Examples.ion "Oh" (1 # 2)) = Ok g /\
    J_op (Examples.ion "Oh" (1 # 2)) (normalized [1; 1; 0]) = Ok Jdir /\
    perturbed Examples.doublet (Q2R g) Jdir 3 = Ok ham /\
    finite_square 2 ham /\ hermitian 2 (value ham).
Proof.
  destruct (@solver_receives_a_Hermitian_matrix (Examples.ion "Oh" (1 # 2))
              1 Examples.doublet 1 1 0 3)
    as (g & Jdir & ham & Hg & HJ & Hham & _ & Hfin & Hh & _).
  - reflexivity.
  - lia.
  - exact doublet_finite.
  - exact doublet_hermitian.
  - lra.
  - exists g, Jdir, ham. repeat split; try assumption; apply Hfin.
Defined.

End FieldMore.

(** ** Writing out the training data: what the arrays hold *)

Module OutputFacts.

Import Rng Sampler Assembler Np Thermal Output.
Import SamplerSpec AssemblerSpec ThermalSpec OutputSpec.
Import PyFacts SpecificHeatFacts FieldFacts AssemblerMore.
Local Open Scope nat_scope.

(** *** Assignments into arrays *)

Lemma length_set_item (A : Type) (l : list A) (i : nat) (v : A) :
  length (set_item l i v) = length l.
Proof.
  revert i. induction l as [|a l IH]; intros [|i]; simpl; auto.
Qed.

Lemma nth_set_item (A : Type) (l : list A) (i j : nat) (v d : A) :
  i < length l ->
  nth j (set_item l i v) d = if j =? i then v else nth j l d.
Proof.
  revert i j. induction l as [|a l IH]; intros i j Hi; [simpl in Hi; lia|].
  destruct i as [|i], j as [|j]; simpl; try reflexivity.
  apply IH. simpl in Hi. lia.
Qed.

Lemma item_inv (A : Type) (l : list A) (i : nat) (a d : A) :
  item l i = Ok a -> i < length l /\ nth i l d = a.
Proof.
  unfold item. destruct (nth_error l i) as [x|] eqn:E; [|discriminate].
  intros H. injection H as <-. split.
  - apply nth_error_Some. congruence.
  - now apply nth_error_nth.
Qed.

(** What [a[i][j] = v] has done when it has not raised. *)
Lemma store2_inv (a a' : list (list Float.float)) (i j : nat)
    (v : Float.float) :
  store2 a i j v = Ok a' ->
  length a' = length a /\
  (forall i', length (nth i' a' []) = length (nth i' a [])) /\
  forall i' j',
    get2 a' i' j' = if (i' =? i) && (j' =? j) then v else get2 a i' j'.
Proof.
  unfold store2. intros H. apply bind_Ok_inv in H as (row & Hrow & H).
  apply (item_inv _ _ []) in Hrow as [Hi <-].
  destruct (Nat.ltb_spec j (length (nth i a []))) as [Hj|]; [|discriminate].
  injection H as <-. split; [apply length_set_item|]. split.
  - intros i'. rewrite nth_set_item by assumption.
    destruct (Nat.eqb_spec i' i) as [->|_]; [|reflexivity].
    apply length_set_item.
  - intros i' j'. unfold get2. rewrite nth_set_item by assumption.
    destruct (Nat.eqb_spec i' i) as [->|_]; [|reflexivity].
    rewrite nth_set_item by assumption. reflexivity.
Qed.

(** What [a[i][j][k] = v] has done when it has not raised. *)
Lemma store3_inv (a a' : list (list (list Float.float))) (i j k : nat)
    (v : Float.float) :
  store3 a i j k v = Ok a' ->
  length a' = length a /\
  (forall i', length (nth i' a' []) = length (nth i' a [])) /\
  (forall i' j',
     length (nth j' (nth i' a' []) []) = length (nth j' (nth i' a []) [])) /\
  forall i' j' k',
    get3 a' i' j' k'
    = if (i' =? i) && (j' =? j) && (k' =? k) then v else get3 a i' j' k'.
Proof.
  unfold store3. intros H. apply bind_Ok_inv in H as (plane & Hplane & H).
  apply (item_inv _ _ []) in Hplane as [Hi <-].
  apply bind_Ok_inv in H as (row & Hrow & H).
  apply (item_inv _ _ []) in Hrow as [Hj <-].
  destruct (Nat.ltb_spec k (length (nth j (nth i a []) []))) as [Hk|];
    [|discriminate].
  injection H as <-. split; [apply length_set_item|]. split; [|split].
  - intros i'. rewrite nth_set_item by assumption.
    destruct (Nat.eqb_spec i' i) as [->|_]; [|reflexivity].
    apply length_set_item.
  - intros i' j'. rewrite nth_set_item by assumption.
    destruct (Nat.eqb_spec i' i) as [->|_]; [|reflexivity].
    rewrite nth_set_item by assumption.
    destruct (Nat.eqb_spec j' j) as [->|_]; [|reflexivity].
    apply length_set_item.
  - intros i' j' k'. unfold get3. rewrite nth_set_item by assumption.
    destruct (Nat.eqb_spec i' i) as [->|_]; [|reflexivity].
    rewrite nth_set_item by assumption.
    destruct (Nat.eqb_spec j' j) as [->|_]; [|reflexivity].
    rewrite nth_set_item by assumption. reflexivity.
Qed.

(** *** Loops *)

(** A property that every iteration which does not raise carries from one
    state to the next holds of the state a loop returns. *)
Lemma foldM_inv (A St : Type) (P : nat -> St -> Prop)
    (f : St -> A -> result St) (l : list A) (s s' : St) :
  foldM f l s = Ok s' ->
  P 0 s ->
  (forall k a s0 s1,
     nth_error l k = Some a -> P k s0 -> f s0 a = Ok s1 -> P (S k) s1) ->
  P (length l) s'.
Proof.
  revert P s. induction l as [|a l IH]; intros P s H H0 Hstep.
  - injection H as <-. exact H0.
  - cbn [foldM] in H. destruct (f s a) as [s1|e] eqn:E; [|discriminate].
    apply (IH (fun k => P (S k)) s1 H).
    + now apply (Hstep 0 a s s1).
    + intros k a' s0 s2 Hn HP Hf. now apply (Hstep (S k) a' s0 s2).
Qed.

Lemma nth_error_seq0 (n k a : nat) :
  nth_error (seq 0 n) k = Some a -> a = k /\ k < n.
Proof.
  intros H. assert (Hk : k < length (seq 0 n))
    by (apply nth_error_Some; congruence).
  rewrite length_seq in Hk.
  split; [|assumption].
  apply (nth_error_nth _ _ 0) in H. rewrite seq_nth in H by assumption.
  simpl in H. congruence.
Qed.

(** Case analysis on the comparisons of indices that a goal holds. *)
Ltac index_cases :=
  repeat match goal with
  | |- context [(?a =? ?b)%nat] => destruct (Nat.eqb_spec a b)
  | |- context [(?a <? ?b)%nat] => destruct (Nat.ltb_spec a b)
  end;
  cbn [andb orb] in *; subst; try reflexivity; try lia; try congruence.

(** The loop over [T_idx] for the direction number [idx]: the entries it
    has written, and the ones it has left. *)
Lemma copy_susc_inv (idx : nat) (arr : list (R * Float.float))
    (data data' : list (list Float.float)) :
  copy_susc idx arr data = Ok data' ->
  length data' = length data /\
  (forall i, length (nth i data' []) = length (nth i data [])) /\
  forall i j,
    get2 data' i j
    = if i <? length arr then susc_written idx arr data i j
      else get2 data i j.
Proof.
  unfold copy_susc, susc_written. intros H.
  pose (P := fun (k : nat) (d : list (list Float.float)) =>
    length d = length data /\
    (forall i, length (nth i d []) = length (nth i data [])) /\
    forall i j,
      get2 d i j
      = if i <? k then
          if j =? 1 + idx then snd (nth i arr (0%R, None))
          else if (j =? 0) && (idx =? 0)
               then Some (fst (nth i arr (0%R, None)))
               else get2 data i j
        else get2 data i j).
  assert (HP : P (length (seq 0 (length arr))) data').
  { apply (foldM_inv P _ _ _ H).
    - unfold P. repeat split.
    - clear H. intros k a s0 s1 Hn (Hl & Hr & Hg) Hf.
      apply nth_error_seq0 in Hn as [-> Hk].
      apply bind_Ok_inv in Hf as (s & Hs & Hf).
      apply bind_Ok_inv in Hf as (row & Hrow & Hf).
      apply (item_inv _ _ (0%R, None)) in Hrow as [_ <-].
      apply store2_inv in Hf as (Hl1 & Hr1 & Hg1).
      destruct (Nat.eqb_spec idx 0) as [E0|E0].
      + apply bind_Ok_inv in Hs as (row & Hrow & Hs).
        apply (item_inv _ _ (0%R, None)) in Hrow as [_ <-].
        apply store2_inv in Hs as (Hl0 & Hr0 & Hg0).
        unfold P. split; [congruence|]. split.
        * intros i. now rewrite Hr1, Hr0, Hr.
        * intros i j. rewrite Hg1, Hg0, Hg. subst idx. index_cases.
      + injection Hs as <-.
        unfold P. split; [congruence|]. split.
        * intros i. now rewrite Hr1, Hr.
        * intros i j. rewrite Hg1, Hg. index_cases. }
  rewrite length_seq in HP. exact HP.
Qed.

(** Reading [mag_array[B_idx][T_idx]]. *)
Lemma read_inv (arr : list (list (R * R * Float.float))) (b t : nat)
    (e : R * R * Float.float) :
  (row <- item arr b ;; item row t)%result = Ok e ->
  b < length arr /\ t < length (nth b arr []) /\
  e = nth t (nth b arr []) (0%R, 0%R, None).
Proof.
  intros H. apply bind_Ok_inv in H as (row & Hrow & H).
  apply (item_inv _ _ []) in Hrow as [Hb <-].
  apply (item_inv _ _ (0%R, 0%R, None)) in H as [Ht <-].
  now repeat split.
Qed.

(** The loops over [B_idx] and [T_idx] for the direction number [idx]: the
    entries they have read and written, and the ones they have left. *)
Lemma copy_mag_inv (idx : nat) (Bs Ts : Z)
    (arr : list (list (R * R * Float.float)))
    (data data' : list (list (list Float.float))) :
  copy_mag idx Bs Ts arr data = Ok data' ->
  length data' = length data /\
  (forall i, length (nth i data' []) = length (nth i data [])) /\
  (forall i j,
     length (nth j (nth i data' []) []) = length (nth j (nth i data []) []))
  /\
  (forall i j, i < Z.to_nat Bs -> j < Z.to_nat Ts ->
     i < length arr /\ j < length (nth i arr [])) /\
  forall i j k,
    get3 data' i j k
    = if (i <? Z.to_nat Bs) && (j <? Z.to_nat Ts)
      then mag_written idx arr data i j k
      else get3 data i j k.
Proof.
  unfold copy_mag. set (nB := Z.to_nat Bs). set (nT := Z.to_nat Ts).
  intros H.
  pose (Q := fun (b t : nat) (d : list (list (list Float.float))) =>
    length d = length data /\
    (forall i, length (nth i d []) = length (nth i data [])) /\
    (forall i j,
       length (nth j (nth i d []) []) = length (nth j (nth i data []) []))
    /\
    (forall i j, (i < b /\ j < nT) \/ (i = b /\ j < t) ->
       i < length arr /\ j < length (nth i arr [])) /\
    forall i j k,
      get3 d i j k
      = if ((i <? b) && (j <? nT)) || ((i =? b) && (j <? t))
        then mag_written idx arr data i j k
        else get3 data i j k).
  assert (HQ : Q (length (seq 0 nB)) 0 data').
  { apply (foldM_inv (fun b => Q b 0) _ _ _ H).
    - unfold Q. repeat split; try lia.
      intros i j k. index_cases.
    - clear H. intros b a s0 s1 Hn HQ0 Hf.
      apply nth_error_seq0 in Hn as [-> Hb].
      assert (HQT : Q b (length (seq 0 nT)) s1).
      { apply (foldM_inv (Q b) _ _ _ Hf); [exact HQ0|].
        clear Hf HQ0 s0 s1.
        intros t a s0 s1 Hn (Hl & Hp & Hr & Hin & Hg) Hf.
        apply nth_error_seq0 in Hn as [-> Ht].
        apply bind_Ok_inv in Hf as (s & Hs & Hf).
        apply bind_Ok_inv in Hf as (e & He & Hf).
        apply read_inv in He as (Hba & Hta & ->).
        apply store3_inv in Hf as (Hl1 & Hp1 & Hr1 & Hg1).
        assert (Hin' : forall i j,
                  (i < b /\ j < nT) \/ (i = b /\ j < S t) ->
                  i < length arr /\ j < length (nth i arr [])).
        { intros i j [Hij|[-> Hj]]; [apply Hin; now left|].
          destruct (Nat.eq_dec j t) as [->|Hne]; [now split|].
          apply Hin. right. split; [reflexivity|lia]. }
        destruct (Nat.eqb_spec idx 0) as [E0|E0].
        - apply bind_Ok_inv in Hs as (e & He & Hs).
          apply read_inv in He as (_ & _ & ->).
          apply bind_Ok_inv in Hs as (s' & Hs' & Hs).
          apply store3_inv in Hs' as (Hl2 & Hp2 & Hr2 & Hg2).
          apply bind_Ok_inv in Hs as (e & He & Hs).
          apply read_inv in He as (_ & _ & ->).
          apply store3_inv in Hs as (Hl3 & Hp3 & Hr3 & Hg3).
          unfold Q. split; [congruence|]. split; [|split; [|split]].
          + intros i. now rewrite Hp1, Hp3, Hp2, Hp.
          + intros i j. now rewrite Hr1, Hr3, Hr2, Hr.
          + exact Hin'.
          + intros i j k. rewrite Hg1, Hg3, Hg2, Hg. subst idx.
            unfold mag_written. cbv zeta. index_cases.
        - injection Hs as <-.
          unfold Q. split; [congruence|]. split; [|split; [|split]].
          + intros i. now rewrite Hp1, Hp.
          + intros i j. now rewrite Hr1, Hr.
          + exact Hin'.
          + intros i j k. rewrite Hg1, Hg.
            unfold mag_written. cbv zeta. index_cases. }
      rewrite length_seq in HQT.
      destruct HQT as (Hl & Hp & Hr & Hin & Hg).
      unfold Q. split; [assumption|]. split; [assumption|].
      split; [assumption|]. split.
      + intros i j [[Hi Hj]|[-> Hj]]; [|lia].
        destruct (Nat.eq_dec i b) as [->|Hne].
        * apply Hin. now right.
        * apply Hin. left. split; [lia|assumption].
      + intros i j k. rewrite Hg. index_cases. }
  rewrite length_seq in HQ. destruct HQ as (Hl & Hp & Hr & Hin & Hg).
  split; [assumption|]. split; [assumption|]. split; [assumption|]. split.
  - intros i j Hi Hj. apply Hin. now left.
  - intros i j k. rewrite Hg. index_cases.
Qed.

(** *** What the two field functions return *)

Lemma mapM_inv (A B : Type) (f : A -> result B) (l : list A)
    (ys : list B) :
  mapM f l = Ok ys -> Forall2 (fun x y => f x = Ok y) l ys.
Proof.
  revert ys. induction l as [|a l IH]; intros ys H; cbn [mapM] in H.
  - injection H as <-. constructor.
  - destruct (f a) as [b|e] eqn:Ea; [|discriminate].
    destruct (mapM f l) as [bs|e]; [|discriminate].
    injection H as <-. constructor; [assumption|]. now apply IH.
Qed.

Lemma Forall2_weaken (A B : Type) (P Q : A -> B -> Prop) (l : list A)
    (ys : list B) :
  (forall x y, P x y -> Q x y) -> Forall2 P l ys -> Forall2 Q l ys.
Proof. intros H. induction 1; constructor; auto. Qed.

Lemma linspace_grid (a b : R) (num : Z) (grid : list R) :
  linspace a b num = Ok grid ->
  (0 <= num)%Z /\ length grid = Z.to_nat num /\
  forall i, i < Z.to_nat num ->
    nth i grid 0%R = linear_point a b (Z.to_nat num) i.
Proof.
  intros H. assert (Hnum : (0 <= num)%Z).
  { unfold linspace in H. destruct (Z.ltb_spec num 0); [discriminate|lia]. }
  destruct (linspace_spec a b Hnum) as (l & Hl & Hlen & Hnth).
  rewrite H in Hl. injection Hl as <-. now repeat split.
Qed.

(** The rows of a susceptibility curve: one per temperature of the linear
    grid, labelled with it. *)
Lemma susceptibility_grid eigh self ham_cr B_direction B T_min T_max T_steps
    arr :
  susceptibility eigh self ham_cr B_direction B T_min T_max T_steps
  = Ok arr ->
  (0 <= T_steps)%Z /\ length arr = Z.to_nat T_steps /\
  forall i, i < Z.to_nat T_steps ->
    fst (nth i arr (0%R, None))
    = linear_point T_min T_max (Z.to_nat T_steps) i.
Proof.
  intros H. unfold susceptibility in H.
  apply bind_Ok_inv in H as (g & _ & H).
  apply bind_Ok_inv in H as (T_array & HT & H).
  apply bind_Ok_inv in H as (Jdir & _ & H).
  apply bind_Ok_inv in H as (ham & _ & H).
  apply bind_Ok_inv in H as (es & _ & H).
  apply linspace_grid in HT as (Hnum & Hlen & Hnth).
  apply mapM_inv in H.
  apply (@Forall2_weaken _ _ _ (fun T row => fst row = T)) in H.
  - destruct (Forall2_at 0%R (0%R, None) H) as [Hl Hat].
    split; [assumption|].
    split; [transitivity (length T_array); [exact Hl|exact Hlen]|].
    intros i Hi. etransitivity; [apply Hat; lia|]. now apply Hnth.
  - intros T row Hrow. apply bind_Ok_inv in Hrow as (m & _ & Hrow).
    now injection Hrow as <-.
Qed.

(** The blocks of a magnetization array: one per field of the linear grid,
    and in it one entry per temperature that [np.geomspace] has returned,
    labelled with both. *)
Lemma magnetization_labels eigh geomspace self ham_cr B_direction
    B_min B_max B_steps T_min T_max T_steps rows :
  magnetization eigh geomspace self ham_cr B_direction B_min B_max B_steps
    T_min T_max T_steps = Ok rows ->
  exists T_array,
    geomspace T_min T_max T_steps = Ok T_array /\
    (0 <= B_steps)%Z /\ length rows = Z.to_nat B_steps /\
    forall i, i < Z.to_nat B_steps ->
      length (nth i rows []) = length T_array /\
      forall j, j < length T_array ->
        fst (nth j (nth i rows []) (0%R, 0%R, None))
        = (linear_point B_min B_max (Z.to_nat B_steps) i,
           nth j T_array 0%R).
Proof.
  intros H. unfold magnetization in H.
  apply bind_Ok_inv in H as (g & _ & H).
  apply bind_Ok_inv in H as (T_array & HT & H).
  apply bind_Ok_inv in H as (B_array & HB & H).
  apply bind_Ok_inv in H as (Jdir & _ & H).
  apply linspace_grid in HB as (Hnum & Hlen & Hnth).
  exists T_array. split; [assumption|]. split; [assumption|].
  apply mapM_inv in H.
  apply (@Forall2_weaken _ _ _
           (fun B row =>
              Forall2 (fun T (e : R * R * Float.float) => fst e = (B, T))
                      T_array row)) in H.
  - destruct (Forall2_at 0%R [] H) as [Hl Hat].
    split; [transitivity (length B_array); [exact Hl|exact Hlen]|].
    intros i Hi. specialize (Hat i). rewrite Hlen in Hat.
    specialize (Hat Hi).
    destruct (Forall2_at 0%R (0%R, 0%R, None) Hat) as [Hl' Hat'].
    split; [exact Hl'|].
    intros j Hj. etransitivity; [exact (Hat' j Hj)|]. now rewrite Hnth.
  - intros B row Hrow. apply bind_Ok_inv in Hrow as (ham & _ & Hrow).
    apply bind_Ok_inv in Hrow as (es & _ & Hrow).
    apply mapM_inv in Hrow.
    apply (Forall2_weaken (P := fun T e =>
             (m <- mag (Q2R g) Jdir (fst es) (snd es) T ;;
              Ok (B, T, Cx.real m))%result = Ok e)); [|exact Hrow].
    intros T e He. apply bind_Ok_inv in He as (m & _ & He).
    now injection He as <-.
Qed.

(** *** Fresh arrays *)

Lemma nth_repeat_in (A : Type) (x d : A) (n i : nat) :
  i < n -> nth i (repeat x n) d = x.
Proof.
  revert i. induction n as [|n IH]; intros i Hi; [lia|].
  destruct i as [|i]; [reflexivity|]. simpl. apply IH. lia.
Qed.

Lemma zeros2_inv (n : Z) (m : nat) (a : list (list Float.float)) :
  zeros2 n m = Ok a ->
  (0 <= n)%Z /\ shape2 a (Z.to_nat n) m /\
  forall i j, i < Z.to_nat n -> j < m -> get2 a i j = Some 0%R.
Proof.
  unfold zeros2. destruct (Z.ltb_spec n 0) as [|Hn]; [discriminate|].
  intros H. injection H as <-. split; [assumption|]. split.
  - split; [apply repeat_length|].
    intros i Hi. rewrite nth_repeat_in by assumption. apply repeat_length.
  - intros i j Hi Hj. unfold get2. now rewrite !nth_repeat_in.
Qed.

Lemma zeros3_inv (n m : Z) (k : nat) (a : list (list (list Float.float))) :
  zeros3 n m k = Ok a ->
  (0 <= n)%Z /\ (0 <= m)%Z /\ shape3 a (Z.to_nat n) (Z.to_nat m) k /\
  forall i j l, i < Z.to_nat n -> j < Z.to_nat m -> l < k ->
    get3 a i j l = Some 0%R.
Proof.
  unfold zeros3.
  destruct (Z.ltb_spec n 0) as [|Hn]; [discriminate|].
  destruct (Z.ltb_spec m 0) as [|Hm]; [discriminate|]. cbn [orb].
  intros H. injection H as <-. split; [assumption|]. split; [assumption|].
  split.
  - split; [apply repeat_length|].
    intros i Hi. rewrite nth_repeat_in by assumption.
    split; [apply repeat_length|].
    intros j Hj. rewrite nth_repeat_in by assumption. apply repeat_length.
  - intros i j l Hi Hj Hl. unfold get3. now rewrite !nth_repeat_in.
Qed.

Lemma same_shape2_shape (a b : list (list Float.float)) (n m : nat) :
  same_shape2 a b -> shape2 b n m -> shape2 a n m.
Proof.
  intros [Hl Hr] [Hn Hm]. split; [congruence|].
  intros i Hi. rewrite Hr. now apply Hm.
Qed.

Lemma same_shape3_shape (a b : list (list (list Float.float)))
    (n m k : nat) :
  same_shape3 a b -> shape3 b n m k -> shape3 a n m k.
Proof.
  intros (Hl & Hp & Hr) [Hn Hm]. split; [congruence|].
  intros i Hi. destruct (Hm i Hi) as [Hpm Hrk].
  split; [rewrite Hp; assumption|].
  intros j Hj. rewrite Hr. now apply Hrk.
Qed.

(** *** The loop over the directions *)

Section Directions.

Variable eigh : ndarray -> result (list R * ndarray).
Variable geomspace : R -> R -> Z -> result (list R).
Variable self : Self.training_data.
Variable susc_T_range mag_T_range mag_B_range : Range.
Variable ham_cr : ndarray.

(** After the loop over the directions, for every direction [d]: the column
    [1 + d] of [susc_data] holds the values of its susceptibility curve and
    the column [2 + d] of [mag_data] those of its magnetization array; the
    labels come from the direction number 0. *)
Lemma directions_inv (D : nat)
    (s0 : list (list Float.float)) (m0 : list (list (list Float.float)))
    (sm : list (list Float.float) * list (list (list Float.float))) :
  foldM (one_direction eigh geomspace self susc_T_range mag_T_range
           mag_B_range ham_cr) (seq 0 D) (s0, m0) = Ok sm ->
  same_shape2 (fst sm) s0 /\ same_shape3 (snd sm) m0 /\
  forall d, d < D ->
    exists arr marr,
      susceptibility eigh self ham_cr (nth d (Self.B_directions self) [])
        (1 / 10000) (lo susc_T_range) (hi susc_T_range)
        (steps susc_T_range) = Ok arr /\
      magnetization eigh geomspace self ham_cr
        (nth d (Self.B_directions self) [])
        (lo mag_B_range) (hi mag_B_range) (steps mag_B_range)
        (lo mag_T_range) (hi mag_T_range) (steps mag_T_range) = Ok marr /\
      (forall i, i < length arr ->
         get2 (fst sm) i (1 + d) = snd (nth i arr (0%R, None)) /\
         (d = 0 ->
          get2 (fst sm) i 0 = Some (fst (nth i arr (0%R, None))))) /\
      (forall i j, i < Z.to_nat (steps mag_B_range) ->
         j < Z.to_nat (steps mag_T_range) ->
         let e := nth j (nth i marr []) (0%R, 0%R, None) in
         i < length marr /\ j < length (nth i marr []) /\
         get3 (snd sm) i j (2 + d) = snd e /\
         (d = 0 ->
          get3 (snd sm) i j 0 = Some (fst (fst e)) /\
          get3 (snd sm) i j 1 = Some (snd (fst e)))).
Proof.
  intros H.
  pose (P := fun (k : nat)
      (sm : list (list Float.float) * list (list (list Float.float))) =>
    same_shape2 (fst sm) s0 /\ same_shape3 (snd sm) m0 /\
    forall d, d < k ->
      exists arr marr,
        susceptibility eigh self ham_cr (nth d (Self.B_directions self) [])
          (1 / 10000) (lo susc_T_range) (hi susc_T_range)
          (steps susc_T_range) = Ok arr /\
        magnetization eigh geomspace self ham_cr
          (nth d (Self.B_directions self) [])
          (lo mag_B_range) (hi mag_B_range) (steps mag_B_range)
          (lo mag_T_range) (hi mag_T_range) (steps mag_T_range) = Ok marr /\
        (forall i, i < length arr ->
           get2 (fst sm) i (1 + d) = snd (nth i arr (0%R, None)) /\
           (d = 0 ->
            get2 (fst sm) i 0 = Some (fst (nth i arr (0%R, None))))) /\
        (forall i j, i < Z.to_nat (steps mag_B_range) ->
           j < Z.to_nat (steps mag_T_range) ->
           let e := nth j (nth i marr []) (0%R, 0%R, None) in
           i < length marr /\ j < length (nth i marr []) /\
           get3 (snd sm) i j (2 + d) = snd e /\
           (d = 0 ->
            get3 (snd sm) i j 0 = Some (fst (fst e)) /\
            get3 (snd sm) i j 1 = Some (snd (fst e))))).
  assert (HP : P (length (seq 0 D)) sm).
  { apply (foldM_inv P _ _ _ H).
    - unfold P. cbn [fst snd]. split; [now split|]. split; [now repeat split|].
      intros d Hd. lia.
    - clear H sm. intros k a sm0 sm1 Hn (Hs & Hm & Hd) Hf.
      apply nth_error_seq0 in Hn as [-> Hk].
      unfold one_direction in Hf.
      apply bind_Ok_inv in Hf as (dir & Hdir & Hf).
      apply (item_inv _ _ []) in Hdir as [_ <-].
      apply bind_Ok_inv in Hf as (arr & Harr & Hf).
      apply bind_Ok_inv in Hf as (marr & Hmarr & Hf).
      apply bind_Ok_inv in Hf as (s1 & Hs1 & Hf).
      apply bind_Ok_inv in Hf as (m1 & Hm1 & Hf).
      injection Hf as <-. cbn [fst snd].
      apply copy_susc_inv in Hs1 as (Hl1 & Hr1 & Hg1).
      apply copy_mag_inv in Hm1 as (Hl2 & Hp2 & Hr2 & Hin2 & Hg2).
      destruct Hs as [Hsl Hsr]. destruct Hm as (Hml & Hmp & Hmr).
      unfold P. cbn [fst snd]. split; [|split].
      + split; [congruence|]. intros i. now rewrite Hr1, Hsr.
      + split; [congruence|]. split.
        * intros i. now rewrite Hp2, Hmp.
        * intros i j. now rewrite Hr2, Hmr.
      + intros d Hdk. destruct (Nat.eq_dec d k) as [->|Hne].
        * exists arr, marr. split; [assumption|]. split; [assumption|].
          split.
          -- intros i Hi. split.
             ++ rewrite Hg1. unfold susc_written. cbv zeta. index_cases.
             ++ intros ->. rewrite Hg1. unfold susc_written. cbv zeta.
                index_cases.
          -- intros i j Hi Hj. cbv zeta.
             destruct (Hin2 i j Hi Hj) as [Hia Hja].
             split; [assumption|]. split; [assumption|]. split.
             ++ rewrite Hg2. unfold mag_written. cbv zeta. index_cases.
             ++ intros ->. split; rewrite Hg2; unfold mag_written; cbv zeta;
                  index_cases.
        * destruct (Hd d) as (arr' & marr' & Ha' & Hm' & Hsusc & Hmag);
            [lia|].
          exists arr', marr'. split; [assumption|]. split; [assumption|].
          split.
          -- intros i Hi. destruct (Hsusc i Hi) as [Hv H0]. split.
             ++ rewrite Hg1, <- Hv. unfold susc_written. cbv zeta.
                index_cases.
             ++ intros ->. rewrite Hg1, <- (H0 eq_refl).
                unfold susc_written. cbv zeta. index_cases.
          -- intros i j Hi Hj. cbv zeta.
             destruct (Hmag i j Hi Hj) as (Hia & Hja & Hv & H0).
             split; [assumption|]. split; [assumption|]. split.
             ++ rewrite Hg2, <- Hv. unfold mag_written. cbv zeta.
                index_cases.
             ++ intros ->. destruct (H0 eq_refl) as [Hv0 Hv1].
                split; [rewrite Hg2, <- Hv0|rewrite Hg2, <- Hv1];
                  unfold mag_written; cbv zeta; index_cases. }
  rewrite length_seq in HP. exact HP.
Qed.

End Directions.

(** *** The loop over the training sets *)

Section Run.

Variable eigvalsh : ndarray -> result (list R).
Variable eigh : ndarray -> result (list R * ndarray).
Variable geomspace : R -> R -> Z -> result (list R).
Variable module_ham_cr : basis_fn -> list Q -> ndarray.
Variable eigvalsh_None : exn.
Variable fuel : nat.
Variable self : Self.training_data.
Variable Stevens_range : list (list Q).
Variable W_sign : Q.
Variable cV_T_range susc_T_range mag_T_range mag_B_range : Range.

Local Notation "'run_one_set'" :=
  (one_set eigvalsh eigh geomspace module_ham_cr eigvalsh_None self
     cV_T_range susc_T_range mag_T_range mag_B_range).
Local Notation "'run_training_sets'" :=
  (training_sets eigvalsh eigh geomspace module_ham_cr eigvalsh_None fuel
     self Stevens_range W_sign cV_T_range susc_T_range mag_T_range
     mag_B_range).
Local Notation "'run_output_all_data'" :=
  (output_all_data eigvalsh eigh geomspace module_ham_cr eigvalsh_None fuel
     self Stevens_range W_sign cV_T_range susc_T_range mag_T_range
     mag_B_range).
Local Notation "'sample'" :=
  (generate_random_stevens self Stevens_range W_sign fuel).

(** What one training set holds when its computation has not raised. *)
Lemma one_set_inv (v : list Q) (cV : list (R * Float.float))
    (s : list (list Float.float)) (m : list (list (list Float.float))) :
  run_one_set v = Ok (cV, s, m) ->
  let D := length (Self.B_directions self) in
  exists f args,
    ham_cr self v = Calls f args /\
    specific_heat eigvalsh (module_ham_cr f args) (lo cV_T_range)
      (hi cV_T_range) (steps cV_T_range) = Ok cV /\
    shape2 s (Z.to_nat (steps susc_T_range)) (1 + D) /\
    shape3 m (Z.to_nat (steps mag_B_range)) (Z.to_nat (steps mag_T_range))
      (2 + D) /\
    (D = 0 ->
     (forall i j, i < Z.to_nat (steps susc_T_range) -> j < 1 ->
        get2 s i j = Some 0%R) /\
     (forall i j k, i < Z.to_nat (steps mag_B_range) ->
        j < Z.to_nat (steps mag_T_range) -> k < 2 ->
        get3 m i j k = Some 0%R)) /\
    forall d, d < D ->
      exists arr marr,
        susceptibility eigh self (module_ham_cr f args)
          (nth d (Self.B_directions self) [])
          (1 / 10000) (lo susc_T_range) (hi susc_T_range)
          (steps susc_T_range) = Ok arr /\
        magnetization eigh geomspace self (module_ham_cr f args)
          (nth d (Self.B_directions self) [])
          (lo mag_B_range) (hi mag_B_range) (steps mag_B_range)
          (lo mag_T_range) (hi mag_T_range) (steps mag_T_range) = Ok marr /\
        (forall i, i < length arr ->
           get2 s i (1 + d) = snd (nth i arr (0%R, None)) /\
           (d = 0 -> get2 s i 0 = Some (fst (nth i arr (0%R, None))))) /\
        (forall i j, i < Z.to_nat (steps mag_B_range) ->
           j < Z.to_nat (steps mag_T_range) ->
           let e := nth j (nth i marr []) (0%R, 0%R, None) in
           i < length marr /\ j < length (nth i marr []) /\
           get3 m i j (2 + d) = snd e /\
           (d = 0 ->
            get3 m i j 0 = Some (fst (fst e)) /\
            get3 m i j 1 = Some (snd (fst e)))).
Proof.
  intros H D. unfold one_set in H.
  destruct (ham_cr self v) as [e|f args|] eqn:Hham; [discriminate| |].
  2:{ destruct (linspace (lo cV_T_range) (hi cV_T_range)
                  (steps cV_T_range)); discriminate. }
  cbv zeta in H.
  apply bind_Ok_inv in H as (cV' & HcV & H).
  apply bind_Ok_inv in H as (s0 & Hs0 & H).
  apply bind_Ok_inv in H as (m0 & Hm0 & H).
  apply bind_Ok_inv in H as (sm & Hsm & H).
  injection H as -> <- <-.
  apply zeros2_inv in Hs0 as (_ & Hsh2 & Hz2).
  apply zeros3_inv in Hm0 as (_ & _ & Hsh3 & Hz3).
  exists f, args. split; [reflexivity|]. split; [assumption|].
  fold D in Hsm, Hsh2, Hsh3, Hz2, Hz3.
  pose proof (directions_inv _ _ _ _ _ _ _ _ _ _ Hsm) as (Hss & Hsm3 & Hd).
  split; [now apply (same_shape2_shape Hss)|].
  split; [now apply (same_shape3_shape Hsm3)|].
  split; [|exact Hd].
  intros HD. rewrite HD in Hsm. cbn [seq foldM] in Hsm.
  injection Hsm as <-. cbn [fst snd]. split.
  - intros i j Hi Hj. apply Hz2; lia.
  - intros i j k Hi Hj Hk. apply Hz3; lia.
Qed.

(** What the loop over the training sets has done when it returns. *)
Lemma training_sets_inv (n : nat) :
  forall out g out' g',
    run_training_sets n out g = Some (Ok out', g') ->
    exists vs cvs ss ms (gs : nat -> Generator),
      out' = mkData (stevens_params_all out ++ vs) (cV_data_all out ++ cvs)
               (susc_data_all out ++ ss) (mag_data_all out ++ ms) /\
      length vs = n /\ length cvs = n /\ length ss = n /\ length ms = n /\
      gs 0 = g /\ gs n = g' /\
      forall k, k < n ->
        sample (gs k) = Some (Ok (nth k vs []), gs (S k)) /\
        run_one_set (nth k vs [])
        = Ok (nth k cvs [], nth k ss [], nth k ms []).
Proof.
  induction n as [|n IH]; intros out g out' g' H.
  - cbn [training_sets] in H. injection H as <- <-.
    exists [], [], [], [], (fun _ => g). rewrite !app_nil_r.
    destruct out. repeat split; try reflexivity; intros; lia.
  - cbn [training_sets] in H.
    destruct (sample g) as [[[v|e] g1]|] eqn:Hs; try discriminate.
    destruct (run_one_set v) as [[[cV s] m]|e] eqn:Hone; [|discriminate].
    apply IH in H
      as (vs & cvs & ss & ms & gs & -> & Hv & Hc & Hss & Hm & H0 & Hn & Hk).
    cbn [stevens_params_all cV_data_all susc_data_all mag_data_all].
    exists (v :: vs), (cV :: cvs), (s :: ss), (m :: ms),
      (fun k => match k with O => g | S k' => gs k' end).
    rewrite <- !app_assoc. cbn [app length].
    split; [reflexivity|]. do 4 (split; [congruence|]).
    split; [reflexivity|]. split; [exact Hn|].
    intros [|j] Hlt.
    + cbn [nth]. rewrite H0. now split.
    + cbn [nth]. apply Hk. lia.
Qed.

(** A vector that the sampler has returned and that [ham_cr] has handed
    over is handed over whole. *)
Lemma sampled_call (g g1 : Generator) (v : list Q) (f : basis_fn)
    (args : list Q) :
  sample g = Some (Ok v, g1) -> ham_cr self v = Calls f args -> args = v.
Proof.
  intros Hs Hc. destruct (sampled_length _ _ _ _ _ Hs) as [Hsup Hlen].
  destruct (supported_J_dec (Self.J self)) as [HJ|HJ].
  - destruct (@ham_cr_calls self v Hsup Hlen HJ) as [f' Hf'].
    rewrite Hc in Hf'. now injection Hf' as _ ->.
  - rewrite (@ham_cr_None self v Hsup Hlen HJ) in Hc. discriminate.
Qed.

(** What the method has done when it returns. *)
Lemma output_all_data_inv (g g' : Generator) (out : Data) :
  run_output_all_data g = Some (Ok out, g') ->
  let N := Self.N_t self in
  length (stevens_params_all out) = N /\ length (cV_data_all out) = N /\
  length (susc_data_all out) = N /\ length (mag_data_all out) = N /\
  exists gs : nat -> Generator,
    gs 0 = g /\ gs N = g' /\
    forall k, k < N ->
      sample (gs k) = Some (Ok (nth k (stevens_params_all out) []), gs (S k))
      /\
      run_one_set (nth k (stevens_params_all out) [])
      = Ok (nth k (cV_data_all out) [], nth k (susc_data_all out) [],
            nth k (mag_data_all out) []).
Proof.
  intros H N. unfold output_all_data in H.
  apply training_sets_inv in H
    as (vs & cvs & ss & ms & gs & -> & Hv & Hc & Hs & Hm & H0 & Hn & Hk).
  cbn [stevens_params_all cV_data_all susc_data_all mag_data_all app].
  subst N. do 4 (split; [assumption|]). exists gs.
  split; [exact H0|]. split; [exact Hn|]. exact Hk.
Qed.

(** X27.  When J is none of the six values that [ham_cr] knows, the method
    returns no data: once the first parameter vector has been drawn,
    [ham_cr] returns [None] without raising, [specific_heat] is handed
    [None], and the exception that [LA.eigvalsh] raises on it (or, for a
    negative number of steps, the one of [np.linspace]) ends the call in the
    first training set. *)
Theorem unsupported_J_yields_no_data (g g1 : Generator) (v : list Q) :
  ~ supported_J (Self.J self) ->
  1 <= Self.N_t self ->
  sample g = Some (Ok v, g1) ->
  exists e,
    run_output_all_data g = Some (Raise e, g1) /\
    ((0 <= steps cV_T_range)%Z -> e = eigvalsh_None).
Proof.
  intros HJ HN Hs. destruct (sampled_length _ _ _ _ _ Hs) as [Hsup Hlen].
  pose proof (@ham_cr_None self v Hsup Hlen HJ) as Hnone.
  unfold output_all_data. destruct (Self.N_t self) as [|n]; [lia|].
  cbn [training_sets]. rewrite Hs. unfold one_set. rewrite Hnone.
  destruct (linspace (lo cV_T_range) (hi cV_T_range) (steps cV_T_range))
    as [grid|e] eqn:Hgrid; cbn [Py.bind].
  - exists eigvalsh_None. split; reflexivity.
  - exists e. split; [reflexivity|]. intros Hsteps.
    destruct (linspace_spec (lo cV_T_range) (hi cV_T_range) Hsteps)
      as (grid & Hg & _).
    rewrite Hg in Hgrid. discriminate.
Qed.

(** X28.  When the method returns, each of its four lists has [N_t]
    entries, and the training sets are built from consecutive samples of
    the one generator: the parameter vector number [k] is what
    [generate_random_stevens] returns from the state that the vector number
    [k - 1] has left, [ham_cr] hands it over whole to the imported module,
    and the specific-heat entry number [k] is the curve of the Hamiltonian
    that the module returns for it. *)
Theorem training_sets_are_consecutive_samples (g g' : Generator)
    (out : Data) :
  run_output_all_data g = Some (Ok out, g') ->
  let N := Self.N_t self in
  length (stevens_params_all out) = N /\ length (cV_data_all out) = N /\
  length (susc_data_all out) = N /\ length (mag_data_all out) = N /\
  exists gs : nat -> Generator,
    gs 0 = g /\ gs N = g' /\
    forall k, k < N ->
      let stevens_params := nth k (stevens_params_all out) [] in
      sample (gs k) = Some (Ok stevens_params, gs (S k)) /\
      exists f,
        ham_cr self stevens_params = Calls f stevens_params /\
        specific_heat eigvalsh (module_ham_cr f stevens_params)
          (lo cV_T_range) (hi cV_T_range) (steps cV_T_range)
        = Ok (nth k (cV_data_all out) []).
Proof.
  intros H N.
  destruct (output_all_data_inv _ H) as (Hv & Hc & Hs & Hm & gs & H0 & Hn & Hk).
  do 4 (split; [assumption|]). exists gs.
  split; [assumption|]. split; [assumption|].
  intros k Hlt stevens_params. destruct (Hk k Hlt) as [Hsample Hone].
  split; [assumption|].
  apply one_set_inv in Hone as (f & args & Hham & HcV & _).
  pose proof (sampled_call _ Hsample Hham) as ->.
  now exists f.
Qed.

(** X29.  When the method returns, the susceptibility array of every
    training set has [susc_T_range[2]] rows and one column more than there
    are directions: column 0 holds the temperatures of the linear grid of
    [susc_T_range], and column [1 + d] holds the susceptibility curve along
    the direction number [d], computed with the field 0.0001 for the
    Hamiltonian of the parameter vector of that set.  With no direction at
    all, column 0 is left at zero. *)
Theorem susceptibility_data_layout (g g' : Generator) (out : Data)
    (k : nat) :
  run_output_all_data g = Some (Ok out, g') ->
  k < Self.N_t self ->
  let stevens_params := nth k (stevens_params_all out) [] in
  let susc_data := nth k (susc_data_all out) [] in
  let n := Z.to_nat (steps susc_T_range) in
  let D := length (Self.B_directions self) in
  shape2 susc_data n (1 + D) /\
  (D = 0 -> forall i, i < n -> get2 susc_data i 0 = Some 0%R) /\
  exists f,
    ham_cr self stevens_params = Calls f stevens_params /\
    forall d, d < D ->
      exists susc_array,
        susceptibility eigh self (module_ham_cr f stevens_params)
          (nth d (Self.B_directions self) []) (1 / 10000)
          (lo susc_T_range) (hi susc_T_range) (steps susc_T_range)
        = Ok susc_array /\
        forall i, i < n ->
          get2 susc_data i 0
          = Some (linear_point (lo susc_T_range) (hi susc_T_range) n i) /\
          get2 susc_data i (1 + d) = snd (nth i susc_array (0%R, None)).
Proof.
  intros H Hlt stevens_params susc_data n D.
  destruct (output_all_data_inv _ H) as (_ & _ & _ & _ & gs & _ & _ & Hk).
  destruct (Hk k Hlt) as [Hsample Hone].
  apply one_set_inv in Hone
    as (f & args & Hham & _ & Hshape & _ & Hzero & Hdirs).
  pose proof (sampled_call _ Hsample Hham) as ->.
  split; [exact Hshape|]. split.
  { intros HD i Hi. destruct (Hzero HD) as [Hz _]. apply Hz; [assumption|lia]. }
  exists f. split; [assumption|].
  intros d Hd.
  destruct (Hdirs d Hd) as (arr & marr & Harr & _ & Hcol & _).
  exists arr. split; [assumption|].
  intros i Hi.
  destruct (susceptibility_grid _ _ _ _ _ _ _ _ Harr) as (_ & Hlen & _).
  split.
  - destruct (Hdirs 0) as (arr0 & marr0 & Harr0 & _ & Hcol0 & _);
      [fold D; lia|].
    destruct (susceptibility_grid _ _ _ _ _ _ _ _ Harr0)
      as (_ & Hlen0 & Hgrid0).
    destruct (Hcol0 i) as [_ H0]; [rewrite Hlen0; exact Hi|].
    fold susc_data in H0. rewrite (H0 eq_refl). f_equal. now apply Hgrid0.
  - destruct (Hcol i) as [Hv _]; [rewrite Hlen; exact Hi|]. exact Hv.
Qed.

(** X30.  When the method returns, the magnetization array of every
    training set has the shape [(mag_B_range[2], mag_T_range[2], 2 + D)]
    for [D] directions: at the field index [i] and the temperature index
    [j], entry 0 holds the field [i] of the linear grid of [mag_B_range],
    entry 1 the temperature [j] that [np.geomspace] returns for
    [mag_T_range], and entry [2 + d] the magnetization along the direction
    number [d] for the Hamiltonian of the parameter vector of that set.
    With no direction at all, the two labels are left at zero. *)
Theorem magnetization_data_layout (g g' : Generator) (out : Data)
    (k : nat) :
  run_output_all_data g = Some (Ok out, g') ->
  k < Self.N_t self ->
  let stevens_params := nth k (stevens_params_all out) [] in
  let mag_data := nth k (mag_data_all out) [] in
  let nB := Z.to_nat (steps mag_B_range) in
  let nT := Z.to_nat (steps mag_T_range) in
  let D := length (Self.B_directions self) in
  shape3 mag_data nB nT (2 + D) /\
  (D = 0 -> forall i j, i < nB -> j < nT ->
     get3 mag_data i j 0 = Some 0%R /\ get3 mag_data i j 1 = Some 0%R) /\
  exists f,
    ham_cr self stevens_params = Calls f stevens_params /\
    forall d, d < D ->
      exists T_array mag_array,
        geomspace (lo mag_T_range) (hi mag_T_range) (steps mag_T_range)
        = Ok T_array /\
        magnetization eigh geomspace self (module_ham_cr f stevens_params)
          (nth d (Self.B_directions self) [])
          (lo mag_B_range) (hi mag_B_range) (steps mag_B_range)
          (lo mag_T_range) (hi mag_T_range) (steps mag_T_range)
        = Ok mag_array /\
        forall i j, i < nB -> j < nT ->
          get3 mag_data i j 0
          = Some (linear_point (lo mag_B_range) (hi mag_B_range) nB i) /\
          get3 mag_data i j 1 = Some (nth j T_array 0%R) /\
          get3 mag_data i j (2 + d)
          = snd (nth j (nth i mag_array []) (0%R, 0%R, None)).
Proof.
  intros H Hlt stevens_params mag_data nB nT D.
  destruct (output_all_data_inv _ H) as (_ & _ & _ & _ & gs & _ & _ & Hk).
  destruct (Hk k Hlt) as [Hsample Hone].
  apply one_set_inv in Hone
    as (f & args & Hham & _ & _ & Hshape & Hzero & Hdirs).
  pose proof (sampled_call _ Hsample Hham) as ->.
  split; [exact Hshape|]. split.
  { intros HD i j Hi Hj. destruct (Hzero HD) as [_ Hz].
    split; apply Hz; (assumption || lia). }
  exists f. split; [assumption|].
  intros d Hd.
  destruct (Hdirs d Hd) as (arr & marr & _ & Hmarr & _ & Hcol).
  destruct (magnetization_labels _ _ _ _ _ _ _ _ _ _ _ Hmarr)
    as (T_array & HT & _ & _ & _).
  exists T_array, marr. split; [assumption|]. split; [assumption|].
  intros i j Hi Hj.
  destruct (Hdirs 0) as (arr0 & marr0 & _ & Hmarr0 & _ & Hcol0);
    [fold D; lia|].
  destruct (magnetization_labels _ _ _ _ _ _ _ _ _ _ _ Hmarr0)
    as (T_array0 & HT0 & _ & _ & Hlab0).
  rewrite HT in HT0. injection HT0 as <-.
  destruct (Hcol0 i j Hi Hj) as (_ & Hj0 & _ & H0).
  destruct (H0 eq_refl) as [Hv0 Hv1].
  destruct (Hlab0 i Hi) as [Hlen0 Hfst0]. rewrite Hlen0 in Hj0.
  specialize (Hfst0 j Hj0).
  fold mag_data in Hv0, Hv1. rewrite Hv0, Hv1, Hfst0. cbn [fst snd].
  split; [reflexivity|]. split; [reflexivity|].
  destruct (Hcol i j Hi Hj) as (_ & _ & Hv & _). exact Hv.
Qed.

End Run.

(** *** The statements above on concrete objects *)

Lemma example_run :
  exists out g',
    output_all_data Examples.eigvalsh_diagonal Examples.eigh_diagonal
      Examples.geomspace_positive Examples.module_levels IndexError 0
      Examples.cubic_ion Examples.Stevens_range 1 Examples.three_steps
      Examples.one_step Examples.one_step Examples.one_step Examples.rg
    = Some (Ok out, g').
Proof.
  unfold output_all_data.
  change (Self.N_t Examples.cubic_ion) with 1. cbn [training_sets].
  destruct (generate_random_stevens Examples.cubic_ion
              Examples.Stevens_range 1 0 Examples.rg)
    as [[[v|e] g1]|] eqn:Hs;
    [|vm_compute in Hs; discriminate Hs|vm_compute in Hs; discriminate Hs].
  destruct (sampled_length _ _ _ _ _ Hs) as [Hsup Hlen].
  assert (HJ : supported_J (Self.J Examples.cubic_ion))
    by (right; left; reflexivity).
  destruct (@ham_cr_calls _ v Hsup Hlen HJ) as [f Hf].
  unfold one_set. rewrite Hf. cbv zeta.
  set (ham := Examples.module_levels f v).
  destruct (@specific_heat_returns Examples.eigvalsh_diagonal ham
              (lo Examples.three_steps) (hi Examples.three_steps)
              (steps Examples.three_steps) (Examples.diagonal ham) eq_refl)
    as (curve & Hc & _);
    [cbv [Examples.diagonal ham Examples.module_levels nrows seq map];
     discriminate|cbn; lia|].
  rewrite Hc. cbn [Py.bind].
  match goal with
  | |- context [match ?r with Ok _ => _ | Raise _ => _ end] =>
      assert (exists s m, r = Ok (curve, s, m)) as (s & m & ->)
  end; [|eexists; eexists; reflexivity].
  unfold one_direction.
  change (steps Examples.one_step) with 1%Z.
  change (lo Examples.one_step) with 1%R.
  change (hi Examples.one_step) with 300%R.
  change (Self.B_directions Examples.cubic_ion) with [[0%R; 0%R; 1%R]].
  cbv [zeros2 zeros3]. change (Z.to_nat 1) with 1.
  cbn [Z.ltb Z.compare orb Nat.add repeat Py.bind seq foldM length
       fst snd item nth_error].
  destruct (@susceptibility_returns Examples.eigh_diagonal
              Examples.cubic_ion 8 ham [0; 0; 1]%R
              eq_refl ltac:(lia) eq_refl eq_refl eq_refl
              (@eigh_diagonal_contract 9) (1 / 10000)%R 1%R 300%R 1%Z)
    as (susc & Hsusc & Hslen & _); [lia|].
  destruct (@magnetization_returns Examples.eigh_diagonal
              Examples.cubic_ion 8 ham [0; 0; 1]%R
              eq_refl ltac:(lia) eq_refl eq_refl eq_refl
              (@eigh_diagonal_contract 9) Examples.geomspace_positive
              1%R 300%R 1%Z 1%R 300%R 1%Z [1%R] eq_refl)
    as (B_array & rows & HB & Hm & HF); [lia|].
  rewrite Hsusc, Hm. cbn [Py.bind].
  injection HB as <-.
  destruct susc as [|[T chi] [|? ?]]; try discriminate Hslen.
  inversion HF as [|B row l1 l2 Hrow Hnil]; subst. inversion Hnil; subst.
  inversion Hrow as [|T' [[B' T''] v'] l3 l4 He Hnil']; subst.
  inversion Hnil'; subst.
  eexists. eexists. reflexivity.
Qed.

Lemma training_sets_are_consecutive_samples_witness :
  exists out g',
    output_all_data Examples.eigvalsh_diagonal Examples.eigh_diagonal
      Examples.geomspace_positive Examples.module_levels IndexError 0
      Examples.cubic_ion Examples.Stevens_range 1 Examples.three_steps
      Examples.one_step Examples.one_step Examples.one_step Examples.rg
    = Some (Ok out, g') /\
    length (stevens_params_all out) = 1 /\ length (cV_data_all out) = 1 /\
    length (susc_data_all out) = 1 /\ length (mag_data_all out) = 1.
Proof.
  destruct example_run as (out & g' & H). exists out, g'.
  split; [exact H|].
  destruct (@training_sets_are_consecutive_samples _ _ _ _ _ _ _ _ _ _ _ _
              _ _ _ _ H) as (Hv & Hc & Hs & Hm & _).
  now repeat split.
Defined.

Lemma susceptibility_data_layout_witness :
  exists out g',
    output_all_data Examples.eigvalsh_diagonal Examples.eigh_diagonal
      Examples.geomspace_positive Examples.module_levels IndexError 0
      Examples.cubic_ion Examples.Stevens_range 1 Examples.three_steps
      Examples.one_step Examples.one_step Examples.one_step Examples.rg
    = Some (Ok out, g') /\
    shape2 (nth 0 (susc_data_all out) []) 1 2 /\
    get2 (nth 0 (susc_data_all out) []) 0 0
    = Some (linear_point 1 300 1 0).
Proof.
  destruct example_run as (out & g' & H). exists out, g'.
  split; [exact H|].
  destruct (@susceptibility_data_layout _ _ _ _ _ _ _ _ _ _ _ _ _ _ _ _ 0
              H (le_n 1)) as (Hshape & _ & f & _ & Hd).
  split; [exact Hshape|].
  destruct (Hd 0 (le_n 1)) as (arr & _ & Hi).
  exact (proj1 (Hi 0 (le_n 1))).
Defined.

Lemma magnetization_data_layout_witness :
  exists out g',
    output_all_data Examples.eigvalsh_diagonal Examples.eigh_diagonal
      Examples.geomspace_positive Examples.module_levels IndexError 0
      Examples.cubic_ion Examples.Stevens_range 1 Examples.three_steps
      Examples.one_step Examples.one_step Examples.one_step Examples.rg
    = Some (Ok out, g') /\
    shape3 (nth 0 (mag_data_all out) []) 1 1 3 /\
    get3 (nth 0 (mag_data_all out) []) 0 0 0
    = Some (linear_point 1 300 1 0).
Proof.
  destruct example_run as (out & g' & H). exists out, g'.
  split; [exact H|].
  destruct (@magnetization_data_layout _ _ _ _ _ _ _ _ _ _ _ _ _ _ _ _ 0
              H (le_n 1)) as (Hshape & _ & f & _ & Hd).
  split; [exact Hshape|].
  destruct (Hd 0 (le_n 1)) as (T_array & marr & _ & _ & Hi).
  exact (proj1 (Hi 0 0 (le_n 1) (le_n 1))).
Defined.

Lemma unsupported_J_yields_no_data_witness :
  exists g1,
    output_all_data Examples.eigvalsh_diagonal Examples.eigh_diagonal
      Examples.geomspace_positive Examples.module_levels
      (ValueError "object arrays are not supported") 7
      Examples.script_object Examples.Stevens_range (-1)
      Examples.script_cV_T_range Examples.script_cV_T_range
      Examples.script_mag_T_range Examples.script_mag_B_range Examples.rg
    = Some (Raise (ValueError "object arrays are not supported"), g1).
Proof.
  destruct (generate_random_stevens Examples.script_object
              Examples.Stevens_range (-1) 7 Examples.rg)
    as [[[v|e] g1]|] eqn:Hs;
    [|vm_compute in Hs; discriminate Hs|vm_compute in Hs; discriminate Hs].
  exists g1.
  destruct (@unsupported_J_yields_no_data Examples.eigvalsh_diagonal
              Examples.eigh_diagonal Examples.geomspace_positive
              Examples.module_levels
              (ValueError "object arrays are not supported") 7
              Examples.script_object Examples.Stevens_range (-1)
              Examples.script_cV_T_range Examples.script_cV_T_range
              Examples.script_mag_T_range Examples.script_mag_B_range
              Examples.rg g1 v) as (e & He & Hee).
  - unfold supported_J. cbn [Self.J Examples.script_object].
    intros [H|[H|[H|[H|[H|H]]]]]; discriminate H.
  - cbn. lia.
  - exact Hs.
  - rewrite (Hee ltac:(cbn; lia)) in He. exact He.
Defined.

End OutputFacts.
